(** * Learning-to-rank experiment driver of pyserini: a shallow embedding

    The development follows two source files:
    - [pyserini/ltr/_base.py]: the [Feature] wrappers and the
      [FeatureExtractor] facade over the native (Java) extraction utils;
    - [msmarco-passage_exp/test.py]: the batch assembler [extract], the
      cache hashes [hash_df], [hash_anserini_jar], [hash_fe], the loaders
      [train_data_loader], [dev_data_loader], [data_loader] and the rank
      evaluator [eval_mrr].

    Python values are modelled as follows.  Integers of the data frames
    (query id, passage id, relevance; int32 columns filled by [read_csv])
    are [Z]; Python floats are IEEE binary64 and are the kernel's [float];
    [str] is [string] read as its UTF-8 bytes (byte order and code point
    order agree); a [dict] whose key order is observed is an association
    list in insertion order, other dictionaries are [gmap]s; a [set] is a
    [gset].  A raised exception is the [Raise] outcome of a computation;
    side effects on the native utils, on the file system and on the
    environment are threaded through a state that survives a raise. *)

From Stdlib Require Import ZArith String Ascii List Floats.
From Stdlib Require Import DecimalString DecimalZ DecimalPos HexString.
From stdpp Require Import gmap strings list sorting.

Local Open Scope string_scope.
Local Open Scope Z_scope.
Local Open Scope list_scope.

(** ** Python runtime: exceptions, outcomes, stateful computations *)

Module Py.

Inductive exn : Type :=
| AssertionError
| TypeError
| KeyError
| IndexError
| ValueError
| FileNotFoundError
| UnpicklingError
| UnboundLocalError
| AttributeError
| Exception (msg : string)
| JavaException (msg : string).

Inductive outcome (A : Type) : Type :=
| Ok (a : A)
| Raise (e : exn).
Arguments Ok {A} a.
Arguments Raise {A} e.

Definition obind {A B} (m : outcome A) (k : A -> outcome B) : outcome B :=
  match m with
  | Ok a => k a
  | Raise e => Raise e
  end.

(** A computation over a mutable store [S]: the store is returned
    whether the body finished or raised. *)
Definition M (S A : Type) : Type := S -> outcome A * S.

Definition ret {S A} (a : A) : M S A := fun s => (Ok a, s).
Definition raise {S A} (e : exn) : M S A := fun s => (Raise e, s).
Definition bind {S A B} (m : M S A) (k : A -> M S B) : M S B :=
  fun s =>
    match m s with
    | (Ok a, s') => k a s'
    | (Raise e, s') => (Raise e, s')
    end.
Definition lift {S A} (o : outcome A) : M S A := fun s => (o, s).
Definition get {S} : M S S := fun s => (Ok s, s).
Definition put {S} (s : S) : M S unit := fun _ => (Ok tt, s).

(** Run a computation over a component [T] of a larger store [S]. *)
Definition zoom {S T A} (proj : S -> T) (upd : T -> S -> S) (m : M T A) : M S A :=
  fun s => let '(o, t) := m (proj s) in (o, upd t s).

(** Dynamically typed values that cross a call boundary. *)
Inductive pyval : Type :=
| PStr (s : string)
| PInt (z : Z)
| PFloat (f : float)
| PStrList (l : list string)
| PIntList (l : list Z).

(** [str(n)] and [int(s)] on integers, in decimal. *)
Definition str (z : Z) : string := NilZero.string_of_int (Z.to_int z).
Definition int (s : string) : outcome Z :=
  match NilZero.int_of_string s with
  | Some d => Ok (Z.of_int d)
  | None => Raise ValueError
  end.

(** [hex(n)] on a non-negative integer. *)
Definition hex (z : Z) : string := HexString.of_Z z.

(** Insertion-ordered dictionaries ([dict] since Python 3.7). *)
Section Dict.
Context {K V : Type} `{EqDecision K}.

Definition dict := list (K * V).

Fixpoint dict_get (k : K) (d : dict) : option V :=
  match d with
  | [] => None
  | (k', v) :: d' => if decide (k = k') then Some v else dict_get k d'
  end.

Definition dict_mem (k : K) (d : dict) : bool :=
  match dict_get k d with Some _ => true | None => false end.

(** [d[k] = v]: overwrite in place, or append a new key at the end. *)
Fixpoint dict_set (k : K) (v : V) (d : dict) : dict :=
  match d with
  | [] => [(k, v)]
  | (k', v') :: d' =>
      if decide (k = k') then (k, v) :: d' else (k', v') :: dict_set k v d'
  end.

Definition dict_keys (d : dict) : list K := map fst d.
End Dict.
Arguments dict : clear implicits.

(** Stable sorting.  [sorted], and numpy's [kind='mergesort'] behind
    [sort_values], are stable sorts; the result of a stable sort is
    determined by the input and the order, so it is computed here by
    insertion: an element goes in front of the first one it is not
    greater than, hence in front of its equals that came later. *)
Section Sort.
Context {A : Type} (leb : A -> A -> bool).

Fixpoint insert_sorted (x : A) (l : list A) : list A :=
  match l with
  | [] => [x]
  | y :: l' => if leb x y then x :: y :: l' else y :: insert_sorted x l'
  end.

Definition stable_sort (l : list A) : list A := foldr insert_sorted [] l.
End Sort.

End Py.

Import Py.

Declare Scope py_scope.
Delimit Scope py_scope with py.
Notation "'let*' x ':=' m 'in' k" := (Py.bind m (fun x => k))
  (at level 10, x pattern, m at level 100, k at level 200) : py_scope.
Notation "'let?' x ':=' m 'in' k" := (Py.obind m (fun x => k))
  (at level 10, x pattern, m at level 100, k at level 200) : py_scope.
Local Open Scope py_scope.

(** ** pandas: grouping and sorting of a frame held as its list of rows *)

Module Pandas.

(** The distinct keys of a column, ascending: the order in which
    [groupby] (with its default [sort=True]) yields the groups. *)
Definition unique_sorted (ks : list Z) : list Z :=
  stable_sort Z.leb (remove_dups ks).

Section Frame.
Context {R : Type} (key : R -> Z).

Definition rows_of (k : Z) (rows : list R) : list R :=
  filter (fun r => key r = k) rows.

(** [frame.groupby(key)]: one group per distinct key, keys ascending,
    each group holding its rows in frame order. *)
Definition groupby (rows : list R) : list (Z * list R) :=
  map (fun k => (k, rows_of k rows)) (unique_sorted (map key rows)).

(** [frame.sort_values(by=key, kind='mergesort')]. *)
Definition sort_values (rows : list R) : list R :=
  stable_sort (fun a b => (key a <=? key b)%Z) rows.

(** [frame.groupby(key).agg(count=(col, 'count'))['count']] for a
    column without missing cells. *)
Definition group_count (rows : list R) : list (Z * nat) :=
  map (fun g => (fst g, length (snd g))) (groupby rows).
End Frame.

(** [frame.sort_values(col, ascending=False, kind='mergesort')] on a
    float column, as pandas' [nargsort] computes it: the rows without a
    NaN are reversed, sorted ascending by the stable sort and reversed
    again; the rows with a NaN follow in frame order. *)
Definition sort_values_desc {R : Type} (col : R -> float) (rows : list R) : list R :=
  let non_nans := filter (fun r => negb (PrimFloat.is_nan (col r)) = true) rows in
  let nans := filter (fun r => PrimFloat.is_nan (col r) = true) rows in
  rev (stable_sort (fun a b => PrimFloat.leb (col a) (col b)) (rev non_nans)) ++ nans.

(** [frame.drop_duplicates()]: the first occurrence of every row, in
    frame order. *)
Fixpoint drop_duplicates {A : Type} `{EqDecision A} (l : list A) : list A :=
  match l with
  | [] => []
  | x :: rest => x :: filter (fun y => y <> x) (drop_duplicates rest)
  end.

End Pandas.

Import Pandas.

(** ** pyserini/ltr/_base.py *)

Module Base.

(** A Java feature extractor instance, as far as Python sees it: the
    class it was made from, the constructor arguments, and the answer
    of its [getName()]. *)
Record JObject : Type := {
  jclass : string;
  jargs : list pyval;
  getName : string
}.

(** [class Feature]: a wrapper holding [self.extractor]. *)
Record Feature : Type := { extractor : JObject }.

Definition name (self : Feature) : string := getName (extractor self).

Section Features.
(** What the Java class named [cls], built with [args], answers to
    [getName()]. *)
Variable java_name : string -> list pyval -> string.

Definition autoclass (cls : string) (args : list pyval) : JObject :=
  {| jclass := cls; jargs := args; getName := java_name cls args |}.

(** The subclasses of [Feature]: each builds its Java extractor from a
    class and constructor arguments (defaults: [k1=0.9], [b=0.4],
    [mu=1000], [gap=8]). *)
Definition feature (cls : string) (args : list pyval) : Feature :=
  {| extractor := autoclass cls args |}.

Definition AvgICTF : Feature := feature "io.anserini.ltr.feature.base.AvgICTF" [].
Definition AvgIDF : Feature := feature "io.anserini.ltr.feature.base.AvgIDF" [].
Definition BM25 (k1 b : float) : Feature :=
  feature "io.anserini.ltr.feature.base.BM25" [PFloat k1; PFloat b].
Definition LMDir (mu : Z) : Feature :=
  feature "io.anserini.ltr.feature.base.LMDir" [PInt mu].
Definition DRF_GL2 : Feature := feature "io.anserini.ltr.feature.base.DFR_GL2" [].
Definition DFR_In_expB2 : Feature :=
  feature "io.anserini.ltr.feature.base.DFR_In_expB2" [].
Definition DocSize : Feature := feature "io.anserini.ltr.feature.base.DocSize" [].
Definition MatchingTermCount : Feature :=
  feature "io.anserini.ltr.feature.base.MatchingTermCount" [].
Definition QueryLength : Feature :=
  feature "io.anserini.ltr.feature.base.QueryLength" [].
Definition AvgSCQ : Feature := feature "io.anserini.ltr.feature.base.AvgSCQ" [].
Definition SCS : Feature := feature "io.anserini.ltr.feature.base.SCS" [].
Definition SumMatchingTF : Feature :=
  feature "io.anserini.ltr.feature.base.SumMatchingTF" [].
Definition UniqueTermCount : Feature :=
  feature "io.anserini.ltr.feature.base.UniqueTermCount" [].
Definition UnorderedSequentialPairs (gap : Z) : Feature :=
  feature "io.anserini.ltr.feature.UnorderedSequentialPairs" [PInt gap].
Definition OrderedSequentialPairs (gap : Z) : Feature :=
  feature "io.anserini.ltr.feature.OrderedSequentialPairs" [PInt gap].
Definition UnorderedQueryPairs (gap : Z) : Feature :=
  feature "io.anserini.ltr.feature.UnorderedQueryPairs" [PInt gap].
Definition OrderedQueryPairs (gap : Z) : Feature :=
  feature "io.anserini.ltr.feature.OrderedQueryPairs" [PInt gap].
End Features.

(** One document of a job's result, after [json.loads]: the passage id
    and the feature vector. *)
Record Doc : Type := { doc_pid : Z; doc_features : list float }.

(** The native [FeatureExtractorUtils] behind [self.utils]: an external
    collaborator with a store [U] of its own.  [lazyExtract] receives
    the job as the JSON object that [json.dumps] serialises, given here
    by its fields in order. *)
Record JUtils (U : Type) : Type := {
  j_add : JObject -> M U unit;
  lazyExtract : list (string * pyval) -> M U unit;
  getResult : string -> M U (list Doc)
}.
Arguments j_add {U} _ _ _.
Arguments lazyExtract {U} _ _ _.
Arguments getResult {U} _ _ _.

(** [class FeatureExtractor]: [self.utils] and [self.feature_name]. *)
Record FeatureExtractor (U : Type) : Type := {
  utils : U;
  feature_name : list string
}.
Arguments utils {U} _.
Arguments feature_name {U} _.

Section Methods.
Context {U : Type} (J : JUtils U).

Definition on_utils {A} (m : M U A) : M (FeatureExtractor U) A :=
  zoom utils (fun u self => {| utils := u; feature_name := feature_name self |}) m.

(** [__init__]: fresh utils, no feature yet. *)
Definition init (fresh : U) : FeatureExtractor U :=
  {| utils := fresh; feature_name := [] |}.

Definition add (pyclass : Feature) : M (FeatureExtractor U) unit :=
  let* _ := on_utils (j_add J (extractor pyclass)) in
  fun self =>
    (Ok tt, {| utils := utils self;
               feature_name := feature_name self ++ [name pyclass] |}).

Definition feature_names (self : FeatureExtractor U) : list string :=
  feature_name self.

Definition lazy_extract (qid query_tokens doc_ids : pyval)
  : M (FeatureExtractor U) unit :=
  let input := [("qid", qid); ("queryTokens", query_tokens); ("docIds", doc_ids)] in
  on_utils (lazyExtract J input).

Definition get_result (qid : string) : M (FeatureExtractor U) (list Doc) :=
  on_utils (getResult J qid).
End Methods.

(** An extractor object as its callers use it: methods looked up by
    name and called with positional arguments.  Binding the arguments
    to the parameters of the [def] raises [TypeError] when their number
    differs. *)
Record FeObj (S : Type) : Type := {
  call_lazy_extract : list pyval -> M S unit;
  call_get_result : string -> M S (list Doc);
  call_feature_names : S -> list string
}.
Arguments call_lazy_extract {S} _ _ _.
Arguments call_get_result {S} _ _ _.
Arguments call_feature_names {S} _ _.

Definition FeatureExtractor_obj {U} (J : JUtils U) : FeObj (FeatureExtractor U) :=
  {| call_lazy_extract := fun args =>
       match args with
       | [qid; query_tokens; doc_ids] => lazy_extract J qid query_tokens doc_ids
       | _ => raise TypeError
       end;
     call_get_result := get_result J;
     call_feature_names := feature_names |}.

End Base.

Import Base.

(** ** msmarco-passage_exp/test.py *)

Module Exp.

(** A row of a judgment frame ([train_data_loader], [dev_data_loader]):
    index [(qid, pid)], the column [rel], and the column [rank] when
    the frame was read from a run file. *)
Record InRow : Type := { qid : Z; pid : Z; rank : option Z; rel : Z }.

(** A row of an extracted frame: the integer columns [qid], [pid],
    [rel] and the float columns named by [fe.feature_names()]. *)
Record OutRow : Type := {
  o_qid : Z; o_pid : Z; o_rel : Z; o_features : list float
}.

(** A row of the extracted frame once [train] has added [score]. *)
Record Scored : Type := { s_row : OutRow; score : float }.

(** [queries[qid]]: the two analysed forms of the query text. *)
Record Query : Type := { nonSW : list string; tokenized : list string }.

(** The flush threshold written in [extract]. *)
Definition FLUSH : Z := 10000.

Section Extract.
Context {S : Type} (fe : FeObj S).
(** numpy's narrowing of a double to a [float32] cell. *)
Variable float32 : float -> float.

(** The local variables of [extract] that outlive one iteration;
    [t_var] is the loop variable [t], still bound after its loop. *)
Record locals : Type := {
  df_pieces : list (list OutRow);
  fetch_later : list string;
  qidpid2rel : gmap Z (dict Z Z);
  need_rows : nat;
  t_var : option InRow
}.

Definition locals0 : locals :=
  {| df_pieces := []; fetch_later := []; qidpid2rel := ∅;
     need_rows := 0; t_var := None |}.

(** [qidpid2rel[q]] on a [defaultdict(dict)]. *)
Definition rel_of_query (m : gmap Z (dict Z Z)) (q : Z) : dict Z Z :=
  default [] (m !! q).

(** Body of [for t in group.reset_index().itertuples()]. *)
Definition record_judgment (L : locals) (t : InRow) : outcome locals :=
  let d := rel_of_query (qidpid2rel L) (qid t) in
  if dict_mem (pid t) d then Raise AssertionError
  else Ok {| df_pieces := df_pieces L;
             fetch_later := fetch_later L;
             qidpid2rel := <[qid t := dict_set (pid t) (rel t) d]> (qidpid2rel L);
             need_rows := Datatypes.S (need_rows L);
             t_var := Some t |}.

Fixpoint record_group (L : locals) (group : list InRow) : outcome locals :=
  match group with
  | [] => Ok L
  | t :: rest => let? L' := record_judgment L t in record_group L' rest
  end.

(** [np.zeros]: a row of the two zero matrices. *)
Definition zero_row (ncols : nat) : OutRow :=
  {| o_qid := 0; o_pid := 0; o_rel := 0;
     o_features := replicate ncols 0%float |}.

(** [feature[idx,:] = doc['features']]: a vector of the row's width,
    or a single value broadcast over the row. *)
Definition assign_features (ncols : nat) (fs : list float) : outcome (list float) :=
  if (length fs =? ncols)%nat then Ok (map float32 fs)
  else match fs with
       | [x] => Ok (replicate ncols (float32 x))
       | _ => Raise ValueError
       end.

(** Body of [for doc in fe.get_result(qid)]. *)
Definition write_doc (m : gmap Z (dict Z Z)) (ncols : nat) (qid_s : string)
    (st : list OutRow * nat) (doc : Doc) : outcome (list OutRow * nat) :=
  let '(mat, idx) := st in
  let? q := int qid_s in
  if negb (idx <? length mat)%nat then Raise IndexError
  else
    match dict_get (doc_pid doc) (rel_of_query m q) with
    | None => Raise KeyError
    | Some r =>
        let? fs := assign_features ncols (doc_features doc) in
        Ok (<[idx := {| o_qid := q; o_pid := doc_pid doc; o_rel := r;
                        o_features := fs |}]> mat,
            Datatypes.S idx)
    end.

Fixpoint write_docs (m : gmap Z (dict Z Z)) (ncols : nat) (qid_s : string)
    (st : list OutRow * nat) (docs : list Doc) : outcome (list OutRow * nat) :=
  match docs with
  | [] => Ok st
  | doc :: rest =>
      let? st' := write_doc m ncols qid_s st doc in
      write_docs m ncols qid_s st' rest
  end.

(** [for qid in fetch_later: for doc in fe.get_result(qid): ...] *)
Fixpoint fetch_all (m : gmap Z (dict Z Z)) (ncols : nat) (qids : list string)
    (st : list OutRow * nat) : M S (list OutRow * nat) :=
  match qids with
  | [] => ret st
  | qid_s :: rest =>
      let* docs := call_get_result fe qid_s in
      let* st' := lift (write_docs m ncols qid_s st docs) in
      fetch_all m ncols rest st'
  end.

(** The block that turns the pending jobs into one piece.  The names
    are read once for the width of the float matrix and once more for
    the column labels of its frame, which must be as many. *)
Definition flush (L : locals) : M S (list OutRow) :=
  let* s := get in
  let ncols := length (call_feature_names fe s) in
  let info := replicate (need_rows L) (zero_row ncols) in
  let* (mat, _) := fetch_all (qidpid2rel L) ncols (fetch_later L) (info, 0%nat) in
  let* s' := get in
  if (length (call_feature_names fe s') =? ncols)%nat then ret mat
  else raise ValueError.

(** Body of [for qid, group in df.groupby('qid')], with the flush
    threshold [B]. *)
Definition extract_step (B : Z) (queries : gmap Z Query)
    (L : locals) (g : Z * list InRow) : M S locals :=
  let '(q, group) := g in
  let* L1 := lift (record_group L group) in
  let* qry := lift (match queries !! q with
                    | Some qry => Ok qry
                    | None => Raise KeyError
                    end) in
  let* t := lift (match t_var L1 with
                  | Some t => Ok t
                  | None => Raise UnboundLocalError
                  end) in
  let* _ := call_lazy_extract fe
              [PStr (str q); PStrList (nonSW qry); PStrList (tokenized qry);
               PIntList (dict_keys (rel_of_query (qidpid2rel L1) (qid t)))] in
  let pending := fetch_later L1 ++ [str q] in
  if Z.of_nat (length pending) =? B then
    let* piece := flush {| df_pieces := df_pieces L1; fetch_later := pending;
                           qidpid2rel := qidpid2rel L1;
                           need_rows := need_rows L1; t_var := t_var L1 |} in
    ret {| df_pieces := df_pieces L1 ++ [piece]; fetch_later := [];
           qidpid2rel := qidpid2rel L1; need_rows := 0; t_var := t_var L1 |}
  else
    ret {| df_pieces := df_pieces L1; fetch_later := pending;
           qidpid2rel := qidpid2rel L1;
           need_rows := need_rows L1; t_var := t_var L1 |}.

Fixpoint extract_loop (B : Z) (queries : gmap Z Query)
    (L : locals) (groups : list (Z * list InRow)) : M S locals :=
  match groups with
  | [] => ret L
  | g :: rest =>
      let* L' := extract_step B queries L g in
      extract_loop B queries L' rest
  end.

(** The [#deal with rest] block. *)
Definition extract_rest (L : locals) : M S (list (list OutRow)) :=
  if (0 <? length (fetch_later L))%nat then
    let* piece := flush L in ret (df_pieces L ++ [piece])
  else ret (df_pieces L).

(** [pd.concat(df_pieces, axis=0, ignore_index=True)]; pandas refuses
    an empty list of pieces. *)
Definition pd_concat (pieces : list (list OutRow)) : outcome (list OutRow) :=
  match pieces with
  | [] => Raise ValueError
  | _ => Ok (concat pieces)
  end.

Definition extract_with (B : Z) (df : list InRow) (queries : gmap Z Query)
  : M S (list OutRow * list (Z * nat)) :=
  let* L := extract_loop B queries locals0 (groupby qid df) in
  let* pieces := extract_rest L in
  let* data := lift (pd_concat pieces) in
  let data := sort_values o_qid data in
  let group := group_count o_qid data in
  ret (data, group).

Definition extract (df : list InRow) (queries : gmap Z Query)
  : M S (list OutRow * list (Z * nat)) :=
  extract_with FLUSH df queries.
End Extract.

(** *** The cache layer *)

(** The object pickled by [data_loader]. *)
Record Extracted : Type := {
  data : list OutRow;
  group : list (Z * nat);
  df_hash : string;
  jar_hash : string;
  fe_hash : string
}.

(** What a file decodes to: a pickled judgment frame, a pickled
    [Extracted] object, or the fields of a tab-separated table. *)
Inductive file : Type :=
| PickledFrame (rows : list InRow)
| PickledObj (o : Extracted)
| Table (lines : list (list string)).

(** The process environment: the decoded files by path, [os.environ],
    the answers of [glob.glob] and of [open(p, 'rb').read()], and the
    store of the extractor object. *)
Record Env (S : Type) : Type := {
  fs : gmap string file;
  environ : gmap string string;
  glob : string -> list string;
  read_bytes : string -> outcome string;
  fe_state : S
}.
Arguments fs {S} _.
Arguments environ {S} _.
Arguments glob {S} _.
Arguments read_bytes {S} _.
Arguments fe_state {S} _.

Definition exists_path {S} (p : string) : M (Env S) bool :=
  fun w => (Ok (bool_decide (is_Some (fs w !! p))), w).

Definition write_file {S} (p : string) (f : file) : M (Env S) unit :=
  fun w => (Ok tt, {| fs := <[p := f]> (fs w); environ := environ w; glob := glob w;
                      read_bytes := read_bytes w; fe_state := fe_state w |}).

Definition on_fe {S A} (m : M S A) : M (Env S) A :=
  zoom fe_state
    (fun s w => {| fs := fs w; environ := environ w; glob := glob w;
                   read_bytes := read_bytes w; fe_state := s |}) m.

Definition uint64_add (a b : Z) : Z := (a + b) mod 2 ^ 64.

Section Hashes.
(** [pd.util.hash_pandas_object]: one uint64 per row, computed from
    that row's index and cells. *)
Variable hash_row : InRow -> Z.
(** [hashlib.md5(bytes).hexdigest()]. *)
Variable md5_hexdigest : string -> string.

Definition hash_pandas_object (df : list InRow) : list Z := map hash_row df.

(** [h.sum()] on a uint64 series wraps around. *)
Definition series_sum (h : list Z) : Z := foldr uint64_add 0 h.

Definition hash_df (df : list InRow) : string :=
  let h := hash_pandas_object df in
  hex (series_sum h).

Definition hash_anserini_jar {S} : M (Env S) string :=
  let* w := get in
  let* cp := lift (match environ w !! "ANSERINI_CLASSPATH" with
                   | Some cp => Ok cp
                   | None => Raise KeyError
                   end) in
  let find := glob w (cp ++ "/*fatjar.jar")%string in
  match find with
  | [jar] =>
      let* bytes := lift (read_bytes w jar) in
      ret (md5_hexdigest bytes)
  | _ => raise AssertionError
  end.

(** [sorted] on strings. *)
Definition sorted (l : list string) : list string := stable_sort String.leb l.

Definition hash_fe {S} (fe : FeObj S) (s : S) : string :=
  md5_hexdigest (String.concat "," (sorted (call_feature_names fe s))).

Section DataLoader.
Context {S : Type} (fe : FeObj S).
Variable float32 : float -> float.

Definition cache_path (task df_h jar_h fe_h : string) : string :=
  (task ++ "_" ++ df_h ++ "_" ++ jar_h ++ "_" ++ fe_h ++ ".pickle")%string.

Definition data_loader (task : string) (df : list InRow) (queries : gmap Z Query)
  : M (Env S) Extracted :=
  let df_hash := hash_df df in
  let* jar_hash := hash_anserini_jar in
  let* w := get in
  let fe_hash := hash_fe fe (fe_state w) in
  let path := cache_path task df_hash jar_hash fe_hash in
  let* cached := exists_path path in
  if cached : bool then
    match fs w !! path with
    | Some (PickledObj res) => ret res
    | Some (PickledFrame _) => raise KeyError
    | _ => raise UnpicklingError
    end
  else if bool_decide (task = "train") || bool_decide (task = "dev") then
    let* (data, group) := on_fe (extract fe float32 df queries) in
    let obj := {| data := data; group := group; df_hash := df_hash;
                  jar_hash := jar_hash; fe_hash := fe_hash |} in
    let* _ := write_file path (PickledObj obj) in
    ret obj
  else raise (Exception "unknown parameters").
End DataLoader.
End Hashes.

(** *** The dev judgments *)

(** [pd.read_csv(path, sep='\t', names=..., dtype=np.int32)] keeping the
    columns at the positions [usecols] of [width] named columns. *)
Fixpoint parse_ints (fields : list string) : outcome (list Z) :=
  match fields with
  | [] => Ok []
  | f :: rest =>
      let? z := int f in
      let? zs := parse_ints rest in
      Ok (z :: zs)
  end.

Definition parse_line (width : nat) (usecols : list nat) (line : list string)
  : outcome (list Z) :=
  if (length line =? width)%nat
  then parse_ints (omap (fun i => line !! i) usecols)
  else Raise ValueError.

Fixpoint parse_lines (width : nat) (usecols : list nat) (lines : list (list string))
  : outcome (list (list Z)) :=
  match lines with
  | [] => Ok []
  | l :: rest =>
      let? r := parse_line width usecols l in
      let? rs := parse_lines width usecols rest in
      Ok (r :: rs)
  end.

Definition read_csv {S} (path : string) (width : nat) (usecols : list nat)
  : M (Env S) (list (list Z)) :=
  fun w =>
    match fs w !! path with
    | None => (Raise FileNotFoundError, w)
    | Some (Table lines) => (parse_lines width usecols lines, w)
    | Some _ => (Raise ValueError, w)
    end.

(** [dev.merge(dev_qrel, on=['qid','pid'], how='left')] followed by
    [fillna(0)] on [rel]: every left row once per matching judgment, in
    judgment order, or once with relevance 0 when none matches. *)
Definition merge_left (dev : list (Z * Z * option Z)) (qrel : list (Z * Z * Z))
  : list InRow :=
  flat_map
    (fun '(q, p, rk) =>
       match filter (fun j => fst (fst j) = q /\ snd (fst j) = p) qrel with
       | [] => [{| qid := q; pid := p; rank := rk; rel := 0 |}]
       | js => map (fun j => {| qid := q; pid := p; rank := rk; rel := snd j |}) js
       end)
    dev.

Definition qid_pid_leb (a b : InRow) : bool :=
  (qid a <? qid b) || ((qid a =? qid b) && (pid a <=? pid b)).

Definition as_run (cols : list Z) : outcome (Z * Z * option Z) :=
  match cols with
  | [q; p] => Ok (q, p, None)
  | [q; p; rk] => Ok (q, p, Some rk)
  | _ => Raise ValueError
  end.

Definition as_qrel (cols : list Z) : outcome (Z * Z * Z) :=
  match cols with
  | [q; p; r] => Ok (q, p, r)
  | _ => Raise ValueError
  end.

Fixpoint traverse {A B} (f : A -> outcome B) (l : list A) : outcome (list B) :=
  match l with
  | [] => Ok []
  | a :: rest =>
      let? b := f a in
      let? bs := traverse f rest in
      Ok (b :: bs)
  end.

Definition dev_data_loader {S} (task : string) : M (Env S) (list InRow) :=
  let path := ("dev_" ++ task ++ ".pickle")%string in
  let* cached := exists_path path in
  if cached : bool then
    let* w := get in
    match fs w !! path with
    | Some (PickledFrame dev) => ret dev
    | Some (PickledObj _) => raise AttributeError
    | _ => raise UnpicklingError
    end
  else
    let* dev :=
      if bool_decide (task = "rerank") then
        read_csv "collections/msmarco-passage/top1000.dev" 4 [0; 1]%nat
      else if bool_decide (task = "anserini") then
        read_csv "runs/msmarco-passage/run.msmarco-passage.dev.small.tsv" 3 [0; 1; 2]%nat
      else if bool_decide (task = "pygaggle") then
        read_csv "../pygaggle/data/msmarco_ans_entire/run.dev.small.tsv" 3 [0; 1; 2]%nat
      else raise (Exception "unknown parameters") in
    let* dev_qrel :=
      read_csv "collections/msmarco-passage/qrels.dev.small.tsv" 4 [0; 2; 3]%nat in
    let* dev := lift (traverse as_run dev) in
    let* dev_qrel := lift (traverse as_qrel dev_qrel) in
    let dev := merge_left dev dev_qrel in
    let dev := stable_sort qid_pid_leb dev in
    let* _ := write_file path (PickledFrame dev) in
    ret dev.

(** *** The training triples *)

Definition as_triple (cols : list Z) : outcome (Z * Z * Z) :=
  match cols with
  | [q; p; n] => Ok (q, p, n)
  | _ => Raise ValueError
  end.

(** [train[['qid', 'pos_pid']].rename(...).drop_duplicates()] with
    [rel = 1], and the same for [neg_pid] with [rel = 0]. *)
Definition pos_half (train : list (Z * Z * Z)) : list InRow :=
  map (fun '(q, p) => {| qid := q; pid := p; rank := None; rel := 1 |})
    (drop_duplicates (map (fun '(q, p, _) => (q, p)) train)).

Definition neg_half (train : list (Z * Z * Z)) : list InRow :=
  map (fun '(q, n) => {| qid := q; pid := n; rank := None; rel := 0 |})
    (drop_duplicates (map (fun '(q, _, n) => (q, n)) train)).

Section TrainData.
(** [group.sample(n=n, random_state=seed)]: the rows pandas' generator
    picks. *)
Variable sample : nat -> Z -> list InRow -> list InRow.

(** [group.sample(n=min(neg_sample, len(group)), random_state=random_seed)];
    pandas refuses a negative [n]. *)
Definition sample_group (neg_sample random_seed : Z) (group : list InRow)
  : outcome (list InRow) :=
  let n := Z.min neg_sample (Z.of_nat (length group)) in
  if n <? 0 then Raise ValueError
  else Ok (sample (Z.to_nat n) random_seed group).

(** The frame [train_data_loader] makes from the triples: the distinct
    positive pairs with [rel = 1], then for every query the sample of
    its distinct negative pairs with [rel = 0], sorted by (qid, pid). *)
Definition sampled_frame (neg_sample random_seed : Z) (train : list (Z * Z * Z))
  : outcome (list InRow) :=
  let? sampled_neg_half :=
    traverse (fun g => sample_group neg_sample random_seed (snd g))
      (groupby qid (neg_half train)) in
  Ok (stable_sort qid_pid_leb (concat (pos_half train :: sampled_neg_half))).

Definition train_data_loader {S} (neg_sample random_seed : Z) : M (Env S) (list InRow) :=
  let path := ("train_sampled_with_" ++ str neg_sample ++ "_" ++ str random_seed
                 ++ ".pickle")%string in
  let* cached := exists_path path in
  if cached : bool then
    let* w := get in
    match fs w !! path with
    | Some (PickledFrame sampled_train) => ret sampled_train
    | Some (PickledObj _) => raise AttributeError
    | _ => raise UnpicklingError
    end
  else
    let* train :=
      read_csv "collections/msmarco-passage/qidpidtriples.train.full.2.tsv" 3
        [0; 1; 2]%nat in
    let* train := lift (traverse as_triple train) in
    let* sampled_train := lift (sampled_frame neg_sample random_seed train) in
    let* _ := write_file path (PickledFrame sampled_train) in
    ret sampled_train.
End TrainData.

(** *** The rank evaluator *)

(** The literal [1e-8] as the binary64 value Python reads it to. *)
Definition eps : float := 0x1.5798ee2308c3ap-27%float.

(** [abs(t.score - prev_score) < 1e-8]. *)
Definition is_tie (t_score prev_score : float) : bool :=
  PrimFloat.ltb (PrimFloat.abs (PrimFloat.sub t_score prev_score)) eps.

Definition float_of_nat (n : nat) : float :=
  PrimFloat.of_uint63 (Uint63.of_Z (Z.of_nat n)).

(** [1.0/rank]. *)
Definition reciprocal (rk : nat) : float := PrimFloat.div 1 (float_of_nat rk).

(** The three accumulators of [eval_mrr]. *)
Record tally : Type := {
  score_tie_counter : nat;
  score_tie_query : gset Z;
  MRR : list float
}.

Definition tally0 : tally :=
  {| score_tie_counter := 0; score_tie_query := ∅; MRR := [] |}.

Definition note_tie (q : Z) (T : tally) : tally :=
  {| score_tie_counter := Datatypes.S (score_tie_counter T);
     score_tie_query := score_tie_query T ∪ {[q]};
     MRR := MRR T |}.

Definition record_value (v : float) (T : tally) : tally :=
  {| score_tie_counter := score_tie_counter T;
     score_tie_query := score_tie_query T;
     MRR := MRR T ++ [v] |}.

(** The inner [for t in ...itertuples()] loop from the point where
    [rk] rows have been passed and [prev_score] is as given; [len_group]
    is [len(group)].  Recording a value is followed by [break]. *)
Fixpoint walk (q : Z) (len_group : nat) (rows : list Scored)
    (rk : nat) (prev_score : option float) (T : tally) : tally :=
  match rows with
  | [] => T
  | t :: rest =>
      let T1 := match prev_score with
                | Some prev => if is_tie (score t) prev then note_tie q T else T
                | None => T
                end in
      let rk := Datatypes.S rk in
      if 0 <? o_rel (s_row t) then record_value (reciprocal rk) T1
      else if (rk =? 10)%nat || (rk =? len_group)%nat then record_value 0%float T1
      else walk q len_group rest rk (Some (score t)) T1
  end.

(** Body of [for qid, group in dev_data.groupby('qid')]. *)
Definition eval_group (T : tally) (g : Z * list Scored) : outcome tally :=
  let '(q, grp) := g in
  let pids := map (fun t => o_pid (s_row t)) grp in
  if bool_decide (length pids = size (list_to_set pids : gset Z)) then
    Ok (walk q (length grp) (sort_values_desc score grp) 0%nat None T)
  else Raise AssertionError.

Fixpoint eval_groups (T : tally) (groups : list (Z * list Scored)) : outcome tally :=
  match groups with
  | [] => Ok T
  | g :: rest => let? T' := eval_group T g in eval_groups T' rest
  end.

(** The accumulators when the outer loop of [eval_mrr] is left. *)
Definition eval_mrr_loop (dev_data : list Scored) : outcome tally :=
  eval_groups tally0 (groupby (fun t => o_qid (s_row t)) dev_data).

(** The dictionary returned by [eval_mrr]. *)
Record MrrResult : Type := { score_tie : string; mrr_10 : float }.

Section EvalMrr.
(** [np.mean(l).item()]. *)
Variable np_mean : list float -> float.

Definition eval_mrr (dev_data : list Scored) : outcome MrrResult :=
  let? T := eval_mrr_loop dev_data in
  let score_tie :=
    ("score_tie occurs " ++ str (Z.of_nat (score_tie_counter T)) ++ " times in "
       ++ str (Z.of_nat (size (score_tie_query T))) ++ " queries")%string in
  let mrr_10 := np_mean (MRR T) in
  Ok {| score_tie := score_tie; mrr_10 := mrr_10 |}.
End EvalMrr.

(** [data['score'] = scores]: the frame with the column [score] that
    [train] adds to the extracted dev frame. *)
Definition set_score (data : list OutRow) (scores : list float) : list Scored :=
  zip_with (fun r x => {| s_row := r; score := x |}) data scores.

End Exp.

Import Exp.

(** ** Observation of, and stand-ins for, the external collaborators *)

(** A call made on an extractor object. *)
Inductive event : Type :=
| Call_lazy_extract (args : list pyval)
| Call_get_result (qid_s : string) (answer : outcome (list Doc)).

(** The same object with every call, and every answer to a retrieval,
    logged, oldest first, in a second component of the store. *)
Definition traced {S : Type} (fe : FeObj S) : FeObj (S * list event) :=
  {| call_lazy_extract := fun args '(s, log) =>
       let '(o, s') := call_lazy_extract fe args s in
       (o, (s', log ++ [Call_lazy_extract args]));
     call_get_result := fun q '(s, log) =>
       let '(o, s') := call_get_result fe q s in
       (o, (s', log ++ [Call_get_result q o]));
     call_feature_names := fun '(s, _) => call_feature_names fe s |}.

Module Double.

(** Native utils that keep the submitted jobs by query id and answer a
    retrieval with the job's documents in reverse order, each with one
    cell per added extractor. *)
Record store : Type := {
  width : nat;
  jobs : gmap string (list Z)
}.

Definition store0 : store := {| width := 0; jobs := ∅ |}.

Definition job_of (input : list (string * pyval)) : option (string * list Z) :=
  match dict_get "qid" input, dict_get "docIds" input with
  | Some (PStr q), Some (PIntList ds) => Some (q, ds)
  | _, _ => None
  end.

Definition answer (w : nat) (ds : list Z) : list Doc :=
  map (fun p => {| doc_pid := p; doc_features := replicate w 1%float |}) (rev ds).

Definition utils : JUtils store :=
  {| j_add := fun _ u => (Ok tt, {| width := Datatypes.S (width u); jobs := jobs u |});
     lazyExtract := fun input u =>
       match job_of input with
       | Some (q, ds) => (Ok tt, {| width := width u; jobs := <[q := ds]> (jobs u) |})
       | None => (Raise (JavaException "malformed job"), u)
       end;
     getResult := fun q u =>
       match jobs u !! q with
       | Some ds => (Ok (answer (width u) ds),
                     {| width := width u; jobs := delete q (jobs u) |})
       | None => (Raise (JavaException "unknown job"), u)
       end |}.

(** An extractor object whose [lazy_extract] takes the two token lists
    that [extract] passes. *)
Definition fe : FeObj (FeatureExtractor store) :=
  {| call_lazy_extract := fun args =>
       match args with
       | [q; _; toks; ds] => lazy_extract utils q toks ds
       | _ => raise TypeError
       end;
     call_get_result := get_result utils;
     call_feature_names := feature_names |}.

Definition hash_row (t : InRow) : Z :=
  (qid t * 1000003 + pid t * 8191 + rel t) mod 2 ^ 64.

Definition md5_hexdigest (bytes : string) : string := bytes.

Definition float32 (x : float) : float := x.

Definition np_mean (l : list float) : float :=
  PrimFloat.div (foldl PrimFloat.add 0%float l) (float_of_nat (length l)).

(** A small judgment frame over three queries, with their analysed
    texts. *)
Definition judgment (q p r : Z) : InRow :=
  {| qid := q; pid := p; rank := None; rel := r |}.

Definition judgments : list InRow :=
  [judgment 2 20 0; judgment 1 100 1; judgment 1 101 0;
   judgment 2 21 1; judgment 3 5 0].

Definition queries : gmap Z Query :=
  list_to_map
    [(1, {| nonSW := ["what"; "is"]; tokenized := ["what"] |});
     (2, {| nonSW := ["rank"]; tokenized := ["rank"] |});
     (3, {| nonSW := []; tokenized := [] |})].

(** A scored dev frame.  Query 1 ranks a tied pair of irrelevant
    passages above its relevant one; query 2 has three tied irrelevant
    passages; query 3 has its relevant passage first and a tied pair
    below it. *)
Definition scored (q p r : Z) (x : float) : Scored :=
  {| s_row := {| o_qid := q; o_pid := p; o_rel := r; o_features := [] |}; score := x |}.

Definition dev_scored : list Scored :=
  [scored 1 102 1 0.5; scored 1 100 0 0.75; scored 1 101 0 0.75; scored 1 103 0 0.25;
   scored 2 7 0 0.5; scored 2 8 0 0.5; scored 2 9 0 0.5;
   scored 3 30 1 0.75; scored 3 31 0 0.125; scored 3 32 0 0.125]%float.

(** Java classes that answer [getName()] with their own name, whatever
    they were constructed with. *)
Definition java_name (cls : string) (args : list pyval) : string := cls.

Definition bm25_default : Feature :=
  BM25 java_name 0x1.ccccccccccccdp-1%float 0x1.999999999999ap-2%float.
Definition bm25_tuned : Feature :=
  BM25 java_name 0x1.3333333333333p+0%float 0.75%float.

(** The extractor after [fe.add] of each feature in turn. *)
Definition registered (fs : list Feature) : FeatureExtractor store :=
  foldl (fun self f => snd (add utils f self)) (init store0) fs.

(** The extractor after one job was submitted to a fresh one. *)
Definition submitted_once : FeatureExtractor store :=
  snd (lazy_extract utils (PStr "1") (PStrList ["what"]) (PIntList [100; 101])
         (init store0)).

Definition env0 {S} (s : S) : Env S :=
  {| fs := ∅;
     environ := {[ "ANSERINI_CLASSPATH" := "lib" ]};
     glob := fun _ => ["lib/anserini-fatjar.jar"];
     read_bytes := fun _ => Ok "jar";
     fe_state := s |}.

(** What [data_loader] finds for the task ["test"] once a pickle sits
    under the key of that task. *)
Definition cached_obj : Extracted :=
  {| data := []; group := []; df_hash := "0x0"; jar_hash := "jar"; fe_hash := "" |}.

Definition env_cached : Env (FeatureExtractor store) :=
  {| fs := {[ cache_path "test" (hash_df hash_row judgments) (md5_hexdigest "jar")
                (hash_fe md5_hexdigest fe (init store0)) := PickledObj cached_obj ]};
     environ := {[ "ANSERINI_CLASSPATH" := "lib" ]};
     glob := fun _ => ["lib/anserini-fatjar.jar"];
     read_bytes := fun _ => Ok "jar";
     fe_state := init store0 |}.

(** A sampler that takes the first [n] rows of the group. *)
Definition sample (n : nat) (seed : Z) (group : list InRow) : list InRow := take n group.

(** Triples in which query 1 has two positive and two negative
    passages and query 2 one of each. *)
Definition triples : list (Z * Z * Z) :=
  [(1, 100, 200); (1, 100, 201); (2, 20, 21); (1, 101, 200)].

(** An environment without [ANSERINI_CLASSPATH] and without files. *)
Definition env_bare {S} (s : S) : Env S :=
  {| fs := ∅; environ := ∅; glob := fun _ => [];
     read_bytes := fun _ => Raise FileNotFoundError; fe_state := s |}.

(** An environment with a run file, the judgment file and the triples
    file. *)
Definition env_files {S} (s : S) : Env S :=
  {| fs := {[ "runs/msmarco-passage/run.msmarco-passage.dev.small.tsv" :=
                Table [["2"; "21"; "1"]; ["1"; "101"; "1"]; ["1"; "100"; "2"]];
              "collections/msmarco-passage/qrels.dev.small.tsv" :=
                Table [["1"; "0"; "100"; "1"]; ["3"; "0"; "5"; "1"]];
              "collections/msmarco-passage/qidpidtriples.train.full.2.tsv" :=
                Table [["1"; "100"; "200"]; ["1"; "100"; "201"]; ["2"; "20"; "21"];
                       ["1"; "101"; "200"]] ]};
     environ := ∅; glob := fun _ => [];
     read_bytes := fun _ => Raise FileNotFoundError; fe_state := s |}.

End Double.

(** * Vocabulary of the statements *)

(** The frame is in ascending order of the column [key]. *)
Definition key_sorted {R : Type} (key : R -> Z) (l : list R) : Prop :=
  StronglySorted (fun a b => key a <= key b) l.

(** The row carries the relevance of a judgment of [rows] for its own
    (query id, passage id) pair. *)
Definition judged (rows : list InRow) (r : OutRow) : Prop :=
  exists t, t ∈ rows /\ qid t = o_qid r /\ pid t = o_pid r /\ rel t = o_rel r.

(** The row is one that [np.zeros] made and no document overwrote. *)
Definition padding (r : OutRow) : Prop := exists n, r = zero_row n.

(** A row that [extract] may hold: left at zero, or written from a
    judgment. *)
Definition row_ok (rows : list InRow) (r : OutRow) : Prop :=
  padding r \/ judged rows r.

(** What [qidpid2rel] holds once the judgments [seen] have been recorded,
    and what the pieces made so far consist of. *)
Record assembling (seen : list InRow) (L : locals) : Prop := {
  asm_complete : forall t, t ∈ seen ->
    dict_get (pid t) (rel_of_query (qidpid2rel L) (qid t)) = Some (rel t);
  asm_sound : forall q p r,
    dict_get p (rel_of_query (qidpid2rel L) q) = Some r ->
    exists t, t ∈ seen /\ qid t = q /\ pid t = p /\ rel t = r;
  asm_pieces : Forall (Forall (row_ok seen)) (df_pieces L)
}.

(** Every relevance [qidpid2rel] holds is that of a recorded judgment. *)
Definition sound_for (seen : list InRow) (m : gmap Z (dict Z Z)) : Prop :=
  forall q p r, dict_get p (rel_of_query m q) = Some r ->
    exists t, t ∈ seen /\ qid t = q /\ pid t = p /\ rel t = r.

(** A job of [extract]: the query and its group of judgments, the two
    analysed forms of the query, and the documents the extractor
    answered the retrieval with. *)
Record job : Type := {
  job_query : Z;
  job_group : list InRow;
  job_tokens : Query;
  job_answer : list Doc
}.

(** The arguments [extract] submits a query with. *)
Definition submission (q : Z) (qry : Query) (grp : list InRow) : list pyval :=
  [PStr (str q); PStrList (nonSW qry); PStrList (tokenized qry); PIntList (map pid grp)].

(** The two calls [extract] makes for a job. *)
Definition submitted (j : job) : event :=
  Call_lazy_extract (submission (job_query j) (job_tokens j) (job_group j)).

Definition retrieved (j : job) : event :=
  Call_get_result (str (job_query j)) (Ok (job_answer j)).

(** The calls of one flush: its jobs are submitted, then retrieved by
    the same query ids in the same order. *)
Definition flush_block (c : list job) : list event :=
  map submitted c ++ map retrieved c.

(** A job submitted and not yet retrieved. *)
Record pending_job : Type := {
  pj_query : Z;
  pj_group : list InRow;
  pj_tokens : Query
}.

(** A pending job, retrieved with the answer [docs]. *)
Definition answered (p : pending_job) (docs : list Doc) : job :=
  {| job_query := pj_query p; job_group := pj_group p;
     job_tokens := pj_tokens p; job_answer := docs |}.

(** The rows a flush allocates, and the documents its answers hold. *)
Definition requested (c : list job) : nat := sum_list (map (fun j => length (job_group j)) c).

Definition returned (c : list job) : nat := sum_list (map (fun j => length (job_answer j)) c).

(** A piece made by the flush [c]: one row per returned document, each
    with the relevance judged for its pair, then the zero rows that were
    left over. *)
Definition piece_of (seen : list InRow) (piece : list OutRow) (c : list job) : Prop :=
  exists (rows : list OutRow) (n : nat),
    Forall (judged seen) rows
    /\ length rows = returned c
    /\ piece = rows ++ replicate (requested c - returned c) (zero_row n).

(** The state of [extract] and the log after the groups [done]: whole
    flushes with their pieces, then the submissions still pending. *)
Definition accounting (queries : gmap Z Query) (seen : list InRow)
    (log : list event) (L : locals) (done : list (Z * list InRow)) : Prop :=
  exists (chunks : list (list job)) (pending : list pending_job),
    log = flat_map flush_block chunks
            ++ map (fun p => submitted (answered p [])) pending
    /\ fetch_later L = map (fun p => str (pj_query p)) pending
    /\ need_rows L = sum_list (map (fun p => length (pj_group p)) pending)
    /\ map (fun j => (job_query j, job_group j)) (concat chunks)
         ++ map (fun p => (pj_query p, pj_group p)) pending = done
    /\ Forall (fun j => queries !! job_query j = Some (job_tokens j)) (concat chunks)
    /\ Forall (fun p => queries !! pj_query p = Some (pj_tokens p)) pending
    /\ Forall2 (piece_of seen) (df_pieces L) chunks.

(** The rank, counted from 1, of the first relevance above 0. *)
Fixpoint first_relevant (rels : list Z) : option nat :=
  match rels with
  | [] => None
  | r :: rest => if 0 <? r then Some 1%nat else option_map Datatypes.S (first_relevant rest)
  end.

(** Reciprocal rank at cutoff 10 of a ranked relevance sequence. *)
Definition reciprocal_rank (rels : list Z) : float :=
  match first_relevant (take 10 rels) with
  | Some rk => reciprocal rk
  | None => 0%float
  end.

(** The number of ranked rows up to the one at which the value of the
    query is known: the first relevant one within the top 10, else the
    10th, else the last. *)
Definition scan_length (rels : list Z) : nat :=
  match first_relevant (take 10 rels) with
  | Some rk => rk
  | None => Nat.min 10 (length rels)
  end.

(** The number of rows of [scores] whose score ties with the one just
    before, [prev] being before the first. *)
Fixpoint ties_after (prev : float) (scores : list float) : nat :=
  match scores with
  | [] => 0%nat
  | x :: rest => ((if is_tie x prev then 1 else 0) + ties_after x rest)%nat
  end.

(** The ties between neighbours of a score sequence. *)
Definition adjacent_ties (scores : list float) : nat :=
  match scores with
  | [] => 0%nat
  | x :: rest => ties_after x rest
  end.

(** The column [rel] of a frame. *)
Definition rel_column (rows : list Scored) : list Z := map (fun t => o_rel (s_row t)) rows.

(** The ranked rows of a group, the part of them that is scanned, and
    the ties among the scanned rows. *)
Definition ranked (grp : list Scored) : list Scored := sort_values_desc score grp.

Definition scanned (grp : list Scored) : list Scored :=
  take (scan_length (rel_column (ranked grp))) (ranked grp).

Definition group_ties (grp : list Scored) : nat := adjacent_ties (map score (scanned grp)).

(** The accumulators after a group with [ties] ties and value [v]. *)
Definition tally_after (q : Z) (ties : nat) (v : float) (T : tally) : tally :=
  {| score_tie_counter := (score_tie_counter T + ties)%nat;
     score_tie_query := if (ties =? 0)%nat then score_tie_query T
                        else score_tie_query T ∪ {[q]};
     MRR := MRR T ++ [v] |}.

(** The ties [walk] counts over [scores] when it starts with
    [prev_score] at [prev]. *)
Definition ties_from (prev : option float) (scores : list float) : nat :=
  match prev with
  | Some p => ties_after p scores
  | None => adjacent_ties scores
  end.

(** The first relevant rank among the [budget] rows still to be
    enumerated. *)
Definition first_relevant_within (budget : nat) (rels : list Z) : option nat :=
  first_relevant (take budget rels).

(** What one group adds to the accumulators. *)
Definition group_effect (T : tally) (g : Z * list Scored) : tally :=
  tally_after (fst g) (group_ties (snd g))
    (reciprocal_rank (rel_column (ranked (snd g)))) T.

(** Strings under [<=]: a total order. *)
Definition str_le (a b : string) : Prop := String.leb a b = true.

(** A call on a [FeatureExtractor]. *)
Inductive call : Type :=
| CallAdd (f : Feature)
| CallLazyExtract (qid_v query_tokens doc_ids : pyval)
| CallGetResult (qid_s : string).

(** Running a call, and a sequence of calls, on an extractor. *)
Definition do_call {U : Type} (J : JUtils U) (c : call) : M (FeatureExtractor U) unit :=
  match c with
  | CallAdd f => add J f
  | CallLazyExtract q toks ds => lazy_extract J q toks ds
  | CallGetResult q => let* _ := get_result J q in ret tt
  end.

Fixpoint do_calls {U : Type} (J : JUtils U) (cs : list call) : M (FeatureExtractor U) unit :=
  match cs with
  | [] => ret tt
  | c :: rest => let* _ := do_call J c in do_calls J rest
  end.

(** The names of the features a call sequence adds, in call order. *)
Definition added_names (cs : list call) : list string :=
  omap (fun c => match c with CallAdd f => Some (name f) | _ => None end) cs.

(** The run of a traced extractor with its log forgotten. *)
Definition erase {S A : Type} (r : outcome A * (S * list event)) : outcome A * S :=
  (fst r, fst (snd r)).

(** The row [extract] writes for the document [doc] of an answer to the
    query [q], in a float matrix of [ncols] columns. *)
Definition row_of_doc (float32 : float -> float) (seen : list InRow) (ncols : nat)
    (q : Z) (doc : Doc) (r : OutRow) : Prop :=
  o_qid r = q /\ o_pid r = doc_pid doc
  /\ (exists t, t ∈ seen /\ qid t = q /\ pid t = doc_pid doc /\ rel t = o_rel r)
  /\ assign_features float32 ncols (doc_features doc) = Ok (o_features r).

(** A piece made by the flush [c], row by row: the rows of the first
    job's documents in the order they were answered, then those of the
    next job, and so on; then the zero rows left over. *)
Definition piece_rows (float32 : float -> float) (seen : list InRow)
    (piece : list OutRow) (c : list job) : Prop :=
  exists (rowss : list (list OutRow)) (n : nat),
    Forall2 (fun j rows =>
               Forall2 (row_of_doc float32 seen n (job_query j)) (job_answer j) rows)
      c rowss
    /\ (returned c <= requested c)%nat
    /\ piece = concat rowss ++ replicate (requested c - returned c) (zero_row n).

(** The state of [extract] and the log after the groups [done], with
    the threshold [B]: whole flushes of [B] jobs with their pieces, then
    the submissions still pending. *)
Definition ledger (float32 : float -> float) (B : Z) (queries : gmap Z Query)
    (seen : list InRow) (log : list event) (L : locals)
    (done : list (Z * list InRow)) : Prop :=
  exists (chunks : list (list job)) (pending : list pending_job),
    log = flat_map flush_block chunks
            ++ map (fun p => submitted (answered p [])) pending
    /\ fetch_later L = map str (map pj_query pending)
    /\ need_rows L = sum_list (map (fun p => length (pj_group p)) pending)
    /\ map (fun j => (job_query j, job_group j)) (concat chunks)
         ++ map (fun p => (pj_query p, pj_group p)) pending = done
    /\ Forall (fun j => queries !! job_query j = Some (job_tokens j)) (concat chunks)
    /\ Forall (fun p => queries !! pj_query p = Some (pj_tokens p)) pending
    /\ Forall2 (piece_rows float32 seen) (df_pieces L) chunks
    /\ Forall (fun c => Z.of_nat (length c) = B) chunks
    /\ (0 < B -> Z.of_nat (length pending) < B)
    /\ Forall (fun g => NoDup (map pid (snd g))) done.

(** The integer columns of a judgment and of an assembled row. *)
Definition judgment_of (t : InRow) : Z * Z * Z := (qid t, pid t, rel t).
Definition label_of (r : OutRow) : Z * Z * Z := (o_qid r, o_pid r, o_rel r).

(** A judgment frame with one relevance per (query id, passage id). *)
Definition functional (rows : list InRow) : Prop :=
  forall t t', t ∈ rows -> t' ∈ rows -> qid t = qid t' -> pid t = pid t' -> rel t = rel t'.

(** The run file that [dev_data_loader] reads for a task: its path, the
    number of its columns and the positions of the columns kept. *)
Definition run_file (task : string) : option (string * nat * list nat) :=
  if bool_decide (task = "rerank") then
    Some ("collections/msmarco-passage/top1000.dev", 4%nat, [0; 1]%nat)
  else if bool_decide (task = "anserini") then
    Some ("runs/msmarco-passage/run.msmarco-passage.dev.small.tsv", 3%nat, [0; 1; 2]%nat)
  else if bool_decide (task = "pygaggle") then
    Some ("../pygaggle/data/msmarco_ans_entire/run.dev.small.tsv", 3%nat, [0; 1; 2]%nat)
  else None.

(** * Properties *)

(** ** The runtime: decimal round trip, stable sorting, grouping *)

Lemma int_str (z : Z) : int (str z) = Ok z.
Proof.
  unfold int, str.
  assert (H : NilZero.int_of_string (NilZero.string_of_int (Z.to_int z))
              = Some (Z.to_int z)).
  { apply NilZero.isi; destruct z; simpl; try discriminate;
      intros H; injection H as H;
      exact (DecimalPos.Unsigned.to_uint_nonnil _ H). }
  rewrite H. f_equal. apply DecimalZ.of_to.
Qed.

Section SortFacts.
Context {A : Type} (leb : A -> A -> bool).

Lemma insert_sorted_Permutation (x : A) (l : list A) :
  insert_sorted leb x l ≡ₚ x :: l.
Proof.
  induction l as [|y l IH]; simpl; [done|].
  destruct (leb x y); [done|].
  rewrite IH. apply Permutation_swap.
Qed.

Lemma stable_sort_Permutation (l : list A) : stable_sort leb l ≡ₚ l.
Proof.
  induction l as [|x l IH]; simpl; [done|].
  rewrite insert_sorted_Permutation. by rewrite IH.
Qed.

Lemma stable_sort_length (l : list A) : length (stable_sort leb l) = length l.
Proof. apply Permutation_length, stable_sort_Permutation. Qed.

Hypothesis leb_total : forall a b, leb a b = false -> leb b a = true.

Lemma insert_sorted_Sorted (x : A) (l : list A) :
  Sorted (fun a b => leb a b = true) l ->
  Sorted (fun a b => leb a b = true) (insert_sorted leb x l).
Proof.
  induction 1 as [|y l Hl IH Hhd]; simpl.
  - repeat constructor.
  - destruct (leb x y) eqn:E.
    + constructor; [by constructor|]. by constructor.
    + constructor; [exact IH|].
      destruct Hhd as [|z l' Hz]; simpl.
      * constructor. by apply leb_total.
      * destruct (leb x z); constructor; [by apply leb_total | done].
Qed.

Lemma stable_sort_Sorted (l : list A) :
  Sorted (fun a b => leb a b = true) (stable_sort leb l).
Proof.
  induction l as [|x l IH]; simpl; [constructor|].
  by apply insert_sorted_Sorted.
Qed.
End SortFacts.

Lemma Sorted_weaken {A : Type} (R1 R2 : A -> A -> Prop) (l : list A) :
  (forall x y, R1 x y -> R2 x y) -> Sorted R1 l -> Sorted R2 l.
Proof.
  intros HR. induction 1 as [|x l Hl IH Hhd]; constructor; [done|].
  destruct Hhd; constructor. by apply HR.
Qed.

Lemma unique_sorted_elem (ks : list Z) (k : Z) : k ∈ unique_sorted ks <-> k ∈ ks.
Proof.
  unfold unique_sorted. rewrite (stable_sort_Permutation Z.leb).
  apply elem_of_remove_dups.
Qed.

Lemma unique_sorted_NoDup (ks : list Z) : NoDup (unique_sorted ks).
Proof.
  unfold unique_sorted. rewrite (stable_sort_Permutation Z.leb).
  apply NoDup_remove_dups.
Qed.

Lemma unique_sorted_increasing (ks : list Z) : StronglySorted Z.lt (unique_sorted ks).
Proof.
  assert (Hle : StronglySorted Z.le (unique_sorted ks)).
  { apply Sorted_StronglySorted; [intros x y z; lia|].
    eapply Sorted_weaken; [| apply (stable_sort_Sorted Z.leb)].
    - intros x y H. simpl in H. lia.
    - intros a b H. lia. }
  pose proof (unique_sorted_NoDup ks) as Hnd.
  induction Hle as [|x l Hl IH Hx]; [constructor|].
  inversion Hnd as [|? ? Hnotin Hnd']; subst.
  constructor; [by apply IH|].
  rewrite Forall_forall in *. intros y Hy.
  assert (x <> y) by (intros ->; by apply Hnotin).
  specialize (Hx y Hy). lia.
Qed.

Section FrameFacts.
Context {R : Type} (key : R -> Z).

Lemma rows_of_insert_sorted (k : Z) (x : R) (l : list R) :
  rows_of key k (insert_sorted (fun a b => key a <=? key b) x l)
  = rows_of key k (x :: l).
Proof.
  unfold rows_of. induction l as [|y l IH]; simpl; [done|].
  destruct (key x <=? key y) eqn:E; [done|].
  rewrite filter_cons, IH, !filter_cons.
  repeat case_decide; try done. lia.
Qed.

(** A stable sort keeps, for every key, the rows of that key in their
    original relative order. *)
Lemma rows_of_sort_values (k : Z) (l : list R) :
  rows_of key k (sort_values key l) = rows_of key k l.
Proof.
  unfold sort_values. induction l as [|x l IH]; simpl; [done|].
  rewrite rows_of_insert_sorted. unfold rows_of in *.
  by rewrite !filter_cons, IH.
Qed.

Lemma sort_values_sorted (l : list R) : key_sorted key (sort_values key l).
Proof.
  apply Sorted_StronglySorted; [intros x y z; lia|].
  eapply Sorted_weaken;
    [| apply (stable_sort_Sorted (fun a b => key a <=? key b))].
  - intros x y H. simpl in H. lia.
  - intros a b H. lia.
Qed.

Lemma rows_of_nil_inv (l : list R) :
  (forall k, rows_of key k l = []) -> l = [].
Proof.
  destruct l as [|x l]; [done|]. intros H. specialize (H (key x)).
  unfold rows_of in H. rewrite filter_cons in H. by case_decide.
Qed.

Lemma key_sorted_head_le (x : R) (l : list R) (y : R) :
  key_sorted key (x :: l) -> y ∈ x :: l -> key x <= key y.
Proof.
  intros Hs Hy. inversion Hs as [|? ? _ Hall]; subst.
  apply elem_of_cons in Hy as [->|Hy]; [lia|].
  rewrite Forall_forall in Hall. by apply Hall.
Qed.

(** A list sorted by key is determined by its rows per key. *)
Lemma key_sorted_unique (l1 l2 : list R) :
  key_sorted key l1 -> key_sorted key l2 ->
  (forall k, rows_of key k l1 = rows_of key k l2) -> l1 = l2.
Proof.
  revert l2. induction l1 as [|x l1 IH]; intros l2 H1 H2 Heq.
  - symmetry. apply rows_of_nil_inv. intros k. by rewrite <- Heq.
  - destruct l2 as [|y l2].
    { apply rows_of_nil_inv. intros k. by rewrite Heq. }
    assert (Hxy : key x = key y).
    { assert (x ∈ rows_of key (key x) (y :: l2)) as Hx.
      { rewrite <- Heq. unfold rows_of. rewrite filter_cons.
        case_decide; [left | done]. }
      assert (y ∈ rows_of key (key y) (x :: l1)) as Hy.
      { rewrite Heq. unfold rows_of. rewrite filter_cons.
        case_decide; [left | done]. }
      apply list_elem_of_filter in Hx as [_ Hx], Hy as [_ Hy].
      pose proof (key_sorted_head_le _ _ _ H2 Hx).
      pose proof (key_sorted_head_le _ _ _ H1 Hy). lia. }
    pose proof (Heq (key x)) as Hk. unfold rows_of in Hk.
    rewrite !filter_cons in Hk.
    rewrite decide_True in Hk by done.
    rewrite (decide_True (P := key y = key x)) in Hk by done.
    injection Hk as -> Hk. f_equal.
    inversion H1; inversion H2; subst.
    apply IH; [done..|]. intros k. specialize (Heq k).
    unfold rows_of in *. rewrite !filter_cons in Heq.
    case_decide; [by injection Heq | done].
Qed.

Lemma rows_of_absent (k : Z) (l : list R) :
  k ∉ map key l -> rows_of key k l = [].
Proof.
  intros Hk. unfold rows_of. induction l as [|x l IH]; [done|].
  rewrite filter_cons. simpl in Hk. apply not_elem_of_cons in Hk as [Hne Hk].
  case_decide; [congruence | by apply IH].
Qed.

Lemma rows_of_app (k : Z) (l1 l2 : list R) :
  rows_of key k (l1 ++ l2) = rows_of key k l1 ++ rows_of key k l2.
Proof. apply filter_app. Qed.

Lemma rows_of_rows_of (k k' : Z) (l : list R) :
  rows_of key k (rows_of key k' l)
  = if decide (k = k') then rows_of key k l else [].
Proof.
  unfold rows_of. induction l as [|x l IH]; [by case_decide|].
  rewrite !filter_cons.
  destruct (decide (key x = k')) as [Hx'|Hx'].
  - rewrite filter_cons, IH.
    repeat case_decide; simplify_eq; done.
  - rewrite IH. repeat case_decide; simplify_eq; done.
Qed.

Lemma rows_of_blocks (k : Z) (l : list R) (ks : list Z) :
  NoDup ks ->
  rows_of key k (flat_map (fun k' => rows_of key k' l) ks)
  = if decide (k ∈ ks) then rows_of key k l else [].
Proof.
  induction 1 as [|k' ks Hnotin Hnd IH]; cbn [flat_map].
  - case_decide as Hk; [by apply not_elem_of_nil in Hk | done].
  - rewrite rows_of_app, IH, rows_of_rows_of.
    destruct (decide (k = k')) as [Heq|Hne];
      destruct (decide (k ∈ ks)) as [Hin|Hnin];
      destruct (decide (k ∈ k' :: ks)) as [Hc|Hc];
      try subst k; try done; rewrite ?app_nil_r; try done.
    all: try (exfalso; apply Hc; by left).
    all: try (exfalso; apply Hc; by right).
    all: apply elem_of_cons in Hc as [?|?]; done.
Qed.

Lemma blocks_sorted (l : list R) (ks : list Z) :
  StronglySorted Z.lt ks ->
  key_sorted key (flat_map (fun k => rows_of key k l) ks).
Proof.
  induction 1 as [|k ks Hs IH Hall]; simpl; [constructor|].
  unfold key_sorted in *.
  assert (Hblock : Forall (fun r => key r = k) (rows_of key k l)).
  { apply Forall_forall. intros r Hr.
    by apply list_elem_of_filter in Hr as [? _]. }
  assert (Hrest : Forall (fun r => k < key r)
                    (flat_map (fun k => rows_of key k l) ks)).
  { apply Forall_forall. intros r Hr.
    apply list_elem_of_In, in_flat_map in Hr as (k' & Hk' & Hr).
    apply list_elem_of_In in Hr, Hk'.
    apply list_elem_of_filter in Hr as [<- _].
    rewrite Forall_forall in Hall. by apply Hall. }
  induction Hblock as [|r rs Hr Hrs IHrs]; simpl; [done|].
  constructor; [exact IHrs|].
  apply Forall_app. split.
  - eapply Forall_impl; [exact Hrs|]. simpl. intros; lia.
  - eapply Forall_impl; [exact Hrest|]. simpl. intros; lia.
Qed.

(** Laid out in group order, the groups of a frame sorted by key are
    the frame itself. *)
Lemma groupby_tiles (l : list R) :
  key_sorted key l -> concat (map snd (groupby key l)) = l.
Proof.
  intros Hs. unfold groupby. rewrite map_map. simpl.
  rewrite <- flat_map_concat_map.
  apply key_sorted_unique; [|done|].
  - apply blocks_sorted, unique_sorted_increasing.
  - intros k. rewrite rows_of_blocks by apply unique_sorted_NoDup.
    case_decide as Hk; [done|].
    symmetry. apply rows_of_absent. by rewrite <- unique_sorted_elem.
Qed.

Lemma group_count_total (l : list R) :
  key_sorted key l -> sum_list (map snd (group_count key l)) = length l.
Proof.
  intros Hs. rewrite <- (groupby_tiles l Hs) at 2.
  unfold group_count. rewrite map_map. simpl.
  induction (groupby key l) as [|g gs IH]; simpl; [done|].
  rewrite length_app. by rewrite IH.
Qed.
End FrameFacts.

Lemma groupby_nonempty {R : Type} (key : R -> Z) (l : list R) :
  Forall (fun g => snd g <> []) (groupby key l).
Proof.
  unfold groupby. apply Forall_forall. intros g Hg.
  apply list_elem_of_fmap in Hg as (k & -> & Hk). simpl.
  apply unique_sorted_elem, list_elem_of_fmap in Hk as (x & -> & Hx).
  intros Hnil. assert (x ∈ rows_of key (key x) l) as Hin.
  { by apply list_elem_of_filter. }
  rewrite Hnil in Hin. by apply not_elem_of_nil in Hin.
Qed.

(** ** Reasoning about computations that finished *)

Lemma obind_Ok {A B} (m : outcome A) (k : A -> outcome B) (b : B) :
  obind m k = Ok b -> exists a, m = Ok a /\ k a = Ok b.
Proof. destruct m as [a|e]; simpl; [eauto | discriminate]. Qed.

Lemma bind_Ok {S A B} (m : M S A) (k : A -> M S B) (s s' : S) (b : B) :
  bind m k s = (Ok b, s') ->
  exists a s1, m s = (Ok a, s1) /\ k a s1 = (Ok b, s').
Proof.
  unfold bind. destruct (m s) as [[a|e] s1]; [eauto | discriminate].
Qed.

Lemma lift_Ok {S A} (o : outcome A) (s s' : S) (a : A) :
  lift o s = (Ok a, s') -> o = Ok a /\ s' = s.
Proof. unfold lift. intros H. by injection H as -> ->. Qed.

Lemma ret_Ok {S A} (a a' : A) (s s' : S) :
  ret a s = (Ok a', s') -> a' = a /\ s' = s.
Proof. unfold ret. intros H. by injection H as -> ->. Qed.

Ltac inv_run H :=
  repeat match type of H with
    | bind _ _ _ = (Ok _, _) =>
        let a := fresh "a" in let s := fresh "s" in
        let H1 := fresh "Hrun" in
        apply bind_Ok in H as (a & s & H1 & H)
    | obind _ _ = Ok _ =>
        let a := fresh "a" in let H1 := fresh "Hrun" in
        apply obind_Ok in H as (a & H1 & H)
    end.

(** ** The assembled batch: groups and contiguity *)

Lemma qid_column_of_groups {R : Type} (key : R -> Z) (l : list R) :
  key_sorted key l ->
  map key l = flat_map (fun g => replicate (snd g) (fst g)) (group_count key l).
Proof.
  intros Hs. rewrite <- (groupby_tiles key l Hs) at 1.
  unfold group_count, groupby. rewrite !map_map. simpl.
  induction (unique_sorted (map key l)) as [|k ks IH]; simpl; [done|].
  rewrite map_app, IH. f_equal.
  unfold rows_of. clear. induction l as [|x l IH]; [done|].
  rewrite filter_cons. case_decide; simpl; [by rewrite IH; subst | done].
Qed.

Lemma group_count_keys {R : Type} (key : R -> Z) (l : list R) :
  map fst (group_count key l) = unique_sorted (map key l).
Proof.
  unfold group_count, groupby. rewrite !map_map. simpl. apply map_id.
Qed.

(** C2.  Whenever [extract] returns a batch, the group sizes add up to
    the number of rows of the matrix; the matrix is the stable sort by
    query id of the concatenated pieces (every query's rows keep their
    relative order); its [qid] column is the run-length expansion of the
    Group array, whose query ids are strictly increasing, so the rows of
    one query are contiguous and the groups come in the order of the
    sorted matrix. *)
Theorem extract_groups_match_sorted_matrix
    {S : Type} (fe : FeObj S) (float32 : float -> float) (B : Z)
    (df : list InRow) (queries : gmap Z Query) (s s' : S)
    (data : list OutRow) (group : list (Z * nat)) :
  extract_with fe float32 B df queries s = (Ok (data, group), s') ->
  sum_list (map snd group) = length data
  /\ (exists pieces : list (list OutRow),
        data ≡ₚ concat pieces
        /\ forall q, rows_of o_qid q data = rows_of o_qid q (concat pieces))
  /\ key_sorted o_qid data
  /\ map o_qid data = flat_map (fun g => replicate (snd g) (fst g)) group
  /\ StronglySorted Z.lt (map fst group).
Proof.
  unfold extract_with. intros H. inv_run H.
  apply lift_Ok in Hrun1 as [Hcat ->].
  apply ret_Ok in H as [H _]. injection H as -> ->.
  pose proof (sort_values_sorted o_qid a1) as Hs.
  split; [by apply group_count_total|].
  split.
  { exists a0. destruct a0; [discriminate|]. injection Hcat as <-.
    split; [apply stable_sort_Permutation | intros q; apply rows_of_sort_values]. }
  split; [done|].
  split; [by apply qid_column_of_groups|].
  rewrite group_count_keys. apply unique_sorted_increasing.
Qed.

Lemma extract_groups_witness :
  exists data group s',
    extract Double.fe Double.float32 Double.judgments Double.queries
      (init Double.store0) = (Ok (data, group), s')
    /\ sum_list (map snd group) = length data
    /\ map o_qid data = flat_map (fun g => replicate (snd g) (fst g)) group.
Proof.
  eexists _, _, _. split; [vm_compute; reflexivity|].
  pose proof (extract_groups_match_sorted_matrix
                Double.fe Double.float32 FLUSH Double.judgments Double.queries
                (init Double.store0)) as H.
  specialize (H _ _ _ ltac:(vm_compute; reflexivity)).
  destruct H as (H1 & _ & _ & H2 & _). split; [exact H1 | exact H2].
Defined.

(** ** The assembler: what a flush retrieves and what it writes *)

Lemma dict_get_set {K V : Type} `{EqDecision K} (k k' : K) (v : V) (d : dict K V) :
  dict_get k (dict_set k' v d) = if decide (k = k') then Some v else dict_get k d.
Proof.
  induction d as [|[k0 v0] d IH]; simpl.
  - by repeat case_decide.
  - destruct (decide (k' = k0)) as [->|Hne]; simpl.
    + repeat case_decide; congruence.
    + rewrite IH. repeat case_decide; congruence.
Qed.

Lemma dict_mem_false {K V : Type} `{EqDecision K} (k : K) (d : dict K V) :
  dict_mem k d = false -> dict_get k d = None.
Proof. unfold dict_mem. by destruct (dict_get k d). Qed.

Lemma rel_of_query_insert (m : gmap Z (dict Z Z)) (q q' : Z) (d : dict Z Z) :
  rel_of_query (<[q' := d]> m) q = if decide (q = q') then d else rel_of_query m q.
Proof.
  unfold rel_of_query. case_decide as Hq.
  - subst. by rewrite lookup_insert_eq.
  - by rewrite lookup_insert_ne.
Qed.

Lemma row_ok_mono (seen seen' : list InRow) (r : OutRow) :
  (forall t, t ∈ seen -> t ∈ seen') -> row_ok seen r -> row_ok seen' r.
Proof.
  intros Hsub [Hp|(t & Ht & Hrest)]; [by left | right].
  exists t. split; [by apply Hsub | done].
Qed.

Lemma record_judgment_assembling (seen : list InRow) (L L' : locals) (t : InRow) :
  assembling seen L -> record_judgment L t = Ok L' ->
  assembling (seen ++ [t]) L'
  /\ df_pieces L' = df_pieces L /\ fetch_later L' = fetch_later L.
Proof.
  intros [Hc Hs Hp]. unfold record_judgment.
  destruct (dict_mem _ _) eqn:Hmem; [discriminate|].
  apply dict_mem_false in Hmem. intros H. injection H as <-. simpl.
  split; [|done]. constructor; simpl.
  - intros t0 Ht0. rewrite rel_of_query_insert, elem_of_app in *.
    case_decide as Hq.
    + rewrite dict_get_set. case_decide as Hpid; [|].
      * destruct Ht0 as [Ht0|Ht0%list_elem_of_singleton]; [|by subst].
        apply Hc in Ht0. rewrite Hq, Hpid in Ht0. congruence.
      * destruct Ht0 as [Ht0|Ht0%list_elem_of_singleton]; [|by subst].
        apply Hc in Ht0. by rewrite Hq in Ht0.
    + destruct Ht0 as [Ht0|Ht0%list_elem_of_singleton]; [by apply Hc | by subst].
  - intros q p r. rewrite rel_of_query_insert.
    case_decide as Hq.
    + rewrite dict_get_set. case_decide as Hpid.
      * intros [= <-]. exists t. rewrite elem_of_app, list_elem_of_singleton. eauto.
      * subst q. intros (t0 & ? & ?)%Hs. exists t0. rewrite elem_of_app. eauto.
    + intros (t0 & ? & ?)%Hs. exists t0. rewrite elem_of_app. eauto.
  - eapply Forall_impl; [exact Hp|]. intros piece Hpiece.
    eapply Forall_impl; [exact Hpiece|]. intros r. apply row_ok_mono.
    intros ?. rewrite elem_of_app. eauto.
Qed.

Lemma record_group_assembling (grp seen : list InRow) (L L' : locals) :
  assembling seen L -> record_group L grp = Ok L' ->
  assembling (seen ++ grp) L'
  /\ df_pieces L' = df_pieces L /\ fetch_later L' = fetch_later L.
Proof.
  revert seen L. induction grp as [|t grp IH]; intros seen L Hinv; simpl.
  - intros [= <-]. by rewrite app_nil_r.
  - intros H. inv_run H.
    destruct (record_judgment_assembling _ _ _ _ Hinv Hrun) as (Hinv' & Hp & Hf).
    destruct (IH _ _ Hinv' H) as (Hinv'' & Hp' & Hf').
    rewrite <- app_assoc in Hinv''. simpl in Hinv''.
    split; [done|]. split; congruence.
Qed.

Section AssemblerRows.
Context {S : Type} (fe : FeObj S) (float32 : float -> float).

Lemma write_doc_rows (seen : list InRow) (m : gmap Z (dict Z Z)) (ncols : nat)
    (qid_s : string) (st st' : list OutRow * nat) (doc : Doc) :
  sound_for seen m -> Forall (row_ok seen) (fst st) ->
  write_doc float32 m ncols qid_s st doc = Ok st' ->
  Forall (row_ok seen) (fst st').
Proof.
  intros Hm Hmat. destruct st as [mat idx]. unfold write_doc.
  intros H. inv_run H.
  destruct (negb _); [discriminate|].
  destruct (dict_get _ _) as [r|] eqn:Hget; [|discriminate].
  inv_run H. injection H as <-. simpl.
  apply Forall_insert; [done|]. right.
  destruct (Hm _ _ _ Hget) as (t & Ht & Hq & Hp & Hr).
  exists t. by simpl.
Qed.

Lemma write_docs_rows (seen : list InRow) (m : gmap Z (dict Z Z)) (ncols : nat)
    (qid_s : string) (docs : list Doc) (st st' : list OutRow * nat) :
  sound_for seen m -> Forall (row_ok seen) (fst st) ->
  write_docs float32 m ncols qid_s st docs = Ok st' ->
  Forall (row_ok seen) (fst st').
Proof.
  intros Hm. revert st. induction docs as [|doc docs IH]; intros st Hst; simpl.
  - by intros [= <-].
  - intros H. inv_run H. eapply IH; [|exact H].
    by eapply write_doc_rows.
Qed.

Lemma fetch_all_rows (seen : list InRow) (m : gmap Z (dict Z Z)) (ncols : nat)
    (qids : list string) (st st' : list OutRow * nat) (s s' : S) :
  sound_for seen m -> Forall (row_ok seen) (fst st) ->
  fetch_all fe float32 m ncols qids st s = (Ok st', s') ->
  Forall (row_ok seen) (fst st').
Proof.
  intros Hm. revert st s. induction qids as [|q qids IH]; intros st s Hst; simpl.
  - by intros [[= <-] _]%ret_Ok.
  - intros H. inv_run H. apply lift_Ok in Hrun0 as [Hw ->].
    eapply IH; [|exact H]. by eapply write_docs_rows.
Qed.

Lemma flush_rows (seen : list InRow) (L : locals) (piece : list OutRow) (s s' : S) :
  sound_for seen (qidpid2rel L) ->
  flush fe float32 L s = (Ok piece, s') ->
  Forall (row_ok seen) piece.
Proof.
  intros Hm. unfold flush. intros H. inv_run H.
  destruct a0 as [mat idx]. inv_run H.
  destruct (_ =? _)%nat; [|discriminate]. apply ret_Ok in H as [-> _].
  apply (fetch_all_rows _ _ _ _ _ _ _ _ Hm) in Hrun0; [done|]. simpl.
  apply Forall_replicate. left. by eexists.
Qed.

(** The fields that one iteration of the outer loop leaves alone or
    resets. *)
Lemma extract_step_assembling (B : Z) (queries : gmap Z Query) (seen : list InRow)
    (L L' : locals) (q : Z) (grp : list InRow) (s s' : S) :
  assembling seen L ->
  extract_step fe float32 B queries L (q, grp) s = (Ok L', s') ->
  assembling (seen ++ grp) L'.
Proof.
  intros Hinv. unfold extract_step. intros H. inv_run H.
  apply lift_Ok in Hrun as [Hgrp ->].
  destruct (record_group_assembling _ _ _ _ Hinv Hgrp) as ([Hc Hs Hp] & Hpieces & _).
  destruct (_ =? _).
  - inv_run H. apply ret_Ok in H as [-> _].
    constructor; simpl; [done..|].
    apply Forall_app. split; [done|]. constructor; [|done].
    eapply flush_rows; [|exact Hrun]. exact Hs.
  - apply ret_Ok in H as [-> _]. by constructor.
Qed.

Lemma extract_loop_assembling (B : Z) (queries : gmap Z Query)
    (groups : list (Z * list InRow)) (seen : list InRow) (L L' : locals) (s s' : S) :
  assembling seen L ->
  extract_loop fe float32 B queries L groups s = (Ok L', s') ->
  assembling (seen ++ concat (map snd groups)) L'.
Proof.
  revert seen L s. induction groups as [|[q grp] groups IH]; intros seen L s Hinv; simpl.
  - intros [-> _]%ret_Ok. by rewrite app_nil_r.
  - intros H. inv_run H.
    apply (extract_step_assembling _ _ _ _ _ _ _ _ _ Hinv) in Hrun.
    apply (IH _ _ _ Hrun) in H. by rewrite <- app_assoc in H.
Qed.

Lemma assembling_start : assembling [] locals0.
Proof.
  constructor; simpl.
  - intros t Ht. by apply not_elem_of_nil in Ht.
  - intros q p r. unfold rel_of_query. by rewrite lookup_empty.
  - constructor.
Qed.

Lemma elem_of_groups {R : Type} (key : R -> Z) (l : list R) (x : R) :
  x ∈ concat (map snd (groupby key l)) <-> x ∈ l.
Proof.
  unfold groupby. rewrite map_map. simpl. rewrite <- flat_map_concat_map.
  rewrite list_elem_of_In, in_flat_map. split.
  - intros (k & _ & Hx). apply list_elem_of_In in Hx.
    by apply list_elem_of_filter in Hx as [_ ?].
  - intros Hx. exists (key x). split.
    + apply list_elem_of_In, unique_sorted_elem.
      apply list_elem_of_In, in_map, list_elem_of_In, Hx.
    + apply list_elem_of_In, list_elem_of_filter. done.
Qed.

(** Every row of a batch is padding or carries the relevance judged for
    its pair; and the judgments of a frame that [extract] accepted are
    functional in the pair. *)
Lemma extract_rows_judged (B : Z) (df : list InRow) (queries : gmap Z Query)
    (s s' : S) (data : list OutRow) (group : list (Z * nat)) :
  extract_with fe float32 B df queries s = (Ok (data, group), s') ->
  (forall t t', t ∈ df -> t' ∈ df -> qid t = qid t' -> pid t = pid t' -> rel t = rel t')
  /\ Forall (row_ok df) data.
Proof.
  unfold extract_with. intros H. inv_run H.
  apply lift_Ok in Hrun1 as [Hcat ->]. apply ret_Ok in H as [[= -> ->] _].
  apply (extract_loop_assembling _ _ _ _ _ _ _ _ assembling_start) in Hrun.
  simpl in Hrun. destruct Hrun as [Hc Hs Hp]. split.
  - intros t t' Ht Ht' Hq Hpid.
    apply (elem_of_groups qid) in Ht, Ht'.
    apply Hc in Ht, Ht'. rewrite Hq, Hpid in Ht. congruence.
  - assert (Hpieces : Forall (Forall (row_ok (concat (map snd (groupby qid df))))) a0).
    { unfold extract_rest in Hrun0. destruct (_ <? _)%nat.
      - inv_run Hrun0. apply ret_Ok in Hrun0 as [-> _].
        apply Forall_app. split; [done|]. constructor; [|done].
        eapply flush_rows; [|exact Hrun]. exact Hs.
      - by apply ret_Ok in Hrun0 as [-> _]. }
    destruct a0 as [|p0 ps]; [discriminate|]. injection Hcat as <-.
    unfold sort_values. rewrite (stable_sort_Permutation _ _).
    change (p0 ++ concat ps) with (concat (p0 :: ps)). apply Forall_concat.
    eapply Forall_impl; [exact Hpieces|]. intros piece Hpiece.
    eapply Forall_impl; [exact Hpiece|]. intros r. apply row_ok_mono.
    intros t. apply elem_of_groups.
Qed.
End AssemblerRows.

Lemma sum_list_append (l1 l2 : list nat) :
  sum_list (l1 ++ l2) = (sum_list l1 + sum_list l2)%nat.
Proof. induction l1 as [|x l1 IH]; simpl; [done|]. rewrite IH. lia. Qed.

Lemma dict_set_fresh {K V : Type} `{EqDecision K} (k : K) (v : V) (d : dict K V) :
  dict_get k d = None -> dict_set k v d = d ++ [(k, v)].
Proof.
  induction d as [|[k0 v0] d IH]; simpl; [done|].
  case_decide; [done|]. intros Hd. by rewrite IH.
Qed.

(** What recording a whole group of the query [q] does. *)
Lemma record_group_shape (q : Z) (grp : list InRow) (L L' : locals) :
  (forall t, t ∈ grp -> qid t = q) ->
  record_group L grp = Ok L' ->
  rel_of_query (qidpid2rel L') q
  = rel_of_query (qidpid2rel L) q ++ map (fun t => (pid t, rel t)) grp
  /\ need_rows L' = (need_rows L + length grp)%nat
  /\ (grp <> [] -> exists t, t_var L' = Some t /\ qid t = q).
Proof.
  revert L. induction grp as [|t grp IH]; intros L Hq; simpl.
  - intros [= <-]. rewrite app_nil_r. split; [done|]. split; [lia | done].
  - intros H. inv_run H.
    assert (qid t = q) as Ht by (apply Hq; left).
    unfold record_judgment in Hrun. rewrite Ht in Hrun.
    destruct (dict_mem _ _) eqn:Hmem; [discriminate|].
    apply dict_mem_false in Hmem. injection Hrun as <-.
    pose proof H as Hcopy.
    apply IH in H; [|intros t' Ht'; apply Hq; by right].
    destruct H as (Hrel & Hneed & Hvar). simpl in *.
    rewrite rel_of_query_insert, decide_True in Hrel by done.
    rewrite dict_set_fresh in Hrel by done.
    split; [by rewrite Hrel, <- app_assoc|]. split; [lia|].
    intros _. destruct grp as [|t' grp'].
    + injection Hcopy as <-. simpl. eauto.
    + apply Hvar. done.
Qed.

Section AssemblerTrace.
Context {S : Type} (fe : FeObj S) (float32 : float -> float).

(** Documents are written one below the other, under the rows already
    written, over the rows that follow. *)
Lemma write_docs_shape (seen : list InRow) (m : gmap Z (dict Z Z)) (ncols : nat)
    (qid_s : string) (docs : list Doc) :
  forall (written rest mat' : list OutRow) (idx' : nat),
    sound_for seen m ->
    write_docs float32 m ncols qid_s (written ++ rest, length written) docs
    = Ok (mat', idx') ->
    exists rows : list OutRow,
      Forall (judged seen) rows
      /\ length rows = length docs
      /\ (length rows <= length rest)%nat
      /\ mat' = (written ++ rows) ++ drop (length rows) rest
      /\ idx' = length (written ++ rows).
Proof.
  induction docs as [|doc docs IH]; intros written rest mat' idx' Hm; simpl.
  - intros [= <- <-]. exists []. rewrite !app_nil_r. simpl.
    repeat split; [constructor | lia].
  - intros H. inv_run H. destruct a as [mat1 idx1].
    unfold write_doc in Hrun. inv_run Hrun.
    destruct (negb _) eqn:Hidx; [discriminate|].
    destruct (dict_get _ _) as [r|] eqn:Hget; [|discriminate].
    inv_run Hrun. injection Hrun as <- <-.
    apply negb_false_iff, Nat.ltb_lt in Hidx. rewrite length_app in Hidx.
    destruct rest as [|z rest]; [simpl in Hidx; lia|].
    set (row := {| o_qid := a; o_pid := doc_pid doc; o_rel := r; o_features := a0 |}).
    assert (<[length written := row]> (written ++ z :: rest)
            = (written ++ [row]) ++ rest) as Hins.
    { rewrite <- (Nat.add_0_r (length written)), insert_app_r. simpl.
      by rewrite <- app_assoc. }
    fold row in H. rewrite Hins in H.
    replace (Datatypes.S (length written)) with (length (written ++ [row])) in H
      by (rewrite length_app; simpl; lia).
    apply IH in H as (rows & Hrows & Hlen & Hle & -> & ->); [|done].
    exists (row :: rows). simpl.
    split.
    { constructor; [|done]. destruct (Hm _ _ _ Hget) as (t & ? & ? & ? & ?).
      by exists t. }
    split; [lia|]. split; [lia|].
    by rewrite <- !app_assoc.
Qed.

Lemma traced_fetch_all_shape (seen : list InRow) (m : gmap Z (dict Z Z)) (ncols : nat)
    (qids : list string) :
  forall (written rest mat' : list OutRow) (idx' : nat) (s s' : S) (log log' : list event),
    sound_for seen m ->
    fetch_all (traced fe) float32 m ncols qids (written ++ rest, length written) (s, log)
    = (Ok (mat', idx'), (s', log')) ->
    exists (answers : list (list Doc)) (rows : list OutRow),
      length answers = length qids
      /\ log' = log ++ zip_with (fun q a => Call_get_result q (Ok a)) qids answers
      /\ Forall (judged seen) rows
      /\ length rows = sum_list (map length answers)
      /\ (length rows <= length rest)%nat
      /\ mat' = (written ++ rows) ++ drop (length rows) rest.
Proof.
  induction qids as [|q qids IH];
    intros written rest mat' idx' s s' log log' Hm; simpl.
  - unfold ret. intros [= <- _ _ <-]. exists [], []. simpl.
    rewrite !app_nil_r. repeat split; [constructor | lia].
  - intros H. inv_run H.
    repeat match goal with x : (S * list event)%type |- _ => destruct x end.
    apply lift_Ok in Hrun0 as [Hw ?]. simplify_eq.
    simpl in Hrun. destruct (call_get_result fe q s) as [o s1] eqn:Hcall.
    simplify_eq. destruct a0 as [mat1 idx1].
    apply write_docs_shape with (seen := seen) in Hw
      as (rows1 & Hrows1 & Hlen1 & Hle1 & -> & ->); [|done].
    apply IH in H as (answers & rows2 & Hlen & -> & Hrows2 & Hlen2 & Hle2 & ->);
      [|done].
    exists (a :: answers), (rows1 ++ rows2). simpl.
    rewrite length_drop in Hle2.
    split; [lia|]. split; [by rewrite <- app_assoc|].
    split; [by apply Forall_app|].
    rewrite length_app. split; [lia|]. split; [lia|].
    rewrite drop_drop. by rewrite <- !app_assoc.
Qed.

Lemma traced_flush_shape (seen : list InRow) (L : locals) (piece : list OutRow)
    (s s' : S) (log log' : list event) :
  sound_for seen (qidpid2rel L) ->
  flush (traced fe) float32 L (s, log) = (Ok piece, (s', log')) ->
  exists (answers : list (list Doc)) (rows : list OutRow) (n : nat),
    length answers = length (fetch_later L)
    /\ log' = log ++ zip_with (fun q a => Call_get_result q (Ok a)) (fetch_later L) answers
    /\ Forall (judged seen) rows
    /\ length rows = sum_list (map length answers)
    /\ (length rows <= need_rows L)%nat
    /\ piece = rows ++ replicate (need_rows L - length rows) (zero_row n).
Proof.
  intros Hm. unfold flush. intros H. inv_run H.
  destruct a0 as [mat idx]. inv_run H.
  repeat match goal with x : (S * list event)%type |- _ => destruct x end.
  unfold get in *. destruct (_ =? _)%nat; [|discriminate].
  apply ret_Ok in H as [? ?]. simplify_eq.
  match type of Hrun0 with
  | fetch_all _ _ _ _ _ (?info, _) _ = _ =>
      change info with ([] ++ info) in Hrun0
  end.
  change 0%nat with (length (@nil OutRow)) in Hrun0.
  apply traced_fetch_all_shape with (seen := seen) in Hrun0
    as (answers & rows & Hlen & -> & Hrows & Hsum & Hle & ->); [|done].
  rewrite length_replicate in Hle.
  exists answers, rows. eexists. simpl. rewrite drop_replicate.
  repeat split; done.
Qed.

Lemma answered_zip (queries : gmap Z Query) (ps : list pending_job) :
  forall answers : list (list Doc),
    length answers = length ps ->
    map submitted (zip_with answered ps answers)
    = map (fun p => submitted (answered p [])) ps
    /\ map retrieved (zip_with answered ps answers)
       = zip_with (fun q a => Call_get_result q (Ok a))
           (map (fun p => str (pj_query p)) ps) answers
    /\ map (fun j => (job_query j, job_group j)) (zip_with answered ps answers)
       = map (fun p => (pj_query p, pj_group p)) ps
    /\ requested (zip_with answered ps answers)
       = sum_list (map (fun p => length (pj_group p)) ps)
    /\ returned (zip_with answered ps answers) = sum_list (map length answers)
    /\ (Forall (fun p => queries !! pj_query p = Some (pj_tokens p)) ps ->
        Forall (fun j => queries !! job_query j = Some (job_tokens j))
          (zip_with answered ps answers)).
Proof.
  induction ps as [|p ps IH]; intros [|a answers]; simpl; try done.
  intros [= Hlen]. destruct (IH _ Hlen) as (H1 & H2 & H3 & H4 & H5 & H6).
  unfold requested, returned in *. simpl.
  rewrite H1, H2, H3, H4, H5. repeat split; try done.
  intros [Hp Hps]%Forall_cons. constructor; [done | by apply H6].
Qed.

Lemma piece_of_mono (seen seen' : list InRow) (piece : list OutRow) (c : list job) :
  (forall t, t ∈ seen -> t ∈ seen') -> piece_of seen piece c -> piece_of seen' piece c.
Proof.
  intros Hsub (rows & n & Hrows & Hlen & ->). exists rows, n.
  split; [|done]. eapply Forall_impl; [exact Hrows|].
  intros r (t & Ht & Hrest). exists t. split; [by apply Hsub | done].
Qed.

Lemma accounting_mono (queries : gmap Z Query) (seen seen' : list InRow)
    (log : list event) (L : locals) (done : list (Z * list InRow)) :
  (forall t, t ∈ seen -> t ∈ seen') ->
  accounting queries seen log L done -> accounting queries seen' log L done.
Proof.
  intros Hsub (chunks & pending & Hlog & Hf & Hn & Hd & Hq & Hp & Hpieces).
  exists chunks, pending. repeat split; try done.
  eapply Forall2_impl; [exact Hpieces|]. intros piece c. by apply piece_of_mono.
Qed.

Lemma unseen_query_empty (seen : list InRow) (L : locals) (q : Z) :
  assembling seen L -> (forall t, t ∈ seen -> qid t <> q) ->
  rel_of_query (qidpid2rel L) q = [].
Proof.
  intros [_ Hs _] Hq.
  destruct (rel_of_query (qidpid2rel L) q) as [|[p r] d] eqn:Hd; [done|].
  destruct (Hs q p r) as (t & Ht & Hqt & _).
  - rewrite Hd. simpl. by rewrite decide_True.
  - by apply Hq in Ht.
Qed.

(** A flush answers the pending jobs and makes their piece. *)
Lemma flush_accounting (queries : gmap Z Query) (seen : list InRow)
    (L L' : locals) (piece : list OutRow) (done : list (Z * list InRow))
    (s s' : S) (log log' : list event) :
  assembling seen L -> accounting queries seen log L done ->
  flush (traced fe) float32 L (s, log) = (Ok piece, (s', log')) ->
  df_pieces L' = df_pieces L ++ [piece] -> fetch_later L' = [] ->
  need_rows L' = 0%nat ->
  accounting queries seen log' L' done.
Proof.
  intros [_ Hs _] (chunks & pending & -> & Hf & Hn & Hd & Hq & Hp & Hpieces)
    Hflush Hpieces' Hf' Hn'.
  apply traced_flush_shape with (seen := seen) in Hflush
    as (answers & rows & n & Hlen & -> & Hrows & Hsum & Hle & ->); [|exact Hs].
  rewrite Hf, length_map in Hlen.
  destruct (answered_zip queries pending answers Hlen) as (H1 & H2 & H3 & H4 & H5 & H6).
  exists (chunks ++ [zip_with answered pending answers]), [].
  rewrite flat_map_app, concat_app. simpl. rewrite !app_nil_r.
  change (flush_block (zip_with answered pending answers))
    with (map submitted (zip_with answered pending answers)
            ++ map retrieved (zip_with answered pending answers)).
  rewrite H1, H2, Hf, Hf', Hn', Hpieces', map_app, H3.
  split; [by rewrite <- app_assoc|]. split; [done|]. split; [done|].
  split; [exact Hd|]. split; [apply Forall_app; split; [done | by apply H6]|].
  split; [constructor|].
  apply Forall2_app; [done|]. constructor; [|constructor].
  exists rows, n. rewrite H4, H5, <- Hn, <- Hsum. done.
Qed.

Lemma traced_step_accounting (B : Z) (queries : gmap Z Query) (seen : list InRow)
    (L L' : locals) (done : list (Z * list InRow)) (q : Z) (grp : list InRow)
    (s s' : S) (log log' : list event) :
  assembling seen L -> accounting queries seen log L done ->
  grp <> [] -> (forall t, t ∈ grp -> qid t = q) -> (forall t, t ∈ seen -> qid t <> q) ->
  extract_step (traced fe) float32 B queries L (q, grp) (s, log) = (Ok L', (s', log')) ->
  accounting queries (seen ++ grp) log' L' (done ++ [(q, grp)]).
Proof.
  intros Hasm Hacc Hne Hgrp Hfresh. unfold extract_step. intros H. inv_run H.
  repeat match goal with x : (S * list event)%type |- _ => destruct x end.
  apply lift_Ok in Hrun as [Hrec ?]. apply lift_Ok in Hrun0 as [Hqry ?].
  apply lift_Ok in Hrun1 as [Hvar ?]. simplify_eq.
  destruct (queries !! q) as [qry|] eqn:Hq; [|discriminate]. injection Hqry as <-.
  destruct (record_group_assembling _ _ _ _ Hasm Hrec) as (Hasm1 & Hp1 & Hf1).
  destruct (record_group_shape q _ _ _ Hgrp Hrec) as (Hrel & Hneed & Ht).
  destruct (Ht Hne) as (t & Htv & Htq). rewrite Htv in Hvar. injection Hvar as <-.
  rewrite (unseen_query_empty _ _ _ Hasm Hfresh) in Hrel. simpl in Hrel.
  rewrite Htq, Hrel in Hrun2. clear Htq Htv Ht. unfold dict_keys in Hrun2.
  rewrite map_map in Hrun2. simpl in Hrun2.
  repeat match type of Hrun2 with
         | context [PStr (str q) :: ?rest] =>
             change (PStr (str q) :: rest) with (submission q qry grp) in Hrun2
         end.
  destruct (call_lazy_extract fe (submission q qry grp) s) as [o s1].
  simplify_eq.
  set (p := {| pj_query := q; pj_group := grp; pj_tokens := qry |}).
  set (L2 := {| df_pieces := df_pieces a; fetch_later := fetch_later a ++ [str q];
                qidpid2rel := qidpid2rel a; need_rows := need_rows a;
                t_var := t_var a |}).
  assert (accounting queries (seen ++ grp)
            (log ++ [Call_lazy_extract (submission q qry grp)]) L2
            (done ++ [(q, grp)])) as Hacc2.
  { apply accounting_mono with (seen' := seen ++ grp) in Hacc;
      [|intros ?; rewrite elem_of_app; eauto].
    destruct Hacc as (chunks & pending & -> & Hf & Hn & Hd & Hqs & Hps & Hpieces).
    exists chunks, (pending ++ [p]). simpl.
    rewrite !map_app, Hf1, Hf, Hneed, Hn, Hp1, sum_list_append. simpl.
    split; [by rewrite <- app_assoc|]. split; [done|]. split; [lia|].
    split; [by rewrite app_assoc, Hd|]. split; [done|].
    split; [apply Forall_app; split; [done | by constructor]|]. done. }
  destruct (_ =? _).
  - inv_run H.
    repeat match goal with x : (S * list event)%type |- _ => destruct x end.
    apply ret_Ok in H as [? ?]. simplify_eq.
    eapply (flush_accounting _ _ L2); [|exact Hacc2|exact Hrun|done..].
    destruct Hasm1 as [H1 H2 H3]. by constructor.
  - apply ret_Ok in H as [? ?]. simplify_eq. exact Hacc2.
Qed.

Lemma traced_loop_accounting (B : Z) (queries : gmap Z Query)
    (groups : list (Z * list InRow)) :
  forall (seen : list InRow) (done : list (Z * list InRow)) (L L' : locals)
         (s s' : S) (log log' : list event),
    assembling seen L -> accounting queries seen log L done ->
    (forall t, t ∈ seen -> qid t ∈ map fst done) ->
    NoDup (map fst done ++ map fst groups) ->
    Forall (fun g => snd g <> [] /\ forall t, t ∈ snd g -> qid t = fst g) groups ->
    extract_loop (traced fe) float32 B queries L groups (s, log) = (Ok L', (s', log')) ->
    assembling (seen ++ concat (map snd groups)) L'
    /\ accounting queries (seen ++ concat (map snd groups)) log' L' (done ++ groups).
Proof.
  induction groups as [|[q grp] groups IH];
    intros seen done L L' s s' log log' Hasm Hacc Hseen Hnd Hwf; simpl.
  - intros [? ?]%ret_Ok. simplify_eq. by rewrite !app_nil_r.
  - intros H. inv_run H.
    repeat match goal with x : (S * list event)%type |- _ => destruct x end.
    apply Forall_cons in Hwf as [[Hne Hgrp] Hwf]. simpl in *.
    assert (forall t, t ∈ seen -> qid t <> q) as Hfresh.
    { intros t Ht <-. apply Hseen in Ht.
      apply NoDup_app in Hnd as (_ & Hnd & _). apply (Hnd _ Ht). left. }
    pose proof (extract_step_assembling _ _ _ _ _ _ _ _ _ _ _ Hasm Hrun) as Hasm'.
    pose proof (traced_step_accounting _ _ _ _ _ _ _ _ _ _ _ _ Hasm Hacc Hne Hgrp
                  Hfresh Hrun) as Hacc'.
    apply (IH _ _ _ _ _ _ _ _ Hasm' Hacc') in H.
    + by rewrite <- !app_assoc in H.
    + intros t [Ht|Ht]%elem_of_app.
      * rewrite map_app, elem_of_app. left. by apply Hseen.
      * rewrite map_app, elem_of_app. right. simpl. rewrite (Hgrp _ Ht). left.
    + rewrite map_app. simpl. by rewrite <- app_assoc.
    + done.
Qed.

Lemma balanced_chunk (c : list job) :
  Forall (fun j => length (job_answer j) = length (job_group j)) c ->
  returned c = requested c.
Proof.
  unfold returned, requested. induction 1 as [|j c Hj _ IH]; simpl; [done|].
  by rewrite Hj, IH.
Qed.

Lemma balanced_pieces (seen : list InRow) (pieces : list (list OutRow))
    (chunks : list (list job)) :
  Forall2 (piece_of seen) pieces chunks ->
  Forall (fun j => length (job_answer j) = length (job_group j)) (concat chunks) ->
  Forall (judged seen) (concat pieces).
Proof.
  induction 1 as [|piece c pieces chunks (rows & n & Hrows & Hlen & ->) _ IH]; simpl.
  - constructor.
  - intros [Hc Hcs]%Forall_app. rewrite (balanced_chunk c Hc), Nat.sub_diag. simpl.
    rewrite app_nil_r. apply Forall_app. split; [done | by apply IH].
Qed.

(** The whole run of [extract] on a logged extractor. *)
Lemma extract_accounting (B : Z) (df : list InRow) (queries : gmap Z Query)
    (s s' : S) (log : list event) (data : list OutRow) (group : list (Z * nat)) :
  extract_with (traced fe) float32 B df queries (s, []) = (Ok (data, group), (s', log)) ->
  exists (chunks : list (list job)) (pieces : list (list OutRow)),
    log = flat_map flush_block chunks
    /\ map (fun j => (job_query j, job_group j)) (concat chunks) = groupby qid df
    /\ Forall (fun j => queries !! job_query j = Some (job_tokens j)) (concat chunks)
    /\ Forall2 (piece_of (concat (map snd (groupby qid df)))) pieces chunks
    /\ data = sort_values o_qid (concat pieces).
Proof.
  unfold extract_with. intros H. inv_run H.
  repeat match goal with x : (S * list event)%type |- _ => destruct x end.
  apply lift_Ok in Hrun1 as [Hcat ?]. apply ret_Ok in H as [? ?]. simplify_eq.
  apply (traced_loop_accounting _ _ _ [] [] locals0) in Hrun.
  - simpl in Hrun. destruct Hrun as (Hasm & chunks & pending & -> & Hf & Hn & Hd & Hq & Hp & Hpieces).
    unfold extract_rest in Hrun0. destruct (_ <? _)%nat eqn:Hlen.
    + inv_run Hrun0.
      repeat match goal with x : (S * list event)%type |- _ => destruct x end.
      apply ret_Ok in Hrun0 as [? ?]. simplify_eq.
      eapply (flush_accounting queries _ a
                {| df_pieces := df_pieces a ++ [a2]; fetch_later := [];
                   qidpid2rel := qidpid2rel a; need_rows := 0; t_var := t_var a |})
        in Hrun; [|done| |done..].
      2:{ exists chunks, pending. repeat split; done. }
      destruct Hrun as (chunks' & pending' & -> & Hf' & _ & Hd' & Hq' & _ & Hpieces').
      simpl in *. destruct pending'; [|done]. simpl in *. rewrite app_nil_r in *.
      exists chunks', (df_pieces a ++ [a2]). repeat split; try done.
      * by rewrite Hd'.
      * by destruct (df_pieces a ++ [a2]); [|injection Hcat as <-].
    + apply ret_Ok in Hrun0 as [? ?]. simplify_eq.
      assert (pending = []) as ->.
      { apply Nat.ltb_ge in Hlen. rewrite Hf, length_map in Hlen.
        destruct pending; [done | simpl in Hlen; lia]. }
      simpl in *. rewrite app_nil_r in *.
      match goal with
      | Hc : pd_concat ?ps = Ok _ |- _ =>
          exists chunks, ps; repeat split; try done;
          by destruct ps; [|injection Hc as <-]
      end.
  - apply assembling_start.
  - exists [], []. simpl. repeat split; constructor.
  - intros t Ht. by apply not_elem_of_nil in Ht.
  - simpl. unfold groupby. rewrite map_map. simpl. rewrite map_id.
    apply unique_sorted_NoDup.
  - unfold groupby. apply Forall_forall. intros g Hg. split.
    + pose proof (groupby_nonempty qid df) as Hne.
      rewrite Forall_forall in Hne. by apply Hne.
    + apply list_elem_of_fmap in Hg as (k & -> & _). simpl.
      intros t Ht. by apply list_elem_of_filter in Ht as [? _].
Qed.
End AssemblerTrace.

(** C8.  When [extract] returns a batch from an extractor whose calls
    are logged, the log is a sequence of flushes; each flush submits its
    jobs and then retrieves them by the same query ids in the same
    order, and the jobs are the query groups of the frame in group
    order, each submitted with the query's two token lists and the
    passage ids of its judgments.  Whatever documents the extractor
    answered and in whatever order, every row written from a document
    carries the relevance of the one judgment of the frame for its
    (query id, passage id) pair, the other rows being zero rows never
    overwritten; and when every answer has as many documents as the job
    has judgments, there is no such zero row. *)
Theorem extract_fetches_in_order_and_matches_by_id
    {S : Type} (fe : FeObj S) (float32 : float -> float) (B : Z)
    (df : list InRow) (queries : gmap Z Query) (s s' : S) (log : list event)
    (data : list OutRow) (group : list (Z * nat)) :
  extract_with (traced fe) float32 B df queries (s, []) = (Ok (data, group), (s', log)) ->
  exists chunks : list (list job),
    log = flat_map flush_block chunks
    /\ map (fun j => (job_query j, job_group j)) (concat chunks) = groupby qid df
    /\ Forall (fun j => queries !! job_query j = Some (job_tokens j)) (concat chunks)
    /\ (forall t t', t ∈ df -> t' ∈ df ->
          qid t = qid t' -> pid t = pid t' -> rel t = rel t')
    /\ Forall (fun r => padding r \/ judged df r) data
    /\ (Forall (fun j => length (job_answer j) = length (job_group j)) (concat chunks) ->
        Forall (judged df) data).
Proof.
  intros H.
  destruct (extract_rows_judged _ _ _ _ _ _ _ _ _ H) as [Hfun Hrows].
  apply extract_accounting in H as (chunks & pieces & Hlog & Hjobs & Htok & Hpieces & ->).
  exists chunks. repeat split; try done.
  intros Hbal. unfold sort_values. rewrite (stable_sort_Permutation _ _).
  eapply Forall_impl; [by eapply balanced_pieces|].
  intros r (t & Ht & Hrest). exists t. split; [|done]. by apply elem_of_groups in Ht.
Qed.

Lemma extract_fetches_witness :
  exists data group s' log,
    extract_with (traced Double.fe) Double.float32 2 Double.judgments Double.queries
      (init Double.store0, []) = (Ok (data, group), (s', log))
    /\ (exists chunks : list (list job),
          log = flat_map flush_block chunks
          /\ map (fun j => job_query j) (concat chunks) = [1; 2; 3])
    /\ Forall (fun r => padding r \/ judged Double.judgments r) data.
Proof.
  eexists _, _, _, _. split; [vm_compute; reflexivity|].
  pose proof (extract_fetches_in_order_and_matches_by_id
                Double.fe Double.float32 2 Double.judgments Double.queries
                (init Double.store0)) as H.
  specialize (H _ _ _ _ ltac:(vm_compute; reflexivity)).
  destruct H as (chunks & Hlog & Hq & _ & _ & Hrows & _).
  split; [|exact Hrows]. exists chunks. split; [exact Hlog|].
  apply (f_equal (map fst)) in Hq. rewrite map_map in Hq. exact Hq.
Defined.

(** ** The assembler: the whole run *)

Section Erase.
Context {S : Type} (fe : FeObj S) (float32 : float -> float).

Lemma erase_bind {A B : Type} (m : M (S * list event) A) (m0 : M S A)
    (k : A -> M (S * list event) B) (k0 : A -> M S B) (s : S) (log : list event) :
  erase (m (s, log)) = m0 s ->
  (forall a s1 log1, erase (k a (s1, log1)) = k0 a s1) ->
  erase (bind m k (s, log)) = bind m0 k0 s.
Proof.
  unfold erase, bind. intros Hm Hk.
  destruct (m (s, log)) as [[a|e] [s1 log1]]; simpl in Hm; rewrite <- Hm; [|done].
  apply Hk.
Qed.

Lemma fetch_all_erase (m : gmap Z (dict Z Z)) (ncols : nat) (qids : list string) :
  forall (st : list OutRow * nat) (s : S) (log : list event),
    erase (fetch_all (traced fe) float32 m ncols qids st (s, log))
    = fetch_all fe float32 m ncols qids st s.
Proof.
  induction qids as [|q qids IH]; intros st s log; simpl; [done|].
  apply erase_bind.
  - unfold erase. simpl. by destruct (call_get_result fe q s).
  - intros docs s1 log1. apply erase_bind; [done|]. intros st' s2 log2. apply IH.
Qed.

Lemma flush_erase (L : locals) (s : S) (log : list event) :
  erase (flush (traced fe) float32 L (s, log)) = flush fe float32 L s.
Proof.
  unfold flush, bind, get. simpl.
  pose proof (fetch_all_erase (qidpid2rel L) (length (call_feature_names fe s))
                (fetch_later L)
                (replicate (need_rows L) (zero_row (length (call_feature_names fe s))),
                 0%nat) s log) as He.
  unfold erase in He.
  destruct (fetch_all (traced fe) _ _ _ _ _ _) as [[[mat idx]|e] [s1 log1]];
    simpl in He; rewrite <- He; simpl; [|done].
  unfold erase. simpl. by destruct (_ =? _)%nat.
Qed.

Lemma extract_step_erase (B : Z) (queries : gmap Z Query) (L : locals)
    (g : Z * list InRow) (s : S) (log : list event) :
  erase (extract_step (traced fe) float32 B queries L g (s, log))
  = extract_step fe float32 B queries L g s.
Proof.
  destruct g as [q grp]. unfold extract_step.
  apply erase_bind; [done|]. intros L1 s1 log1.
  apply erase_bind; [done|]. intros qry s2 log2.
  apply erase_bind; [done|]. intros t s3 log3.
  apply erase_bind.
  { unfold erase. simpl. by destruct (call_lazy_extract fe _ s3). }
  intros _ s4 log4. destruct (_ =? _); [|done].
  apply erase_bind; [apply flush_erase | done].
Qed.

Lemma extract_loop_erase (B : Z) (queries : gmap Z Query) (groups : list (Z * list InRow)) :
  forall (L : locals) (s : S) (log : list event),
    erase (extract_loop (traced fe) float32 B queries L groups (s, log))
    = extract_loop fe float32 B queries L groups s.
Proof.
  induction groups as [|g groups IH]; intros L s log; simpl; [done|].
  apply erase_bind; [apply extract_step_erase|]. intros L' s1 log1. apply IH.
Qed.

Lemma extract_with_erase (B : Z) (df : list InRow) (queries : gmap Z Query)
    (s : S) (log : list event) :
  erase (extract_with (traced fe) float32 B df queries (s, log))
  = extract_with fe float32 B df queries s.
Proof.
  unfold extract_with.
  apply erase_bind; [apply extract_loop_erase|]. intros L s1 log1.
  apply erase_bind.
  { unfold extract_rest. destruct (_ <? _)%nat; [|done].
    apply erase_bind; [apply flush_erase | done]. }
  intros pieces s2 log2. apply erase_bind; [done|]. done.
Qed.

(** A run of [extract] is the run on the logged object, the log apart. *)
Lemma extract_with_logged (B : Z) (df : list InRow) (queries : gmap Z Query)
    (s s' : S) (o : outcome (list OutRow * list (Z * nat))) :
  extract_with fe float32 B df queries s = (o, s') ->
  exists log, extract_with (traced fe) float32 B df queries (s, []) = (o, (s', log)).
Proof.
  intros H. pose proof (extract_with_erase B df queries s []) as He.
  rewrite H in He. unfold erase in He.
  destruct (extract_with (traced fe) float32 B df queries (s, [])) as [o1 [s1 log]].
  simpl in He. injection He as -> ->. by exists log.
Qed.
End Erase.

Lemma dict_get_None_keys {K V : Type} `{EqDecision K} (k : K) (d : dict K V) :
  dict_get k d = None -> k ∉ dict_keys d.
Proof.
  induction d as [|[k0 v0] d IH]; simpl; [intros _; apply not_elem_of_nil|].
  case_decide; [done|]. intros Hd. apply not_elem_of_cons. split; [done | by apply IH].
Qed.

(** The assertion of [extract]: a group is recorded only when its
    passage ids are new to the query and differ from each other. *)
Lemma record_group_keys_NoDup (q : Z) (grp : list InRow) :
  forall L L' : locals,
    (forall t, t ∈ grp -> qid t = q) ->
    record_group L grp = Ok L' ->
    NoDup (dict_keys (rel_of_query (qidpid2rel L) q)) ->
    NoDup (dict_keys (rel_of_query (qidpid2rel L') q)).
Proof.
  induction grp as [|t grp IH]; intros L L' Hq; simpl.
  - by intros [= <-].
  - intros H Hnd. inv_run H.
    assert (qid t = q) as Ht by (apply Hq; left).
    unfold record_judgment in Hrun. rewrite Ht in Hrun.
    destruct (dict_mem _ _) eqn:Hmem; [discriminate|].
    apply dict_mem_false in Hmem. injection Hrun as <-.
    apply IH in H; [done | intros t' Ht'; apply Hq; by right |].
    simpl. rewrite rel_of_query_insert, decide_True by done.
    rewrite dict_set_fresh by done. unfold dict_keys. rewrite map_app. simpl.
    apply NoDup_app. split; [exact Hnd|]. split; [|apply NoDup_singleton].
    intros k Hk ->%list_elem_of_singleton. by apply dict_get_None_keys in Hmem.
Qed.

Section AssemblerLedger.
Context {S : Type} (fe : FeObj S) (float32 : float -> float).

Lemma write_docs_written (seen : list InRow) (m : gmap Z (dict Z Z)) (ncols : nat)
    (q : Z) (docs : list Doc) :
  forall (above rest mat' : list OutRow) (idx' : nat),
    sound_for seen m ->
    write_docs float32 m ncols (str q) (above ++ rest, length above) docs
    = Ok (mat', idx') ->
    exists rows : list OutRow,
      Forall2 (row_of_doc float32 seen ncols q) docs rows
      /\ (length rows <= length rest)%nat
      /\ mat' = (above ++ rows) ++ drop (length rows) rest
      /\ idx' = length (above ++ rows).
Proof.
  induction docs as [|doc docs IH]; intros above rest mat' idx' Hm; simpl.
  - intros [= <- <-]. exists []. rewrite !app_nil_r. simpl.
    repeat split; [constructor | lia].
  - intros H. inv_run H. destruct a as [mat1 idx1].
    unfold write_doc in Hrun. inv_run Hrun. rewrite int_str in Hrun0.
    injection Hrun0 as <-.
    destruct (negb _) eqn:Hidx; [discriminate|].
    destruct (dict_get _ _) as [r|] eqn:Hget; [|discriminate].
    inv_run Hrun. injection Hrun as <- <-.
    apply negb_false_iff, Nat.ltb_lt in Hidx. rewrite length_app in Hidx.
    destruct rest as [|z rest]; [simpl in Hidx; lia|].
    set (row := {| o_qid := q; o_pid := doc_pid doc; o_rel := r; o_features := a |}).
    assert (<[length above := row]> (above ++ z :: rest)
            = (above ++ [row]) ++ rest) as Hins.
    { rewrite <- (Nat.add_0_r (length above)), insert_app_r. simpl.
      by rewrite <- app_assoc. }
    fold row in H. rewrite Hins in H.
    replace (Datatypes.S (length above)) with (length (above ++ [row])) in H
      by (rewrite length_app; simpl; lia).
    apply IH in H as (rows & Hrows & Hle & -> & ->); [|done].
    exists (row :: rows). simpl.
    split.
    { constructor; [|done]. destruct (Hm _ _ _ Hget) as (t & ? & ? & ? & ?).
      repeat split; try done. by exists t. }
    split; [lia|]. by rewrite <- !app_assoc.
Qed.

Lemma traced_fetch_all_written (seen : list InRow) (m : gmap Z (dict Z Z)) (ncols : nat)
    (qs : list Z) :
  forall (above rest mat' : list OutRow) (idx' : nat) (s s' : S) (log log' : list event),
    sound_for seen m ->
    fetch_all (traced fe) float32 m ncols (map str qs) (above ++ rest, length above) (s, log)
    = (Ok (mat', idx'), (s', log')) ->
    exists (answers : list (list Doc)) (rowss : list (list OutRow)),
      length answers = length qs
      /\ log' = log ++ zip_with (fun q a => Call_get_result q (Ok a)) (map str qs) answers
      /\ Forall2 (fun qa rows => Forall2 (row_of_doc float32 seen ncols (fst qa)) (snd qa) rows)
           (zip qs answers) rowss
      /\ (length (concat rowss) <= length rest)%nat
      /\ mat' = (above ++ concat rowss) ++ drop (length (concat rowss)) rest.
Proof.
  induction qs as [|q qs IH];
    intros above rest mat' idx' s s' log log' Hm; simpl.
  - unfold ret. intros [= <- _ _ <-]. exists [], []. simpl.
    rewrite !app_nil_r. repeat split; [constructor | lia].
  - intros H. inv_run H.
    repeat match goal with x : (S * list event)%type |- _ => destruct x end.
    apply lift_Ok in Hrun0 as [Hw ?]. simplify_eq.
    simpl in Hrun. destruct (call_get_result fe (str q) s) as [o s1] eqn:Hcall.
    simplify_eq. destruct a0 as [mat1 idx1].
    apply write_docs_written with (seen := seen) in Hw
      as (rows1 & Hrows1 & Hle1 & -> & ->); [|done].
    apply IH in H as (answers & rowss & Hlen & -> & Hrows2 & Hle2 & ->); [|done].
    exists (a :: answers), (rows1 :: rowss). simpl.
    rewrite length_drop in Hle2. rewrite length_app.
    split; [lia|]. split; [by rewrite <- app_assoc|].
    split; [by constructor|]. split; [lia|].
    rewrite drop_drop. by rewrite <- !app_assoc.
Qed.

Lemma traced_flush_written (seen : list InRow) (L : locals) (qs : list Z)
    (piece : list OutRow) (s s' : S) (log log' : list event) :
  sound_for seen (qidpid2rel L) -> fetch_later L = map str qs ->
  flush (traced fe) float32 L (s, log) = (Ok piece, (s', log')) ->
  exists (answers : list (list Doc)) (rowss : list (list OutRow)) (n : nat),
    length answers = length qs
    /\ log' = log ++ zip_with (fun q a => Call_get_result q (Ok a)) (map str qs) answers
    /\ Forall2 (fun qa rows => Forall2 (row_of_doc float32 seen n (fst qa)) (snd qa) rows)
         (zip qs answers) rowss
    /\ (length (concat rowss) <= need_rows L)%nat
    /\ piece = concat rowss ++ replicate (need_rows L - length (concat rowss)) (zero_row n).
Proof.
  intros Hm Hqs. unfold flush. rewrite Hqs. intros H. inv_run H.
  destruct a0 as [mat idx]. inv_run H.
  repeat match goal with x : (S * list event)%type |- _ => destruct x end.
  unfold get in *. destruct (_ =? _)%nat; [|discriminate].
  apply ret_Ok in H as [? ?]. simplify_eq.
  match type of Hrun0 with
  | fetch_all _ _ _ _ _ (?info, _) _ = _ =>
      change info with ([] ++ info) in Hrun0
  end.
  change 0%nat with (length (@nil OutRow)) in Hrun0.
  apply traced_fetch_all_written with (seen := seen) in Hrun0
    as (answers & rowss & Hlen & -> & Hrows & Hle & ->); [|done].
  rewrite length_replicate in Hle.
  exists answers, rowss. eexists. simpl. rewrite drop_replicate.
  repeat split; done.
Qed.

Lemma rows_of_answers (seen : list InRow) (n : nat) (ps : list pending_job) :
  forall (answers : list (list Doc)) (rowss : list (list OutRow)),
    Forall2 (fun qa rows => Forall2 (row_of_doc float32 seen n (fst qa)) (snd qa) rows)
      (zip (map pj_query ps) answers) rowss ->
    length answers = length ps ->
    Forall2 (fun j rows =>
               Forall2 (row_of_doc float32 seen n (job_query j)) (job_answer j) rows)
      (zip_with answered ps answers) rowss
    /\ length (concat rowss) = sum_list (map length answers).
Proof.
  induction ps as [|p ps IH]; intros [|a answers] rowss; simpl; try done.
  - intros ->%Forall2_nil_inv_l _. split; [constructor | done].
  - intros (rows & rowss' & Hrows & Hrest & ->)%Forall2_cons_inv_l [= Hlen].
    destruct (IH _ _ Hrest Hlen) as [H1 H2]. simpl. split; [by constructor|].
    apply Forall2_length in Hrows. simpl in Hrows. rewrite length_app. lia.
Qed.

Lemma row_of_doc_mono (seen seen' : list InRow) (n : nat) (q : Z) (doc : Doc) (r : OutRow) :
  (forall t, t ∈ seen -> t ∈ seen') ->
  row_of_doc float32 seen n q doc r -> row_of_doc float32 seen' n q doc r.
Proof.
  intros Hsub (H1 & H2 & (t & Ht & H3) & H4). repeat split; try done.
  exists t. split; [by apply Hsub | done].
Qed.

Lemma piece_rows_mono (seen seen' : list InRow) (piece : list OutRow) (c : list job) :
  (forall t, t ∈ seen -> t ∈ seen') ->
  piece_rows float32 seen piece c -> piece_rows float32 seen' piece c.
Proof.
  intros Hsub (rowss & n & Hrows & Hle & ->). exists rowss, n.
  split; [|done]. eapply Forall2_impl; [exact Hrows|]. intros j rows Hj.
  eapply Forall2_impl; [exact Hj|]. intros doc r. by apply row_of_doc_mono.
Qed.

Lemma ledger_mono (B : Z) (queries : gmap Z Query) (seen seen' : list InRow)
    (log : list event) (L : locals) (done : list (Z * list InRow)) :
  (forall t, t ∈ seen -> t ∈ seen') ->
  ledger float32 B queries seen log L done -> ledger float32 B queries seen' log L done.
Proof.
  intros Hsub (chunks & pending & Hlog & Hf & Hn & Hd & Hq & Hp & Hpieces & Hrest).
  exists chunks, pending. repeat split; try done; try apply Hrest.
  eapply Forall2_impl; [exact Hpieces|]. intros piece c. by apply piece_rows_mono.
Qed.

(** A flush answers the pending jobs and makes their piece. *)
Lemma flush_ledger (queries : gmap Z Query) (seen : list InRow)
    (L : locals) (piece : list OutRow) (chunks : list (list job))
    (pending : list pending_job) (s s' : S) (log' : list event) :
  sound_for seen (qidpid2rel L) ->
  fetch_later L = map str (map pj_query pending) ->
  need_rows L = sum_list (map (fun p => length (pj_group p)) pending) ->
  Forall (fun p => queries !! pj_query p = Some (pj_tokens p)) pending ->
  flush (traced fe) float32 L
    (s, flat_map flush_block chunks ++ map (fun p => submitted (answered p [])) pending)
  = (Ok piece, (s', log')) ->
  exists last : list job,
    log' = flat_map flush_block (chunks ++ [last])
    /\ length last = length pending
    /\ map (fun j => (job_query j, job_group j)) last
       = map (fun p => (pj_query p, pj_group p)) pending
    /\ Forall (fun j => queries !! job_query j = Some (job_tokens j)) last
    /\ piece_rows float32 seen piece last.
Proof.
  intros Hs Hf Hn Hp Hflush.
  apply traced_flush_written with (seen := seen) (qs := map pj_query pending) in Hflush
    as (answers & rowss & n & Hlen & -> & Hrows & Hle & ->); [|exact Hs|exact Hf].
  rewrite length_map in Hlen.
  destruct (answered_zip queries pending answers Hlen) as (H1 & H2 & H3 & H4 & H5 & H6).
  destruct (rows_of_answers _ _ _ _ _ Hrows Hlen) as [Hrows' Hsum].
  exists (zip_with answered pending answers).
  rewrite flat_map_app. simpl. rewrite !app_nil_r.
  change (flush_block (zip_with answered pending answers))
    with (map submitted (zip_with answered pending answers)
            ++ map retrieved (zip_with answered pending answers)).
  rewrite H1, H2, map_map.
  split; [by rewrite <- app_assoc|].
  split; [rewrite length_zip_with; lia|].
  split; [exact H3|]. split; [by apply H6|].
  exists rowss, n. rewrite H4, H5, <- Hn, <- Hsum. done.
Qed.

Lemma traced_step_ledger (B : Z) (queries : gmap Z Query) (seen : list InRow)
    (L L' : locals) (done : list (Z * list InRow)) (q : Z) (grp : list InRow)
    (s s' : S) (log log' : list event) :
  assembling seen L -> ledger float32 B queries seen log L done ->
  grp <> [] -> (forall t, t ∈ grp -> qid t = q) -> (forall t, t ∈ seen -> qid t <> q) ->
  extract_step (traced fe) float32 B queries L (q, grp) (s, log) = (Ok L', (s', log')) ->
  ledger float32 B queries (seen ++ grp) log' L' (done ++ [(q, grp)]).
Proof.
  intros Hasm Hacc Hne Hgrp Hfresh. unfold extract_step. intros H. inv_run H.
  repeat match goal with x : (S * list event)%type |- _ => destruct x end.
  apply lift_Ok in Hrun as [Hrec ?]. apply lift_Ok in Hrun0 as [Hqry ?].
  apply lift_Ok in Hrun1 as [Hvar ?]. simplify_eq.
  destruct (queries !! q) as [qry|] eqn:Hq; [|discriminate]. injection Hqry as <-.
  destruct (record_group_assembling _ _ _ _ Hasm Hrec) as (Hasm1 & Hp1 & Hf1).
  destruct (record_group_shape q _ _ _ Hgrp Hrec) as (Hrel & Hneed & Ht).
  pose proof (record_group_keys_NoDup q _ _ _ Hgrp Hrec) as Hkeys.
  destruct (Ht Hne) as (t & Htv & Htq). rewrite Htv in Hvar. injection Hvar as <-.
  rewrite (unseen_query_empty _ _ _ Hasm Hfresh) in Hrel, Hkeys. simpl in Hrel.
  specialize (Hkeys (NoDup_nil_2 : NoDup (dict_keys (@nil (Z * Z))))).
  rewrite Hrel in Hkeys. unfold dict_keys in Hkeys. rewrite map_map in Hkeys.
  simpl in Hkeys.
  rewrite Htq, Hrel in Hrun2. clear Htq Htv Ht. unfold dict_keys in Hrun2.
  rewrite map_map in Hrun2. simpl in Hrun2.
  repeat match type of Hrun2 with
         | context [PStr (str q) :: ?rest] =>
             change (PStr (str q) :: rest) with (submission q qry grp) in Hrun2
         end.
  destruct (call_lazy_extract fe (submission q qry grp) s) as [o s1].
  simplify_eq.
  set (p := {| pj_query := q; pj_group := grp; pj_tokens := qry |}).
  apply ledger_mono with (seen' := seen ++ grp) in Hacc;
    [|intros ?; rewrite elem_of_app; eauto].
  destruct Hacc as (chunks & pending & Hlog & Hf & Hn & Hd & Hqs & Hps & Hpieces
                      & Hfull & Hpend & Hnd).
  assert (Forall (fun g : Z * list InRow => NoDup (map pid (snd g))) (done ++ [(q, grp)]))
    as Hnd'.
  { apply Forall_app. split; [done|]. by constructor. }
  assert (fetch_later a ++ [str q] = map str (map pj_query (pending ++ [p]))) as Hf2.
  { by rewrite Hf1, Hf, !map_app. }
  assert (need_rows a = sum_list (map (fun p => length (pj_group p)) (pending ++ [p])))
    as Hn2.
  { rewrite map_app, sum_list_append, Hneed, Hn. simpl. lia. }
  assert (log ++ [Call_lazy_extract (submission q qry grp)]
          = flat_map flush_block chunks
              ++ map (fun p => submitted (answered p [])) (pending ++ [p])) as Hlog2.
  { rewrite Hlog, map_app, <- app_assoc. done. }
  assert (Forall (fun p => queries !! pj_query p = Some (pj_tokens p)) (pending ++ [p]))
    as Hps2.
  { apply Forall_app. split; [done | by constructor]. }
  assert (map (fun j => (job_query j, job_group j)) (concat chunks)
            ++ map (fun p => (pj_query p, pj_group p)) (pending ++ [p])
          = done ++ [(q, grp)]) as Hd2.
  { by rewrite map_app, app_assoc, Hd. }
  rewrite Hlog2 in H. clear Hlog Hlog2.
  destruct (_ =? _) eqn:HB.
  - inv_run H.
    repeat match goal with x : (S * list event)%type |- _ => destruct x end.
    apply ret_Ok in H as [? ?]. simplify_eq.
    eapply (flush_ledger queries (seen ++ grp)) in Hrun;
      [|by destruct Hasm1|exact Hf2|exact Hn2|exact Hps2].
    destruct Hrun as (last & -> & Hlast & Hd' & Hq' & Hpiece).
    exists (chunks ++ [last]), []. simpl. rewrite concat_app. simpl.
    rewrite !app_nil_r, map_app, Hd', Hd2, Hp1.
    repeat split; try done.
    + apply Forall_app. split; done.
    + apply Forall2_app; [done | by constructor].
    + apply Forall_app. split; [done|]. constructor; [|constructor].
      rewrite Hlast. apply Z.eqb_eq in HB. rewrite Hf2, !length_map in HB. done.
  - apply ret_Ok in H as [? ?]. simplify_eq.
    exists chunks, (pending ++ [p]). simpl. rewrite Hp1.
    repeat split; try done.
    intros HB0. apply Z.eqb_neq in HB. rewrite Hf2, !length_map in HB.
    specialize (Hpend HB0). rewrite length_app in *. simpl in *. lia.
Qed.

Lemma traced_loop_ledger (B : Z) (queries : gmap Z Query)
    (groups : list (Z * list InRow)) :
  forall (seen : list InRow) (done : list (Z * list InRow)) (L L' : locals)
         (s s' : S) (log log' : list event),
    assembling seen L -> ledger float32 B queries seen log L done ->
    (forall t, t ∈ seen -> qid t ∈ map fst done) ->
    NoDup (map fst done ++ map fst groups) ->
    Forall (fun g => snd g <> [] /\ forall t, t ∈ snd g -> qid t = fst g) groups ->
    extract_loop (traced fe) float32 B queries L groups (s, log) = (Ok L', (s', log')) ->
    assembling (seen ++ concat (map snd groups)) L'
    /\ ledger float32 B queries (seen ++ concat (map snd groups)) log' L' (done ++ groups).
Proof.
  induction groups as [|[q grp] groups IH];
    intros seen done L L' s s' log log' Hasm Hacc Hseen Hnd Hwf; simpl.
  - intros [? ?]%ret_Ok. simplify_eq. by rewrite !app_nil_r.
  - intros H. inv_run H.
    repeat match goal with x : (S * list event)%type |- _ => destruct x end.
    apply Forall_cons in Hwf as [[Hne Hgrp] Hwf]. simpl in *.
    assert (forall t, t ∈ seen -> qid t <> q) as Hfresh.
    { intros t Ht <-. apply Hseen in Ht.
      apply NoDup_app in Hnd as (_ & Hnd & _). apply (Hnd _ Ht). left. }
    pose proof (extract_step_assembling _ _ _ _ _ _ _ _ _ _ _ Hasm Hrun) as Hasm'.
    pose proof (traced_step_ledger _ _ _ _ _ _ _ _ _ _ _ _ Hasm Hacc Hne Hgrp
                  Hfresh Hrun) as Hacc'.
    apply (IH _ _ _ _ _ _ _ _ Hasm' Hacc') in H.
    + by rewrite <- !app_assoc in H.
    + intros t [Ht|Ht]%elem_of_app.
      * rewrite map_app, elem_of_app. left. by apply Hseen.
      * rewrite map_app, elem_of_app. right. simpl. rewrite (Hgrp _ Ht). left.
    + rewrite map_app. simpl. by rewrite <- app_assoc.
    + done.
Qed.

(** The whole run of [extract] on a logged extractor, row by row. *)
Lemma extract_ledger (B : Z) (df : list InRow) (queries : gmap Z Query)
    (s s' : S) (log : list event) (data : list OutRow) (group : list (Z * nat)) :
  extract_with (traced fe) float32 B df queries (s, []) = (Ok (data, group), (s', log)) ->
  exists (full rest : list (list job)) (pieces : list (list OutRow)),
    log = flat_map flush_block (full ++ rest)
    /\ map (fun j => (job_query j, job_group j)) (concat (full ++ rest)) = groupby qid df
    /\ Forall (fun j => queries !! job_query j = Some (job_tokens j)) (concat (full ++ rest))
    /\ Forall2 (piece_rows float32 (concat (map snd (groupby qid df)))) pieces (full ++ rest)
    /\ data = sort_values o_qid (concat pieces)
    /\ group = group_count o_qid data
    /\ Forall (fun c => Z.of_nat (length c) = B) full
    /\ (rest = [] \/ exists c, rest = [c] /\ c <> []
                               /\ (0 < B -> Z.of_nat (length c) < B))
    /\ Forall (fun g => NoDup (map pid (snd g))) (groupby qid df)
    /\ full ++ rest <> [].
Proof.
  unfold extract_with. intros H. inv_run H.
  repeat match goal with x : (S * list event)%type |- _ => destruct x end.
  apply lift_Ok in Hrun1 as [Hcat ?]. apply ret_Ok in H as [? ?]. simplify_eq.
  apply (traced_loop_ledger _ _ _ [] [] locals0) in Hrun.
  - simpl in Hrun.
    destruct Hrun as (Hasm & chunks & pending & -> & Hf & Hn & Hd & Hq & Hp & Hpieces
                        & Hfull & Hpend & Hnd).
    unfold extract_rest in Hrun0. destruct (_ <? _)%nat eqn:Hlen.
    + inv_run Hrun0.
      repeat match goal with x : (S * list event)%type |- _ => destruct x end.
      apply ret_Ok in Hrun0 as [? ?]. simplify_eq.
      eapply (flush_ledger queries _ a) in Hrun;
        [|by destruct Hasm|exact Hf|exact Hn|exact Hp].
      destruct Hrun as (last & -> & Hlast & Hd' & Hq' & Hpiece).
      exists chunks, [last], (df_pieces a ++ [a2]).
      rewrite concat_app, map_app. simpl. rewrite app_nil_r, Hd'.
      repeat split; try done.
      * apply Forall_app. split; done.
      * apply Forall2_app; [done | by constructor].
      * by destruct (df_pieces a ++ [a2]); [|injection Hcat as <-].
      * right. exists last. split; [done|]. apply Nat.ltb_lt in Hlen.
        rewrite Hf, !length_map in Hlen.
        split; [destruct last; [simpl in Hlast; lia | done]|].
        intros HB. specialize (Hpend HB). by rewrite Hlast.
      * by destruct chunks.
    + apply ret_Ok in Hrun0 as [? ?]. simplify_eq.
      assert (pending = []) as ->.
      { apply Nat.ltb_ge in Hlen. rewrite Hf, !length_map in Hlen.
        destruct pending; [done | simpl in Hlen; lia]. }
      simpl in *. rewrite app_nil_r in *.
      exists chunks, [], (df_pieces a). rewrite !app_nil_r.
      repeat split; try done.
      * by destruct (df_pieces a); [|injection Hcat as <-].
      * by left.
      * intros ->. apply Forall2_nil_inv_r in Hpieces. by rewrite Hpieces in Hcat.
  - apply assembling_start.
  - exists [], []. simpl. repeat split; try constructor. done.
  - intros t Ht. by apply not_elem_of_nil in Ht.
  - simpl. unfold groupby. rewrite map_map. simpl. rewrite map_id.
    apply unique_sorted_NoDup.
  - unfold groupby. apply Forall_forall. intros g Hg. split.
    + pose proof (groupby_nonempty qid df) as Hne.
      rewrite Forall_forall in Hne. by apply Hne.
    + apply list_elem_of_fmap in Hg as (k & -> & _). simpl.
      intros t Ht. by apply list_elem_of_filter in Ht as [? _].
Qed.
End AssemblerLedger.

Lemma increasing_ext (l1 l2 : list Z) :
  StronglySorted Z.lt l1 -> StronglySorted Z.lt l2 ->
  (forall k, k ∈ l1 <-> k ∈ l2) -> l1 = l2.
Proof.
  intros H1. revert l2. induction H1 as [|x l1 Hl1 IH Hx]; intros l2 H2 Hext.
  - destruct l2 as [|y l2]; [done|]. exfalso.
    apply (not_elem_of_nil y), Hext. left.
  - destruct H2 as [|y l2 Hl2 Hy].
    { exfalso. apply (not_elem_of_nil x), Hext. left. }
    rewrite Forall_forall in Hx, Hy.
    assert (x = y) as ->.
    { assert (x ∈ y :: l2) as Hxin by (apply Hext; left).
      assert (y ∈ x :: l1) as Hyin by (apply Hext; left).
      apply elem_of_cons in Hxin as [?|Hxin]; [done|].
      apply elem_of_cons in Hyin as [?|Hyin]; [done|].
      apply Hy in Hxin. apply Hx in Hyin. lia. }
    f_equal. apply IH; [done|]. intros k. split; intros Hk.
    + assert (k ∈ y :: l2) as Hin by (apply Hext; by right).
      apply elem_of_cons in Hin as [->|?]; [|done]. apply Hx in Hk. lia.
    + assert (k ∈ y :: l1) as Hin by (apply Hext; by right).
      apply elem_of_cons in Hin as [->|?]; [|done]. apply Hy in Hk. lia.
Qed.

Lemma unique_sorted_ext (ks1 ks2 : list Z) :
  (forall k, k ∈ ks1 <-> k ∈ ks2) -> unique_sorted ks1 = unique_sorted ks2.
Proof.
  intros Hext. apply increasing_ext; try apply unique_sorted_increasing.
  intros k. by rewrite !unique_sorted_elem.
Qed.

(** Grouping sees, of the order of the rows, the order within each key
    only. *)
Lemma groupby_ext {R : Type} (key : R -> Z) (l1 l2 : list R) :
  (forall k, rows_of key k l1 = rows_of key k l2) -> groupby key l1 = groupby key l2.
Proof.
  intros Hrows. unfold groupby.
  rewrite (unique_sorted_ext (map key l1) (map key l2)).
  - apply map_ext. intros k. by rewrite Hrows.
  - intros k. rewrite !list_elem_of_fmap. split; intros (x & -> & Hx).
    + assert (x ∈ rows_of key (key x) l1) as Hin by (by apply list_elem_of_filter).
      rewrite Hrows in Hin. apply list_elem_of_filter in Hin as [_ Hin]. by exists x.
    + assert (x ∈ rows_of key (key x) l2) as Hin by (by apply list_elem_of_filter).
      rewrite <- Hrows in Hin. apply list_elem_of_filter in Hin as [_ Hin]. by exists x.
Qed.

Lemma groupby_sort_values {R : Type} (key : R -> Z) (l : list R) :
  groupby key (sort_values key l) = groupby key l.
Proof. apply groupby_ext. intros k. apply rows_of_sort_values. Qed.

Lemma groupby_Permutation {R : Type} (key : R -> Z) (l : list R) :
  concat (map snd (groupby key l)) ≡ₚ l.
Proof.
  rewrite <- groupby_sort_values, groupby_tiles by apply sort_values_sorted.
  unfold sort_values. apply stable_sort_Permutation.
Qed.

Lemma groups_are_rows_of {R : Type} (key : R -> Z) (l : list R) (g : Z * list R) :
  g ∈ groupby key l -> snd g = rows_of key (fst g) l.
Proof. unfold groupby. by intros (k & -> & _)%list_elem_of_fmap. Qed.

(** Passage ids that differ within every query make (qid, pid) pairs
    that differ. *)
Lemma NoDup_pairs (df : list InRow) :
  (forall q, NoDup (map pid (rows_of qid q df))) ->
  NoDup (map (fun t => (qid t, pid t)) df).
Proof.
  induction df as [|t df IH]; intros H; simpl; [constructor|].
  apply NoDup_cons. split.
  - intros (t' & Heq & Hin)%list_elem_of_fmap. injection Heq as Hq Hp.
    specialize (H (qid t)). unfold rows_of in H. rewrite filter_cons in H.
    rewrite decide_True in H by done. simpl in H.
    apply NoDup_cons in H as [H _]. apply H. rewrite Hp.
    apply list_elem_of_fmap. exists t'. split; [done|].
    apply list_elem_of_filter. split; [done | exact Hin].
  - apply IH. intros q. specialize (H q). unfold rows_of in *.
    rewrite filter_cons in H. case_decide; [|done].
    simpl in H. by apply NoDup_cons in H as [_ H].
Qed.

Lemma groups_NoDup_pairs (df : list InRow) :
  Forall (fun g => NoDup (map pid (snd g))) (groupby qid df) ->
  NoDup (map (fun t => (qid t, pid t)) df).
Proof.
  intros H. apply NoDup_pairs. intros q.
  destruct (decide (q ∈ map qid df)) as [Hq|Hq].
  - rewrite Forall_forall in H. apply (H (q, rows_of qid q df)).
    unfold groupby. apply list_elem_of_fmap. exists q. split; [done|].
    by apply unique_sorted_elem.
  - rewrite rows_of_absent by done. constructor.
Qed.

Lemma rows_of_jobs_length {R : Doc -> OutRow -> Prop} (c : list job)
    (rowss : list (list OutRow)) :
  Forall2 (fun j rows => Forall2 R (job_answer j) rows) c rowss ->
  length (concat rowss) = returned c.
Proof.
  unfold returned. induction 1 as [|j rows c rowss Hj _ IH]; simpl; [done|].
  rewrite length_app, IH. by rewrite (Forall2_length _ _ _ Hj).
Qed.

Lemma piece_rows_length (float32 : float -> float) (seen : list InRow)
    (piece : list OutRow) (c : list job) :
  piece_rows float32 seen piece c -> length piece = requested c.
Proof.
  intros (rowss & n & Hrows & Hle & ->).
  rewrite length_app, length_replicate.
  pose proof (rows_of_jobs_length (R := fun _ _ => True) c rowss) as Hlen.
  rewrite Hlen; [lia|].
  eapply Forall2_impl; [exact Hrows|]. intros j rows Hj.
  eapply Forall2_impl; [exact Hj | done].
Qed.

Lemma pieces_length (float32 : float -> float) (seen : list InRow)
    (pieces : list (list OutRow)) (chunks : list (list job)) :
  Forall2 (piece_rows float32 seen) pieces chunks ->
  length (concat pieces) = length (concat (map job_group (concat chunks))).
Proof.
  induction 1 as [|piece c pieces chunks Hp _ IH]; simpl; [done|].
  rewrite map_app, concat_app, !length_app, IH, (piece_rows_length _ _ _ _ Hp).
  f_equal. unfold requested. clear. induction c as [|j c IH]; simpl; [done|].
  by rewrite length_app, IH.
Qed.

Lemma jobs_groups (chunks : list (list job)) (df : list InRow) :
  map (fun j => (job_query j, job_group j)) (concat chunks) = groupby qid df ->
  map job_group (concat chunks) = map snd (groupby qid df)
  /\ map job_query (concat chunks) = map fst (groupby qid df).
Proof. intros <-. by rewrite !map_map. Qed.

(** X1.  [extract] allocates one row for every judgment of the frame,
    whether or not the extractor answers with a document for it: the
    assembled matrix has as many rows as the frame, and the sizes of
    its groups add up to that number. *)
Theorem extract_one_row_per_judgment
    {S : Type} (fe : FeObj S) (float32 : float -> float) (B : Z)
    (df : list InRow) (queries : gmap Z Query) (s s' : S)
    (data : list OutRow) (group : list (Z * nat)) :
  extract_with fe float32 B df queries s = (Ok (data, group), s') ->
  length data = length df /\ sum_list (map snd group) = length df.
Proof.
  intros H. apply extract_with_logged in H as [log H].
  apply extract_ledger in H
    as (full & rest & pieces & _ & Hjobs & _ & Hpieces & -> & -> & _).
  assert (length (sort_values o_qid (concat pieces)) = length df) as Hlen.
  { unfold sort_values. rewrite stable_sort_length, (pieces_length _ _ _ _ Hpieces).
    apply jobs_groups in Hjobs as [-> _]. by rewrite groupby_Permutation. }
  split; [exact Hlen|].
  rewrite group_count_total by apply sort_values_sorted. exact Hlen.
Qed.

Lemma extract_one_row_per_judgment_witness :
  exists data group s',
    extract Double.fe Double.float32 Double.judgments Double.queries (init Double.store0)
    = (Ok (data, group), s')
    /\ length data = 5%nat /\ sum_list (map snd group) = 5%nat.
Proof.
  eexists _, _, _. split; [vm_compute; reflexivity|].
  exact (extract_one_row_per_judgment Double.fe Double.float32 FLUSH Double.judgments
           Double.queries (init Double.store0) _ _ _ ltac:(vm_compute; reflexivity)).
Defined.

Lemma str_inj (a b : Z) : str a = str b -> a = b.
Proof.
  intros H. pose proof (int_str a) as Ha. rewrite H, int_str in Ha. by injection Ha.
Qed.

Lemma dict_get_judgments (grp : list InRow) (p : Z) :
  match dict_get p (map (fun t => (pid t, rel t)) grp) with
  | Some r => exists t, t ∈ grp /\ pid t = p /\ rel t = r
  | None => p ∉ map pid grp
  end.
Proof.
  induction grp as [|t grp IH]; simpl; [apply not_elem_of_nil|].
  case_decide as Hp.
  - exists t. split; [left | done].
  - destruct (dict_get p _) as [r|].
    + destruct IH as (t' & ? & ? & ?). exists t'. split; [by right | done].
    + apply not_elem_of_cons. split; [done | exact IH].
Qed.

Section ExactAnswers.
Context (float32 : float -> float).

Lemma exact_pieces_flat (seen : list InRow) (pieces : list (list OutRow))
    (chunks : list (list job)) :
  Forall2 (piece_rows float32 seen) pieces chunks ->
  Forall (fun j => length (job_answer j) = length (job_group j)) (concat chunks) ->
  exists rowss : list (list OutRow),
    concat pieces = concat rowss
    /\ Forall2 (fun j rows =>
                  exists n, Forall2 (row_of_doc float32 seen n (job_query j))
                              (job_answer j) rows)
         (concat chunks) rowss.
Proof.
  induction 1 as [|piece c pieces chunks (rowss & n & Hrows & Hle & ->) _ IH]; simpl.
  - intros _. exists []. split; [done | constructor].
  - intros [Hc Hcs]%Forall_app. destruct (IH Hcs) as (rowss' & Heq & Hall).
    exists (rowss ++ rowss'). rewrite (balanced_chunk c Hc), Nat.sub_diag. simpl.
    rewrite app_nil_r, concat_app, Heq. split; [done|].
    apply Forall2_app; [|done].
    eapply Forall2_impl; [exact Hrows|]. intros j rows Hj. by exists n.
Qed.

Lemma job_rows_labels (seen : list InRow) (q : Z) (grp : list InRow)
    (docs : list Doc) (rows : list OutRow) (n : nat) :
  functional seen -> (forall t, t ∈ grp -> t ∈ seen /\ qid t = q) ->
  map doc_pid docs ≡ₚ map pid grp ->
  Forall2 (row_of_doc float32 seen n q) docs rows ->
  map label_of rows ≡ₚ map judgment_of grp.
Proof.
  intros Hfun Hgrp Hperm Hrows.
  set (g := fun p => (q, p, default 0 (dict_get p (map (fun t => (pid t, rel t)) grp)))).
  assert (map label_of rows = map g (map doc_pid docs)) as ->.
  { assert (forall doc, doc ∈ docs -> doc_pid doc ∈ map pid grp) as Hin.
    { intros doc Hdoc. rewrite <- Hperm. apply list_elem_of_fmap. by exists doc. }
    clear Hperm. induction Hrows as [|doc r docs rows Hr _ IH]; simpl; [done|].
    rewrite IH by (intros d Hd; apply Hin; by right). f_equal.
    destruct Hr as (Hq & Hp & (t0 & Ht0 & Hq0 & Hp0 & Hr0) & _).
    unfold label_of, g. rewrite Hq, Hp. f_equal.
    pose proof (dict_get_judgments grp (doc_pid doc)) as Hget.
    destruct (dict_get _ _) as [r'|]; simpl.
    - destruct Hget as (t' & Ht' & Hp' & <-). rewrite <- Hr0.
      destruct (Hgrp _ Ht') as [Hs' Hq']. apply Hfun; congruence.
    - exfalso. apply Hget, Hin. left. }
  rewrite Hperm, map_map.
  assert (map (fun t => g (pid t)) grp = map judgment_of grp) as ->; [|done].
  apply map_ext_in.
  intros t Ht%list_elem_of_In. unfold g, judgment_of.
  destruct (Hgrp _ Ht) as [Hs Hq]. rewrite Hq. f_equal.
  pose proof (dict_get_judgments grp (pid t)) as Hget.
  destruct (dict_get _ _) as [r'|]; simpl.
  - destruct Hget as (t' & Ht' & Hp' & <-).
    destruct (Hgrp _ Ht') as [Hs' Hq']. apply Hfun; congruence.
  - exfalso. apply Hget. apply list_elem_of_fmap. by exists t.
Qed.

Lemma jobs_rows_labels (seen : list InRow) (jobs : list job) (rowss : list (list OutRow)) :
  functional seen ->
  Forall (fun j => (forall t, t ∈ job_group j -> t ∈ seen /\ qid t = job_query j)
                   /\ map doc_pid (job_answer j) ≡ₚ map pid (job_group j)) jobs ->
  Forall2 (fun j rows =>
             exists n, Forall2 (row_of_doc float32 seen n (job_query j))
                         (job_answer j) rows) jobs rowss ->
  map label_of (concat rowss) ≡ₚ map judgment_of (concat (map job_group jobs)).
Proof.
  intros Hfun Hjobs Hrows. induction Hrows as [|j rows jobs rowss [n Hj] _ IH]; simpl.
  - done.
  - apply Forall_cons in Hjobs as [[Hgrp Hperm] Hjobs].
    rewrite !map_app. apply Permutation_app; [|by apply IH].
    by eapply job_rows_labels.
Qed.

(** In the rows of the jobs of distinct queries, the rows of a query
    are those of its job, in the order of its answer. *)
Lemma job_rows_of_query (seen : list InRow) (jobs : list job) (rowss : list (list OutRow)) :
  NoDup (map job_query jobs) ->
  Forall2 (fun j rows =>
             exists n, Forall2 (row_of_doc float32 seen n (job_query j))
                         (job_answer j) rows) jobs rowss ->
  forall j, j ∈ jobs ->
    map o_pid (rows_of o_qid (job_query j) (concat rowss)) = map doc_pid (job_answer j).
Proof.
  intros Hnd Hrows. induction Hrows as [|j0 rows jobs rowss [n Hj0] Hrest IH]; simpl.
  - intros j Hj. by apply not_elem_of_nil in Hj.
  - simpl in Hnd. apply NoDup_cons in Hnd as [Hfresh Hnd].
    assert (forall q, rows_of o_qid q rows = if decide (q = job_query j0) then rows else [])
      as Hown.
    { intros q. unfold rows_of. clear -Hj0.
      induction Hj0 as [|doc r docs rows (Hq & _) _ IH]; [by case_decide|].
      rewrite filter_cons, IH, Hq. repeat case_decide; congruence. }
    assert (forall q, q ∉ map job_query jobs -> rows_of o_qid q (concat rowss) = [])
      as Hothers.
    { clear -Hrest. induction Hrest as [|j rows jobs rowss [n Hj] _ IH]; [done|].
      simpl. intros q [Hq Hqs]%not_elem_of_cons. rewrite rows_of_app, IH by done.
      rewrite app_nil_r. unfold rows_of. clear -Hj Hq.
      induction Hj as [|doc r docs rows (Hr & _) _ IH]; [done|].
      by rewrite filter_cons, decide_False, IH by congruence. }
    intros j [->|Hj]%elem_of_cons; rewrite rows_of_app, Hown.
    + rewrite decide_True, Hothers, app_nil_r by done.
      clear -Hj0. induction Hj0 as [|doc r docs rows (_ & Hp & _) _ IH]; simpl; [done|].
      by rewrite Hp, IH.
    + rewrite decide_False; [by apply IH|].
      intros Heq. apply Hfresh. rewrite <- Heq. apply list_elem_of_fmap. by exists j.
Qed.
End ExactAnswers.

Lemma elem_of_concat {A : Type} (x : A) (ls : list (list A)) :
  x ∈ concat ls <-> exists l, x ∈ l /\ l ∈ ls.
Proof.
  rewrite list_elem_of_In, in_concat. split; intros (l & H1 & H2); exists l;
    by rewrite ?list_elem_of_In in *.
Qed.

Lemma retrieved_in_log (chunks : list (list job)) (j : job) :
  j ∈ concat chunks -> retrieved j ∈ flat_map flush_block chunks.
Proof.
  intros (c & Hj & Hc)%elem_of_concat. apply list_elem_of_In, in_flat_map.
  exists c. split; [by apply list_elem_of_In|]. apply list_elem_of_In.
  unfold flush_block. apply elem_of_app. right. apply list_elem_of_fmap. by exists j.
Qed.

Lemma retrieval_of_log (chunks : list (list job)) (q : Z) (o : outcome (list Doc)) :
  Call_get_result (str q) o ∈ flat_map flush_block chunks ->
  exists j, j ∈ concat chunks /\ job_query j = q /\ o = Ok (job_answer j).
Proof.
  intros (c & Hc & He)%list_elem_of_In%in_flat_map. apply list_elem_of_In in Hc, He.
  unfold flush_block in He. apply elem_of_app in He as [He|He];
    apply list_elem_of_fmap in He as (j & Heq & Hj); [discriminate|].
  injection Heq as Hq ->. exists j. split; [|split; [by apply str_inj | done]].
  apply elem_of_concat. by exists c.
Qed.

Lemma count_Permutation (k : Z) (l1 l2 : list Z) :
  l1 ≡ₚ l2 -> length (filter (fun x => x = k) l1) = length (filter (fun x => x = k) l2).
Proof. intros H. by rewrite H. Qed.

Lemma rows_of_count {R : Type} (key : R -> Z) (k : Z) (l : list R) :
  length (rows_of key k l) = length (filter (fun x => x = k) (map key l)).
Proof.
  unfold rows_of. induction l as [|x l IH]; simpl; [done|].
  rewrite !filter_cons. case_decide; simpl; by rewrite IH.
Qed.

(** The group sizes depend on the key column as a bag only. *)
Lemma group_count_Permutation {R1 R2 : Type} (key1 : R1 -> Z) (key2 : R2 -> Z)
    (l1 : list R1) (l2 : list R2) :
  map key1 l1 ≡ₚ map key2 l2 -> group_count key1 l1 = group_count key2 l2.
Proof.
  intros H. unfold group_count, groupby. rewrite !map_map. simpl.
  rewrite (unique_sorted_ext (map key1 l1) (map key2 l2)) by (intros k; by rewrite H).
  apply map_ext. intros k. f_equal. rewrite !rows_of_count. by apply count_Permutation.
Qed.

(** What exact answers make of the run of [extract]. *)
Lemma extract_exact_answers
    {S : Type} (fe : FeObj S) (float32 : float -> float) (B : Z)
    (df : list InRow) (queries : gmap Z Query) (s s' : S) (log : list event)
    (data : list OutRow) (group : list (Z * nat)) :
  extract_with (traced fe) float32 B df queries (s, []) = (Ok (data, group), (s', log)) ->
  (forall q docs, Call_get_result (str q) (Ok docs) ∈ log ->
                  map doc_pid docs ≡ₚ map pid (rows_of qid q df)) ->
  map label_of data ≡ₚ map judgment_of df
  /\ group = group_count qid df
  /\ (forall q docs, Call_get_result (str q) (Ok docs) ∈ log ->
                     map o_pid (rows_of o_qid q data) = map doc_pid docs).
Proof.
  intros H Hexact.
  destruct (extract_rows_judged _ _ _ _ _ _ _ _ _ H) as [Hfun _].
  apply extract_ledger in H
    as (full & rest & pieces & -> & Hjobs & _ & Hpieces & -> & -> & _).
  set (chunks := full ++ rest) in *.
  set (seen := concat (map snd (groupby qid df))) in *.
  assert (Forall (fun j => (forall t, t ∈ job_group j -> t ∈ seen /\ qid t = job_query j)
                           /\ map doc_pid (job_answer j) ≡ₚ map pid (job_group j))
            (concat chunks)) as Hjob.
  { apply Forall_forall. intros j Hj.
    assert ((job_query j, job_group j) ∈ groupby qid df) as Hg.
    { rewrite <- Hjobs. apply list_elem_of_fmap. by exists j. }
    pose proof (groups_are_rows_of _ _ _ Hg) as Hrows. simpl in Hrows.
    split.
    - intros t Ht. split.
      + apply elem_of_concat. exists (job_group j). split; [done|].
        apply list_elem_of_fmap. by exists (job_query j, job_group j).
      + rewrite Hrows in Ht. by apply list_elem_of_filter in Ht as [? _].
    - rewrite Hrows. apply Hexact. by apply retrieved_in_log. }
  assert (Forall (fun j => length (job_answer j) = length (job_group j)) (concat chunks))
    as Hbal.
  { eapply Forall_impl; [exact Hjob|]. intros j [_ Hp].
    apply Permutation_length in Hp. by rewrite !length_map in Hp. }
  destruct (exact_pieces_flat _ _ _ _ Hpieces Hbal) as (rowss & Heq & Hall).
  assert (functional seen) as Hfun'.
  { intros t t' Ht Ht'. unfold seen in Ht, Ht'. apply elem_of_groups in Ht, Ht'.
    by apply Hfun. }
  assert (map label_of (sort_values o_qid (concat pieces)) ≡ₚ map judgment_of df) as Hlab.
  { unfold sort_values. rewrite (stable_sort_Permutation _ _), Heq.
    rewrite (jobs_rows_labels _ _ _ _ Hfun' Hjob Hall).
    apply jobs_groups in Hjobs as [-> _]. by rewrite groupby_Permutation. }
  split; [exact Hlab|]. split.
  - apply group_count_Permutation.
    apply (Permutation_map (fun x : Z * Z * Z => fst (fst x))) in Hlab.
    by rewrite !map_map in Hlab.
  - intros q docs (j & Hj & <- & [= ->])%retrieval_of_log.
    rewrite rows_of_sort_values, Heq.
    eapply job_rows_of_query; [|exact Hall|exact Hj].
    apply jobs_groups in Hjobs as [_ ->]. unfold groupby. rewrite map_map. simpl.
    rewrite map_id. apply unique_sorted_NoDup.
Qed.

(** X2.  When the extractor answers every job with exactly the passages
    submitted for it, in whatever order, the assembled matrix holds the
    judgments of the frame: its (qid, pid, rel) rows are those of the
    frame, its group sizes are the numbers of judgments of the queries in
    ascending query order, and the rows of a query follow the order of
    the documents in the answer for that query. *)
Theorem extract_exact_answers_give_the_judgments
    {S : Type} (fe : FeObj S) (float32 : float -> float) (B : Z)
    (df : list InRow) (queries : gmap Z Query) (s s' : S) (log : list event)
    (data : list OutRow) (group : list (Z * nat)) :
  extract_with (traced fe) float32 B df queries (s, []) = (Ok (data, group), (s', log)) ->
  (forall q docs, Call_get_result (str q) (Ok docs) ∈ log ->
                  map doc_pid docs ≡ₚ map pid (rows_of qid q df)) ->
  map label_of data ≡ₚ map judgment_of df
  /\ group = group_count qid df
  /\ (forall q docs, Call_get_result (str q) (Ok docs) ∈ log ->
                     map o_pid (rows_of o_qid q data) = map doc_pid docs).
Proof. apply extract_exact_answers. Qed.

Lemma extract_exact_answers_witness :
  exists data group s' log,
    extract_with (traced Double.fe) Double.float32 2 Double.judgments Double.queries
      (init Double.store0, []) = (Ok (data, group), (s', log))
    /\ map label_of data ≡ₚ map judgment_of Double.judgments
    /\ group = [(1, 2%nat); (2, 2%nat); (3, 1%nat)]
    /\ map o_pid (rows_of o_qid 1 data) = [101; 100].
Proof.
  eexists _, _, _, _. split; [vm_compute; reflexivity|].
  pose proof (extract_exact_answers_give_the_judgments
                Double.fe Double.float32 2 Double.judgments Double.queries
                (init Double.store0)) as H.
  specialize (H _ _ _ _ ltac:(vm_compute; reflexivity)).
  destruct H as (Hlab & Hgroup & Horder).
  - intros q docs Hin. vm_compute in Hin.
    repeat (apply elem_of_cons in Hin as [Hin|Hin]; [try discriminate Hin|]);
      try (by apply not_elem_of_nil in Hin);
      injection Hin as Hq ->.
    + apply (str_inj q 1) in Hq as ->. vm_compute. apply Permutation_swap.
    + apply (str_inj q 2) in Hq as ->. vm_compute. apply Permutation_swap.
    + apply (str_inj q 3) in Hq as ->. vm_compute. reflexivity.
  - split; [exact Hlab|]. split; [exact Hgroup|].
    refine (Horder 1 [{| doc_pid := 101; doc_features := [] |};
                      {| doc_pid := 100; doc_features := [] |}] _).
    vm_compute. do 2 right. left.
Defined.

(** X3.  With a threshold [B] above 0, [extract] flushes after every
    [B]-th query and once more at the end for the queries left, if any:
    the logged calls are blocks of submissions followed by the
    retrievals of the same jobs; every block but the last has exactly
    [B] jobs, the last has between 1 and [B]; so there are
    [ceil(n / B)] blocks for the [n] distinct query ids of the frame,
    which are submitted in ascending order. *)
Theorem extract_flushes_every_B_queries
    {S : Type} (fe : FeObj S) (float32 : float -> float) (B : Z)
    (df : list InRow) (queries : gmap Z Query) (s s' : S) (log : list event)
    (data : list OutRow) (group : list (Z * nat)) :
  0 < B ->
  extract_with (traced fe) float32 B df queries (s, []) = (Ok (data, group), (s', log)) ->
  exists chunks : list (list job),
    log = flat_map flush_block chunks
    /\ map job_query (concat chunks) = unique_sorted (map qid df)
    /\ (forall (i : nat) (c : list job), chunks !! i = Some c ->
          c <> [] /\ Z.of_nat (length c) <= B
          /\ ((i + 1 < length chunks)%nat -> Z.of_nat (length c) = B))
    /\ Z.of_nat (length chunks)
       = (Z.of_nat (length (unique_sorted (map qid df))) + B - 1) / B.
Proof.
  intros HB H.
  apply extract_ledger in H
    as (full & rest & pieces & -> & Hjobs & _ & _ & _ & _ & Hfull & Hrest & _).
  exists (full ++ rest). split; [done|].
  apply jobs_groups in Hjobs as [_ Hq].
  assert (map fst (groupby qid df) = unique_sorted (map qid df)) as Hkeys.
  { unfold groupby. rewrite map_map. simpl. by rewrite map_id. }
  rewrite Hkeys in Hq. split; [exact Hq|].
  assert (Z.of_nat (length (concat full)) = Z.of_nat (length full) * B) as Hlen.
  { clear -Hfull. induction Hfull as [|c full Hc _ IH]; simpl; [done|].
    rewrite length_app. lia. }
  split.
  - intros i c Hi. apply lookup_app_Some in Hi as [Hi|[Hge Hi]].
    + rewrite Forall_forall in Hfull.
      assert (Z.of_nat (length c) = B) as Hc.
      { apply Hfull. by eapply list_elem_of_lookup_2. }
      split; [destruct c; [simpl in Hc; lia | done]|]. split; [lia | done].
    + destruct Hrest as [->|(c' & -> & Hne & Hlt)]; [done|].
      destruct (i - length full)%nat eqn:Hi'; [|done]. injection Hi as <-.
      split; [done|]. split; [specialize (Hlt HB); lia|].
      rewrite length_app. simpl. lia.
  - rewrite <- Hq, length_map, concat_app, !length_app, !Nat2Z.inj_add, Hlen.
    destruct Hrest as [->|(c' & -> & Hne & Hlt)]; simpl.
    + change (Z.of_nat 0) with 0. apply (Z.div_unique _ _ _ (B - 1)); lia.
    + specialize (Hlt HB).
      assert (0 < Z.of_nat (length c')) by (destruct c'; [done | simpl; lia]).
      change (length [c']) with 1%nat. change (Z.of_nat 1) with 1.
      rewrite app_nil_r.
      apply (Z.div_unique _ _ _ (Z.of_nat (length c') - 1)); lia.
Qed.

Lemma extract_flushes_witness :
  exists data group s' log chunks,
    extract_with (traced Double.fe) Double.float32 2 Double.judgments Double.queries
      (init Double.store0, []) = (Ok (data, group), (s', log))
    /\ log = flat_map flush_block chunks
    /\ map job_query (concat chunks) = [1; 2; 3]
    /\ length chunks = 2%nat.
Proof.
  pose proof (extract_flushes_every_B_queries
                Double.fe Double.float32 2 Double.judgments Double.queries
                (init Double.store0)) as H.
  specialize (H _ _ _ _ ltac:(lia) ltac:(vm_compute; reflexivity)).
  destruct H as (chunks & Hlog & Hq & _ & Hn).
  eexists _, _, _, _, chunks. split; [vm_compute; reflexivity|].
  split; [exact Hlog|]. split; [exact Hq|].
  apply Nat2Z.inj. rewrite Hn. vm_compute. reflexivity.
Defined.

(** X4.  [extract] checks what the extractor answers: when it returns,
    every retrieval was answered, every answered document is one of the
    passages submitted with its job (else the lookup of its relevance
    raises), and the answers of one flush together hold no more
    documents than the jobs of that flush submitted (else the row index
    leaves the matrix). *)
Theorem extract_checks_the_answers
    {S : Type} (fe : FeObj S) (float32 : float -> float) (B : Z)
    (df : list InRow) (queries : gmap Z Query) (s s' : S) (log : list event)
    (data : list OutRow) (group : list (Z * nat)) :
  extract_with (traced fe) float32 B df queries (s, []) = (Ok (data, group), (s', log)) ->
  exists chunks : list (list job),
    log = flat_map flush_block chunks
    /\ map (fun j => (job_query j, job_group j)) (concat chunks) = groupby qid df
    /\ Forall (fun j => Forall (fun doc => doc_pid doc ∈ map pid (job_group j))
                          (job_answer j)) (concat chunks)
    /\ Forall (fun c => (returned c <= requested c)%nat) chunks.
Proof.
  intros H.
  apply extract_ledger in H as (full & rest & pieces & -> & Hjobs & _ & Hpieces & _).
  exists (full ++ rest). split; [done|]. split; [done|].
  assert (forall j, j ∈ concat (full ++ rest) -> job_group j = rows_of qid (job_query j) df)
    as Hgrp.
  { intros j Hj. apply (groups_are_rows_of qid df (job_query j, job_group j)).
    rewrite <- Hjobs. apply list_elem_of_fmap. by exists j. }
  clear Hjobs. revert Hpieces Hgrp. generalize (full ++ rest). intros all Hpieces.
  induction Hpieces as [|piece c pieces chunks (rowss & n & Hrows & Hle & _) _ IH];
    intros Hgrp; simpl.
  - split; constructor.
  - destruct IH as [IH1 IH2].
    { intros j Hj. apply Hgrp. simpl. apply elem_of_app. by right. }
    split; [|by constructor]. apply Forall_app. split; [|done].
    assert (forall j, j ∈ c -> job_group j = rows_of qid (job_query j) df) as Hc.
    { intros j Hj. apply Hgrp. simpl. apply elem_of_app. by left. }
    clear -Hrows Hc. induction Hrows as [|j rows c rowss Hj _ IH]; [constructor|].
    constructor; [|apply IH; intros j' Hj'; apply Hc; by right].
    rewrite (Hc j) by left. clear -Hj.
    induction Hj as [|doc r docs rows (_ & _ & (t & Ht & Hq & Hp & _) & _) _ IH];
      constructor; [|done].
    rewrite <- Hp. apply list_elem_of_fmap. exists t. split; [done|].
    apply list_elem_of_filter. split; [done|]. by apply elem_of_groups in Ht.
Qed.

Lemma extract_checks_witness :
  exists data group s' log chunks,
    extract_with (traced Double.fe) Double.float32 2 Double.judgments Double.queries
      (init Double.store0, []) = (Ok (data, group), (s', log))
    /\ log = flat_map flush_block chunks
    /\ Forall (fun c => (returned c <= requested c)%nat) chunks.
Proof.
  pose proof (extract_checks_the_answers
                Double.fe Double.float32 2 Double.judgments Double.queries
                (init Double.store0)) as H.
  specialize (H _ _ _ _ ltac:(vm_compute; reflexivity)).
  destruct H as (chunks & Hlog & _ & _ & Hle).
  eexists _, _, _, _, chunks. split; [vm_compute; reflexivity|]. by split.
Defined.

(** X5.  [extract] returns only for a frame it accepts: one that has a
    row, lists no passage twice for a query (the assertion in the
    recording loop), and whose query ids all have an entry in
    [queries]. *)
Theorem extract_returns_only_for_valid_input
    {S : Type} (fe : FeObj S) (float32 : float -> float) (B : Z)
    (df : list InRow) (queries : gmap Z Query) (s s' : S)
    (data : list OutRow) (group : list (Z * nat)) :
  extract_with fe float32 B df queries s = (Ok (data, group), s') ->
  df <> []
  /\ NoDup (map (fun t => (qid t, pid t)) df)
  /\ (forall t, t ∈ df -> is_Some (queries !! qid t)).
Proof.
  intros H. split; [by intros ->|].
  apply extract_with_logged in H as [log H].
  apply extract_ledger in H
    as (full & rest & pieces & _ & Hjobs & Hq & _ & _ & _ & _ & _ & Hnd & Hne).
  split.
  - by apply groups_NoDup_pairs.
  - intros t Ht. apply jobs_groups in Hjobs as [_ Hkeys].
    assert (qid t ∈ map job_query (concat (full ++ rest))) as Hin.
    { rewrite Hkeys. unfold groupby. rewrite map_map. simpl. rewrite map_id.
      apply unique_sorted_elem, list_elem_of_fmap. by exists t. }
    apply list_elem_of_fmap in Hin as (j & -> & Hj).
    rewrite Forall_forall in Hq. rewrite (Hq j Hj). by eexists.
Qed.

Lemma extract_valid_input_witness :
  exists data group s',
    extract Double.fe Double.float32 Double.judgments Double.queries (init Double.store0)
    = (Ok (data, group), s')
    /\ NoDup (map (fun t => (qid t, pid t)) Double.judgments)
    /\ (forall t, t ∈ Double.judgments -> is_Some (Double.queries !! qid t)).
Proof.
  eexists _, _, _. split; [vm_compute; reflexivity|].
  exact (proj2 (extract_returns_only_for_valid_input Double.fe Double.float32 FLUSH
                  Double.judgments Double.queries (init Double.store0) _ _ _
                  ltac:(vm_compute; reflexivity))).
Defined.

Lemma dict_keys_get_None {K V : Type} `{EqDecision K} (k : K) (d : dict K V) :
  k ∉ dict_keys d -> dict_get k d = None.
Proof.
  induction d as [|[k0 v0] d IH]; simpl; [done|].
  intros [Hne Hk]%not_elem_of_cons. rewrite decide_False by done. by apply IH.
Qed.

Lemma rel_of_query_empty (q : Z) : rel_of_query ∅ q = [].
Proof. unfold rel_of_query. by rewrite lookup_empty. Qed.

Lemma record_group_outcome (grp : list InRow) :
  forall L : locals,
    (exists L', record_group L grp = Ok L') \/ record_group L grp = Raise AssertionError.
Proof.
  induction grp as [|t grp IH]; intros L; simpl; [left; by eexists|].
  unfold record_judgment. destruct (dict_mem _ _); simpl; [by right|]. apply IH.
Qed.

(** A group whose passage ids are new to the query and differ from each
    other is recorded. *)
Lemma record_group_accepts (q : Z) (grp : list InRow) :
  forall L : locals,
    (forall t, t ∈ grp -> qid t = q) ->
    NoDup (dict_keys (rel_of_query (qidpid2rel L) q) ++ map pid grp) ->
    exists L', record_group L grp = Ok L'.
Proof.
  induction grp as [|t grp IH]; intros L Hq Hnd; simpl; [by eexists|].
  assert (qid t = q) as Ht by (apply Hq; left).
  unfold record_judgment. rewrite Ht.
  assert (dict_get (pid t) (rel_of_query (qidpid2rel L) q) = None) as Hget.
  { apply dict_keys_get_None. apply NoDup_app in Hnd as (_ & Hnd & _).
    intros Hin. apply (Hnd _ Hin). left. }
  unfold dict_mem. rewrite Hget. simpl. apply IH.
  - intros t' Ht'. apply Hq. by right.
  - simpl. rewrite rel_of_query_insert, decide_True by done.
    rewrite dict_set_fresh by done. unfold dict_keys. rewrite map_app. simpl.
    by rewrite <- app_assoc.
Qed.

(** The first group that [groupby] yields is the one of the least key. *)
Lemma groupby_head {R : Type} (key : R -> Z) (l : list R) (k0 : Z) :
  k0 ∈ map key l -> (forall x, x ∈ l -> k0 <= key x) ->
  exists rest, groupby key l = (k0, rows_of key k0 l) :: rest.
Proof.
  intros Hin Hmin. unfold groupby.
  pose proof (unique_sorted_increasing (map key l)) as Hs.
  apply unique_sorted_elem in Hin.
  destruct (unique_sorted (map key l)) as [|k ks] eqn:Hks.
  { by apply not_elem_of_nil in Hin. }
  assert (k ∈ map key l) as Hk by (apply unique_sorted_elem; rewrite Hks; left).
  apply list_elem_of_fmap in Hk as (x & -> & Hx).
  apply StronglySorted_inv in Hs as [_ Hlt]. rewrite Forall_forall in Hlt.
  apply elem_of_cons in Hin as [->|Hin]; [by eexists|].
  apply Hlt in Hin. apply Hmin in Hx. lia.
Qed.

(** X6.  What [extract] raises before it calls the extractor at all:
    [ValueError] (from [pd.concat]) on a frame without rows;
    [AssertionError] when the query with the least id lists a passage
    twice; [KeyError] when that query's passages differ but [queries] has
    no entry for it.  The extractor is left as it was. *)
Theorem extract_fails_before_the_first_call
    {S : Type} (fe : FeObj S) (float32 : float -> float) (B : Z)
    (df : list InRow) (queries : gmap Z Query) (s : S) :
  (df = [] -> extract_with fe float32 B df queries s = (Raise ValueError, s))
  /\ (forall q0 : Z,
        q0 ∈ map qid df -> (forall t, t ∈ df -> q0 <= qid t) ->
        (~ NoDup (map pid (rows_of qid q0 df)) ->
         extract_with fe float32 B df queries s = (Raise AssertionError, s))
        /\ (NoDup (map pid (rows_of qid q0 df)) -> queries !! q0 = None ->
            extract_with fe float32 B df queries s = (Raise KeyError, s))).
Proof.
  split; [by intros ->|]. intros q0 Hin Hmin.
  destruct (groupby_head qid df q0 Hin Hmin) as [rest Hg].
  assert (forall t, t ∈ rows_of qid q0 df -> qid t = q0) as Hq.
  { intros t Ht. by apply list_elem_of_filter in Ht as [? _]. }
  unfold extract_with. rewrite Hg. simpl. unfold extract_step, bind, lift. split.
  - intros Hdup. destruct (record_group_outcome (rows_of qid q0 df) locals0)
      as [[L' Hrec]|Hrec]; rewrite Hrec; [|done].
    exfalso. apply Hdup.
    pose proof (record_group_keys_NoDup q0 _ _ _ Hq Hrec) as Hnd.
    destruct (record_group_shape q0 _ _ _ Hq Hrec) as (Hrel & _).
    rewrite Hrel in Hnd. simpl in Hnd. rewrite rel_of_query_empty in Hnd.
    unfold dict_keys in Hnd. simpl in Hnd. rewrite map_map in Hnd.
    apply Hnd. constructor.
  - intros Hnd Hmiss.
    destruct (record_group_accepts q0 (rows_of qid q0 df) locals0 Hq) as [L' ->].
    { simpl. by rewrite rel_of_query_empty. }
    by rewrite Hmiss.
Qed.

Lemma extract_fails_witness :
  extract Double.fe Double.float32 [] Double.queries (init Double.store0)
  = (Raise ValueError, init Double.store0)
  /\ extract Double.fe Double.float32
       [Double.judgment 1 100 1; Double.judgment 2 20 0; Double.judgment 1 100 0]
       Double.queries (init Double.store0)
     = (Raise AssertionError, init Double.store0)
  /\ extract Double.fe Double.float32 [Double.judgment 9 1 0; Double.judgment 9 2 0]
       Double.queries (init Double.store0)
     = (Raise KeyError, init Double.store0).
Proof.
  split; [|split].
  - exact (proj1 (extract_fails_before_the_first_call Double.fe Double.float32 FLUSH
                    [] Double.queries (init Double.store0)) eq_refl).
  - refine (proj1 (proj2 (extract_fails_before_the_first_call Double.fe Double.float32
                            FLUSH _ Double.queries (init Double.store0)) 1 _ _) _).
    + vm_compute. left.
    + intros t Ht. vm_compute in Ht.
      repeat (apply elem_of_cons in Ht as [->|Ht]; [vm_compute; discriminate|]).
      by apply not_elem_of_nil in Ht.
    + vm_compute. intros Hnd. apply NoDup_cons in Hnd as [Hnd _]. apply Hnd. left.
  - refine (proj2 (proj2 (extract_fails_before_the_first_call Double.fe Double.float32
                            FLUSH _ Double.queries (init Double.store0)) 9 _ _) _ _).
    + vm_compute. left.
    + intros t Ht. vm_compute in Ht.
      repeat (apply elem_of_cons in Ht as [->|Ht]; [vm_compute; discriminate|]).
      by apply not_elem_of_nil in Ht.
    + vm_compute. apply NoDup_cons. split; [|apply NoDup_singleton].
      intros Hin%list_elem_of_singleton. discriminate.
    + vm_compute. reflexivity.
Defined.

Lemma assign_features_length (float32 : float -> float) (ncols : nat) (fs fs' : list float) :
  assign_features float32 ncols fs = Ok fs' -> length fs' = ncols.
Proof.
  unfold assign_features. destruct (_ =? _)%nat eqn:Hlen.
  - intros [= <-]. rewrite length_map. by apply Nat.eqb_eq.
  - destruct fs as [|x [|]]; try done. intros [= <-]. apply length_replicate.
Qed.

Section Widths.
Context {S : Type} (fe : FeObj S) (float32 : float -> float).
(** The extractor has the same feature names after a call as before. *)
Hypothesis submit_keeps_names :
  forall args s, call_feature_names fe (snd (call_lazy_extract fe args s))
                 = call_feature_names fe s.
Hypothesis retrieve_keeps_names :
  forall q s, call_feature_names fe (snd (call_get_result fe q s))
              = call_feature_names fe s.

Lemma write_docs_width (m : gmap Z (dict Z Z)) (ncols : nat) (qid_s : string)
    (docs : list Doc) :
  forall (st st' : list OutRow * nat),
    Forall (fun r => length (o_features r) = ncols) (fst st) ->
    write_docs float32 m ncols qid_s st docs = Ok st' ->
    Forall (fun r => length (o_features r) = ncols) (fst st').
Proof.
  induction docs as [|doc docs IH]; intros st st' Hst; simpl.
  - by intros [= <-].
  - intros H. inv_run H. apply (IH _ _) in H; [done|].
    destruct st as [mat idx]. unfold write_doc in Hrun. inv_run Hrun.
    destruct (negb _); [discriminate|].
    destruct (dict_get _ _) as [r|]; [|discriminate].
    inv_run Hrun. injection Hrun as <-. simpl.
    apply Forall_insert; [done|]. simpl. by eapply assign_features_length.
Qed.

Lemma fetch_all_width (m : gmap Z (dict Z Z)) (ncols : nat) (qids : list string) :
  forall (st st' : list OutRow * nat) (s s' : S),
    Forall (fun r => length (o_features r) = ncols) (fst st) ->
    fetch_all fe float32 m ncols qids st s = (Ok st', s') ->
    Forall (fun r => length (o_features r) = ncols) (fst st')
    /\ call_feature_names fe s' = call_feature_names fe s.
Proof.
  induction qids as [|q qids IH]; intros st st' s s' Hst; simpl.
  - intros [? ?]%ret_Ok. by simplify_eq.
  - intros H. inv_run H. apply lift_Ok in Hrun0 as [Hw ->].
    apply write_docs_width in Hw; [|done].
    apply (IH _ _ _ _ Hw) in H as [H1 H2]. split; [done|].
    rewrite H2.
    match goal with
    | Hc : call_get_result fe ?q0 ?s0 = _ |- _ =>
        pose proof (retrieve_keeps_names q0 s0) as Hk; by rewrite Hc in Hk
    end.
Qed.

Lemma flush_width (L : locals) (piece : list OutRow) (s s' : S) :
  flush fe float32 L s = (Ok piece, s') ->
  Forall (fun r => length (o_features r) = length (call_feature_names fe s)) piece
  /\ call_feature_names fe s' = call_feature_names fe s.
Proof.
  unfold flush. intros H. inv_run H. destruct a0 as [mat idx]. inv_run H.
  unfold get in Hrun, Hrun1. simplify_eq.
  destruct (_ =? _)%nat; [|discriminate]. apply ret_Ok in H as [-> ->].
  apply fetch_all_width in Hrun0; [done|]. simpl.
  apply Forall_replicate. simpl. apply length_replicate.
Qed.

Lemma extract_step_width (B : Z) (queries : gmap Z Query) (L L' : locals)
    (g : Z * list InRow) (s s' : S) :
  extract_step fe float32 B queries L g s = (Ok L', s') ->
  Forall (Forall (fun r => length (o_features r) = length (call_feature_names fe s)))
    (df_pieces L) ->
  Forall (Forall (fun r => length (o_features r) = length (call_feature_names fe s)))
    (df_pieces L')
  /\ call_feature_names fe s' = call_feature_names fe s.
Proof.
  destruct g as [q grp]. unfold extract_step. intros H Hp. inv_run H.
  apply lift_Ok in Hrun as [Hrec ->]. apply lift_Ok in Hrun0 as [_ ->].
  apply lift_Ok in Hrun1 as [_ ->].
  assert (df_pieces a = df_pieces L) as Hsame.
  { clear -Hrec. revert L Hrec. induction grp as [|t grp IH]; intros L; simpl.
    - by intros [= <-].
    - intros H. inv_run H. apply IH in H. rewrite H.
      unfold record_judgment in Hrun. destruct (dict_mem _ _); [discriminate|].
      by injection Hrun as <-. }
  match goal with
  | Hc : call_lazy_extract fe ?args ?s0 = _ |- _ =>
      pose proof (submit_keeps_names args s0) as Hk; rewrite Hc in Hk; simpl in Hk
  end.
  destruct (_ =? _).
  - inv_run H. apply ret_Ok in H as [-> ->]. apply flush_width in Hrun as [H1 H2].
    simpl. rewrite H2, Hk. split; [|done]. rewrite Hsame.
    apply Forall_app. split; [done|]. constructor; [|constructor]. by rewrite <- Hk.
  - apply ret_Ok in H as [-> ->]. simpl. by rewrite Hsame.
Qed.

Lemma extract_loop_width (B : Z) (queries : gmap Z Query) (groups : list (Z * list InRow)) :
  forall (L L' : locals) (s s' : S),
    extract_loop fe float32 B queries L groups s = (Ok L', s') ->
    Forall (Forall (fun r => length (o_features r) = length (call_feature_names fe s)))
      (df_pieces L) ->
    Forall (Forall (fun r => length (o_features r) = length (call_feature_names fe s)))
      (df_pieces L')
    /\ call_feature_names fe s' = call_feature_names fe s.
Proof.
  induction groups as [|g groups IH]; intros L L' s s'; simpl.
  - intros [? ?]%ret_Ok. by simplify_eq.
  - intros H Hp. inv_run H. apply extract_step_width in Hrun as [H1 H2]; [|done].
    rewrite <- H2 in H1. apply (IH _ _ _ _ H) in H1 as [H3 H4].
    rewrite <- H2, <- H4. by rewrite H4.
Qed.

(** X7.  With an extractor whose feature names are not changed by
    submissions and retrievals (as [FeatureExtractor]'s are not), every
    row of the assembled matrix, written from a document or left at
    zero, has one float cell per feature name. *)
Theorem extract_rows_have_one_cell_per_feature
    (B : Z) (df : list InRow) (queries : gmap Z Query) (s s' : S)
    (data : list OutRow) (group : list (Z * nat)) :
  extract_with fe float32 B df queries s = (Ok (data, group), s') ->
  Forall (fun r => length (o_features r) = length (call_feature_names fe s)) data
  /\ call_feature_names fe s' = call_feature_names fe s.
Proof.
  unfold extract_with. intros H. inv_run H.
  apply lift_Ok in Hrun1 as [Hcat ?]. apply ret_Ok in H as [Hres ?].
  injection Hres as -> ->. subst.
  apply extract_loop_width in Hrun as [Hp Hn]; [|constructor].
  match goal with
  | Hr : extract_rest _ _ _ _ = (Ok ?ps, ?s2) |- _ =>
      assert (Forall (Forall (fun r => length (o_features r)
                                       = length (call_feature_names fe s))) ps
              /\ call_feature_names fe s2 = call_feature_names fe s) as [Hall Hn'];
        [unfold extract_rest in Hr|]
  end.
  { destruct (_ <? _)%nat.
    - inv_run Hrun0. apply ret_Ok in Hrun0 as [-> ->].
      apply flush_width in Hrun as [H1 H2]. rewrite H2, Hn. split; [|done].
      apply Forall_app. split; [done|]. constructor; [|constructor]. by rewrite <- Hn.
    - apply ret_Ok in Hrun0 as [-> ->]. by split. }
  split; [|done]. unfold sort_values. rewrite (stable_sort_Permutation _ _).
  match type of Hcat with pd_concat ?x = _ => destruct x as [|p0 ps]; [done|] end.
  injection Hcat as <-. change (p0 ++ concat ps) with (concat (p0 :: ps)).
  by apply Forall_concat.
Qed.
End Widths.

Lemma on_utils_keeps_names {U A : Type} (m : M U A) (self : FeatureExtractor U) :
  feature_name (snd (on_utils m self)) = feature_name self.
Proof. unfold on_utils, zoom. by destruct (m (utils self)). Qed.

Lemma double_submit_keeps_names (args : list pyval) (self : FeatureExtractor Double.store) :
  call_feature_names Double.fe (snd (call_lazy_extract Double.fe args self))
  = call_feature_names Double.fe self.
Proof.
  destruct args as [|q [|x [|toks [|ds [|]]]]]; try done. apply on_utils_keeps_names.
Qed.

Lemma double_retrieve_keeps_names (q : string) (self : FeatureExtractor Double.store) :
  call_feature_names Double.fe (snd (call_get_result Double.fe q self))
  = call_feature_names Double.fe self.
Proof. apply on_utils_keeps_names. Qed.

Lemma extract_rows_width_witness :
  exists data group s',
    extract Double.fe Double.float32 Double.judgments Double.queries
      (Double.registered [Double.bm25_default; LMDir Double.java_name 1000])
    = (Ok (data, group), s')
    /\ Forall (fun r => length (o_features r) = 2%nat) data.
Proof.
  eexists _, _, _. split; [vm_compute; reflexivity|].
  exact (proj1 (extract_rows_have_one_cell_per_feature Double.fe Double.float32
                  double_submit_keeps_names double_retrieve_keeps_names
                  FLUSH Double.judgments Double.queries
                  (Double.registered [Double.bm25_default; LMDir Double.java_name 1000])
                  _ _ _ ltac:(vm_compute; reflexivity))).
Defined.

(** ** The rank evaluator *)

Lemma first_relevant_within_skip (budget : nat) (r : Z) (rels : list Z) :
  (0 <? r) = false ->
  first_relevant_within (Datatypes.S budget) (r :: rels)
  = option_map Datatypes.S (first_relevant_within budget rels).
Proof. intros Hr. unfold first_relevant_within. simpl. by rewrite Hr. Qed.

Lemma note_tie_after (q : Z) (ties : nat) (v : float) (T : tally) :
  tally_after q ties v (note_tie q T) = tally_after q (Datatypes.S ties) v T.
Proof.
  unfold tally_after, note_tie. simpl. f_equal; [lia|].
  destruct ties; simpl; [done|].
  by rewrite <- (assoc_L (∪)), (idemp_L (∪) {[q]}).
Qed.

(** The inner loop, from any rank below the cutoff on. *)
Lemma walk_from (q : Z) (rows : list Scored) :
  forall (rk : nat) (prev : option float) (T : tally),
    rows <> [] -> (rk < 10)%nat ->
    let found := first_relevant_within (10 - rk) (rel_column rows) in
    let visited := match found with
                   | Some i => i
                   | None => Nat.min (10 - rk) (length rows)
                   end in
    walk q (rk + length rows) rows rk prev T
    = tally_after q
        (ties_from prev (map score (take visited rows)))
        (match found with Some i => reciprocal (rk + i) | None => 0%float end)
        T.
Proof.
  induction rows as [|t rest IH]; intros rk prev T Hne Hrk; [done|].
  destruct (10 - rk)%nat as [|budget] eqn:Hbudget; [lia|].
  cbn zeta. cbn [walk rel_column map length].
  destruct (0 <? o_rel (s_row t)) eqn:Hrel.
  - unfold first_relevant_within. cbn [take first_relevant]. rewrite Hrel.
    cbn [take map]. replace (rk + 1)%nat with (Datatypes.S rk) by lia.
    destruct prev as [p|]; cbn [ties_from ties_after adjacent_ties].
    + destruct (is_tie (score t) p).
      * rewrite <- note_tie_after. unfold tally_after, record_value. simpl.
        f_equal. lia.
      * unfold tally_after, record_value. simpl. f_equal. lia.
    + unfold tally_after, record_value. simpl. f_equal. lia.
  - rewrite first_relevant_within_skip by done.
    fold (rel_column rest).
    destruct ((Datatypes.S rk =? 10)%nat || (Datatypes.S rk =? rk + Datatypes.S (length rest))%nat)
      eqn:Hstop.
    + assert (budget = 0%nat \/ rest = []) as Hcase.
      { apply orb_true_iff in Hstop as [H%Nat.eqb_eq|H%Nat.eqb_eq]; [left; lia|].
        right. destruct rest; [done | simpl in H; lia]. }
      assert (first_relevant_within budget (rel_column rest) = None) as ->.
      { unfold first_relevant_within. destruct Hcase as [->| ->]; [done|].
        by destruct budget. }
      cbn [option_map].
      assert (take (Nat.min (Datatypes.S budget) (Datatypes.S (length rest))) (t :: rest)
              = [t]) as ->.
      { destruct Hcase as [->| ->]; [by rewrite ?take_0 | apply take_ge; simpl; lia]. }
      cbn [map].
      destruct prev as [p|]; cbn [ties_from ties_after adjacent_ties].
      * destruct (is_tie (score t) p).
        -- rewrite <- note_tie_after. unfold tally_after, record_value. simpl.
           f_equal. lia.
        -- unfold tally_after, record_value. simpl. f_equal. lia.
      * unfold tally_after, record_value. simpl. f_equal. lia.
    + apply orb_false_iff in Hstop as [H10%Nat.eqb_neq Hlen%Nat.eqb_neq].
      assert (rest <> []) as Hrest by (intros ->; simpl in Hlen; lia).
      replace (rk + Datatypes.S (length rest))%nat
        with (Datatypes.S rk + length rest)%nat by lia.
      rewrite IH by (done || lia).
      replace (10 - Datatypes.S rk)%nat with budget by lia.
      destruct (first_relevant_within budget (rel_column rest)) as [i|] eqn:Hfound;
        cbn [option_map].
      * replace (Datatypes.S rk + i)%nat with (rk + Datatypes.S i)%nat by lia.
        cbn [take map ties_from].
        destruct prev as [p|]; cbn [ties_from ties_after adjacent_ties].
        -- destruct (is_tie (score t) p); [|done].
           rewrite note_tie_after. done.
        -- done.
      * replace (Nat.min (Datatypes.S budget) (Datatypes.S (length rest)))
          with (Datatypes.S (Nat.min budget (length rest))) by lia.
        cbn [take map ties_from].
        destruct prev as [p|]; cbn [ties_from ties_after adjacent_ties].
        -- destruct (is_tie (score t) p); [|done].
           rewrite note_tie_after. done.
        -- done.
Qed.

Lemma sort_values_desc_Permutation {R : Type} (col : R -> float) (rows : list R) :
  sort_values_desc col rows ≡ₚ rows.
Proof.
  unfold sort_values_desc.
  etransitivity; [apply Permutation_app_tail; symmetry; apply Permutation_rev|].
  etransitivity; [apply Permutation_app_tail, stable_sort_Permutation|].
  etransitivity; [apply Permutation_app_tail; symmetry; apply Permutation_rev|].
  induction rows as [|x rows IH]; [done|].
  rewrite !filter_cons. repeat case_decide.
  - destruct (PrimFloat.is_nan (col x)); done.
  - simpl. by rewrite IH.
  - rewrite <- Permutation_middle. by rewrite IH.
  - destruct (PrimFloat.is_nan (col x)); done.
Qed.

Lemma ranked_length (grp : list Scored) : length (ranked grp) = length grp.
Proof. apply Permutation_length, sort_values_desc_Permutation. Qed.

(** The inner loop on a whole group. *)
Lemma walk_group (q : Z) (grp : list Scored) (T : tally) :
  grp <> [] ->
  walk q (length grp) (ranked grp) 0 None T
  = tally_after q (group_ties grp) (reciprocal_rank (rel_column (ranked grp))) T.
Proof.
  intros Hne.
  assert (ranked grp <> []) as Hne'.
  { intros H. apply (f_equal length) in H. rewrite ranked_length in H.
    destruct grp; [done | discriminate]. }
  pose proof (walk_from q (ranked grp) 0 None T Hne' ltac:(lia)) as H.
  cbn zeta in H. rewrite ranked_length in H.
  cbn [Nat.add Nat.sub ties_from] in H. rewrite H.
  unfold group_ties, scanned, scan_length, reciprocal_rank, first_relevant_within.
  unfold rel_column. by rewrite length_map, ranked_length.
Qed.

Lemma eval_groups_effect (groups : list (Z * list Scored)) (T T' : tally) :
  Forall (fun g => snd g <> []) groups ->
  eval_groups T groups = Ok T' ->
  T' = foldl group_effect T groups.
Proof.
  intros Hne. revert T. induction Hne as [|[q grp] groups Hg Hgs IH]; intros T; simpl.
  - by intros [= <-].
  - intros H. inv_run H. apply IH in H as ->. f_equal.
    unfold eval_group in Hrun. case_bool_decide; [|discriminate].
    injection Hrun as <-. by apply walk_group.
Qed.

Lemma foldl_group_effect_MRR (groups : list (Z * list Scored)) (T : tally) :
  MRR (foldl group_effect T groups)
  = MRR T ++ map (fun g => reciprocal_rank (rel_column (ranked (snd g)))) groups.
Proof.
  revert T. induction groups as [|g groups IH]; intros T; simpl.
  - by rewrite app_nil_r.
  - rewrite IH. simpl. by rewrite <- app_assoc.
Qed.

Lemma foldl_group_effect_counter (groups : list (Z * list Scored)) (T : tally) :
  score_tie_counter (foldl group_effect T groups)
  = (score_tie_counter T + sum_list (map (fun g => group_ties (snd g)) groups))%nat.
Proof.
  revert T. induction groups as [|g groups IH]; intros T; simpl; [lia|].
  rewrite IH. simpl. lia.
Qed.

Lemma foldl_group_effect_query (groups : list (Z * list Scored)) (T : tally) :
  score_tie_query (foldl group_effect T groups)
  = score_tie_query T
    ∪ list_to_set (map fst (filter (fun g => group_ties (snd g) <> 0%nat) groups)).
Proof.
  revert T. induction groups as [|g groups IH]; intros T; simpl.
  - by rewrite (right_id_L ∅ (∪)).
  - rewrite IH, filter_cons. unfold group_effect at 1, tally_after.
    cbn [score_tie_query]. case_decide as Hties.
    + apply Nat.eqb_neq in Hties. rewrite Hties. simpl.
      by rewrite (assoc_L (∪)).
    + assert (group_ties (snd g) = 0%nat) as -> by lia. done.
Qed.

Lemma first_relevant_none (rels : list Z) :
  Forall (fun r => r <= 0) rels -> first_relevant rels = None.
Proof.
  induction 1 as [|r rels Hr _ IH]; simpl; [done|].
  destruct (0 <? r) eqn:E; [lia|]. by rewrite IH.
Qed.

Lemma first_relevant_at (rels : list Z) (k : nat) (r : Z) :
  Forall (fun r => r <= 0) (take k rels) -> rels !! k = Some r -> 0 < r ->
  first_relevant rels = Some (Datatypes.S k).
Proof.
  revert rels. induction k as [|k IH]; intros [|r0 rels]; simpl; try done.
  - intros _ [= ->] Hr. destruct (0 <? r) eqn:E; [done | lia].
  - intros Hall Hk Hr. apply Forall_cons in Hall as [Hr0 Hall].
    destruct (0 <? r0) eqn:E; [lia|]. by rewrite (IH _ Hall Hk Hr).
Qed.

Lemma reciprocal_rank_at (rels : list Z) (k : nat) (r : Z) :
  (k < 10)%nat -> Forall (fun r => r <= 0) (take k rels) ->
  rels !! k = Some r -> 0 < r ->
  reciprocal_rank rels = reciprocal (Datatypes.S k).
Proof.
  intros Hk Hall Hr Hpos. unfold reciprocal_rank.
  rewrite (first_relevant_at (take 10 rels) k r); [done| | |done].
  - rewrite take_take. by replace (Nat.min k 10) with k by lia.
  - by rewrite lookup_take_lt.
Qed.

Lemma reciprocal_rank_none (rels : list Z) :
  Forall (fun r => r <= 0) (take 10 rels) -> reciprocal_rank rels = 0%float.
Proof. intros H. unfold reciprocal_rank. by rewrite first_relevant_none. Qed.

(** The general form of [walk_group], for any ranked rows. *)
Lemma walk_rows (q : Z) (rows : list Scored) (T : tally) :
  rows <> [] ->
  walk q (length rows) rows 0 None T
  = tally_after q
      (adjacent_ties (map score (take (scan_length (rel_column rows)) rows)))
      (reciprocal_rank (rel_column rows)) T.
Proof.
  intros Hne. pose proof (walk_from q rows 0 None T Hne ltac:(lia)) as H.
  cbn zeta in H. cbn [Nat.add Nat.sub ties_from] in H. rewrite H.
  unfold scan_length, reciprocal_rank, first_relevant_within, rel_column.
  by rewrite length_map.
Qed.

Lemma first_relevant_bound (rels : list Z) (i : nat) :
  first_relevant rels = Some i -> (1 <= i <= length rels)%nat.
Proof.
  revert i. induction rels as [|r rels IH]; intros i; simpl; [done|].
  destruct (0 <? r); [intros [= <-]; lia|].
  destruct (first_relevant rels) as [j|]; [|done].
  intros [= <-]. specialize (IH j eq_refl). lia.
Qed.

Lemma first_relevant_take (rels : list Z) (i : nat) :
  first_relevant rels = Some i -> first_relevant (take i rels) = Some i.
Proof.
  revert i. induction rels as [|r rels IH]; intros i; simpl; [done|].
  destruct (0 <? r) eqn:Hr; [intros [= <-]; simpl; by rewrite Hr|].
  destruct (first_relevant rels) as [j|] eqn:Hj; [|done].
  intros [= <-]. simpl. by rewrite Hr, (IH j eq_refl).
Qed.

Lemma scan_length_bound (rels : list Z) :
  rels <> [] -> (1 <= scan_length rels <= Nat.min 10 (length rels))%nat.
Proof.
  intros Hne. unfold scan_length.
  destruct (first_relevant (take 10 rels)) as [i|] eqn:Hi.
  - apply first_relevant_bound in Hi. rewrite length_take in Hi. lia.
  - destruct rels; [done | simpl; lia].
Qed.

(** Cutting the ranked rows after the scanned ones changes neither what
    is found nor how far the scan goes. *)
Lemma scan_prefix (rels : list Z) :
  first_relevant (take 10 (take (scan_length rels) rels)) = first_relevant (take 10 rels)
  /\ scan_length (take (scan_length rels) rels) = scan_length rels.
Proof.
  unfold scan_length.
  destruct (first_relevant (take 10 rels)) as [i|] eqn:Hi.
  - pose proof (first_relevant_bound _ _ Hi) as Hb. rewrite length_take in Hb.
    apply first_relevant_take in Hi. rewrite take_take in Hi.
    rewrite take_take. replace (Nat.min 10 i) with (Nat.min i 10) by lia.
    by rewrite Hi.
  - rewrite take_take.
    replace (Nat.min 10 (Nat.min 10 (length rels))) with (Nat.min 10 (length rels)) by lia.
    assert (take (Nat.min 10 (length rels)) rels = take 10 rels) as ->.
    { destruct (decide (10 <= length rels)%nat).
      - by replace (Nat.min 10 (length rels)) with 10%nat by lia.
      - replace (Nat.min 10 (length rels)) with (length rels) by lia.
        rewrite firstn_all. symmetry. apply take_ge. lia. }
    rewrite Hi. rewrite length_take. split; [done | lia].
Qed.

Lemma walk_MRR_independent (q : Z) (len_group : nat) (rows : list Scored) :
  forall (rk : nat) (prev prev' : option float) (T T' : tally),
    MRR T = MRR T' ->
    MRR (walk q len_group rows rk prev T) = MRR (walk q len_group rows rk prev' T').
Proof.
  induction rows as [|t rest IH]; intros rk prev prev' T T' HT; simpl; [done|].
  set (T1 := match prev with
             | Some p => if is_tie (score t) p then note_tie q T else T
             | None => T
             end).
  set (T1' := match prev' with
              | Some p => if is_tie (score t) p then note_tie q T' else T'
              | None => T'
              end).
  assert (MRR T1 = MRR T1') as H1.
  { unfold T1, T1'. destruct prev as [p|], prev' as [p'|];
      repeat (match goal with |- context [is_tie ?a ?b] => destruct (is_tie a b) end);
      simpl; done. }
  destruct (0 <? o_rel (s_row t)); [simpl; by rewrite H1|].
  destruct (_ || _); [simpl; by rewrite H1|].
  by apply IH.
Qed.

Lemma size_qid_set (ks : list Z) :
  size (list_to_set ks : gset Z) = length (unique_sorted ks).
Proof.
  rewrite <- (size_list_to_set (C := gset Z) (unique_sorted ks))
    by apply unique_sorted_NoDup.
  f_equal. apply set_eq. intros k.
  by rewrite !elem_of_list_to_set, unique_sorted_elem.
Qed.

Lemma eval_mrr_loop_effect (dev_data : list Scored) (T : tally) :
  eval_mrr_loop dev_data = Ok T ->
  T = foldl group_effect tally0 (groupby (fun t => o_qid (s_row t)) dev_data).
Proof.
  unfold eval_mrr_loop. apply eval_groups_effect, groupby_nonempty.
Qed.

(** C1.  When [eval_mrr] returns, the list of per-query values holds,
    for every query group in order, the reciprocal rank at cutoff 10 of
    the group's relevances taken in stable descending-score order, and
    [mrr_10] is [np.mean] of that list.  The reciprocal rank is
    [1.0/rank] of the first row with relevance above 0 when that rank is
    at most 10, and 0 when the first 10 rows (or all of them, for a
    shorter group) have none; so [0,0,1,0] gives 1/3 and an
    all-irrelevant group gives 0. *)
Theorem eval_mrr_records_reciprocal_rank
    (np_mean : list float -> float) (dev_data : list Scored) (res : MrrResult) :
  eval_mrr np_mean dev_data = Ok res ->
  (exists T : tally,
      eval_mrr_loop dev_data = Ok T
      /\ MRR T = map (fun g => reciprocal_rank (rel_column (ranked (snd g))))
                   (groupby (fun t => o_qid (s_row t)) dev_data)
      /\ mrr_10 res = np_mean (MRR T))
  /\ (forall (rels : list Z) (k : nat) (r : Z),
        (k < 10)%nat -> Forall (fun r => r <= 0) (take k rels) ->
        rels !! k = Some r -> 0 < r ->
        reciprocal_rank rels = reciprocal (Datatypes.S k))
  /\ (forall rels : list Z,
        Forall (fun r => r <= 0) (take 10 rels) -> reciprocal_rank rels = 0%float)
  /\ reciprocal_rank [0; 0; 1; 0] = (1 / 3)%float
  /\ (forall rels : list Z,
        (10 <= length rels)%nat -> Forall (fun r => r <= 0) rels ->
        reciprocal_rank rels = 0%float).
Proof.
  intros H. unfold eval_mrr in H. inv_run H. injection H as <-. simpl.
  split.
  { exists a. split; [done|]. split; [|done].
    apply eval_mrr_loop_effect in Hrun. subst a.
    by rewrite foldl_group_effect_MRR. }
  split; [apply reciprocal_rank_at|].
  split; [apply reciprocal_rank_none|].
  split; [reflexivity|].
  intros rels _ Hall. by apply reciprocal_rank_none, Forall_take.
Qed.

Lemma eval_mrr_records_witness :
  exists res,
    eval_mrr Double.np_mean Double.dev_scored = Ok res
    /\ exists T : tally,
        eval_mrr_loop Double.dev_scored = Ok T
        /\ MRR T = [(1 / 3)%float; 0%float; 1%float]
        /\ mrr_10 res = Double.np_mean (MRR T).
Proof.
  eexists. split; [vm_compute; reflexivity|].
  pose proof (eval_mrr_records_reciprocal_rank Double.np_mean Double.dev_scored) as H.
  specialize (H _ ltac:(vm_compute; reflexivity)).
  destruct H as ((T & HT & HM & Hmean) & _).
  exists T. split; [exact HT|]. split; [|exact Hmean].
  rewrite HM. vm_compute. reflexivity.
Defined.

(** C5.  When the loop of [eval_mrr] is left, the tie counter is the
    number, summed over the query groups, of scanned rows whose score is
    within 1e-8 of the score of the row ranked just before; the
    tie-query set holds exactly the query ids of the groups with such a
    pair, each once, so its size is the number of those groups; and the
    list of per-query values is a function of the ranked relevances
    alone: the scan records the same value whatever the counter, the set
    and the remembered score are. *)
Theorem eval_mrr_counts_ties_of_scanned_rows (dev_data : list Scored) (T : tally) :
  eval_mrr_loop dev_data = Ok T ->
  let groups := groupby (fun t => o_qid (s_row t)) dev_data in
  score_tie_counter T
  = sum_list (map (fun g => adjacent_ties (map score (scanned (snd g)))) groups)
  /\ score_tie_query T
     = list_to_set (map fst (filter (fun g => group_ties (snd g) <> 0%nat) groups))
  /\ size (score_tie_query T)
     = length (filter (fun g => group_ties (snd g) <> 0%nat) groups)
  /\ MRR T = map (fun g => reciprocal_rank (rel_column (ranked (snd g)))) groups
  /\ (forall q len_group rows rk prev prev' T1 T2,
        MRR T1 = MRR T2 ->
        MRR (walk q len_group rows rk prev T1) = MRR (walk q len_group rows rk prev' T2)).
Proof.
  intros H groups. apply eval_mrr_loop_effect in H. fold groups in H. subst T.
  split; [by rewrite foldl_group_effect_counter|].
  assert (score_tie_query (foldl group_effect tally0 groups)
          = list_to_set (map fst (filter (fun g => group_ties (snd g) <> 0%nat) groups)))
    as Hset.
  { rewrite foldl_group_effect_query. simpl. by rewrite (left_id_L ∅ (∪)). }
  split; [exact Hset|]. split.
  { rewrite Hset, size_list_to_set, length_map; [done|].
    assert (NoDup (map fst groups)) as Hnd.
    { unfold groups, groupby. rewrite map_map. simpl. rewrite map_id.
      apply unique_sorted_NoDup. }
    clear -Hnd. induction groups as [|g gs IH]; [constructor|].
    simpl in Hnd. apply NoDup_cons in Hnd as [Hg Hgs].
    rewrite filter_cons. case_decide; [|by apply IH].
    simpl. apply NoDup_cons. split; [|by apply IH].
    intros Hin. apply Hg. apply list_elem_of_fmap in Hin as (g' & -> & Hg').
    apply list_elem_of_filter in Hg' as [_ Hg'].
    apply list_elem_of_fmap. by exists g'. }
  split; [by rewrite foldl_group_effect_MRR|].
  intros. by apply walk_MRR_independent.
Qed.

Lemma eval_mrr_counts_witness :
  exists T : tally,
    eval_mrr_loop Double.dev_scored = Ok T
    /\ score_tie_counter T = 3%nat
    /\ score_tie_query T = {[1; 2]}
    /\ size (score_tie_query T) = 2%nat.
Proof.
  eexists. split; [vm_compute; reflexivity|].
  pose proof (eval_mrr_counts_ties_of_scanned_rows Double.dev_scored) as H.
  specialize (H _ ltac:(vm_compute; reflexivity)).
  destruct H as (Hc & Hq & Hs & _).
  split; [rewrite Hc; vm_compute; reflexivity|].
  split; [rewrite Hq; vm_compute; reflexivity|].
  rewrite Hs. vm_compute. reflexivity.
Defined.

(** C10.  The scan of a group is the scan of the group cut after the
    row at which its value is recorded (the first relevant row within
    the top 10, else the 10th, else the last): the rows ranked after it,
    and any ties among them, have no part in the counter, the set or the
    value.  Every scan of a non-empty group records exactly one value,
    so when the loop of [eval_mrr] is left the list that [np.mean]
    averages has one entry per distinct query id of the frame. *)
Theorem eval_mrr_scan_stops_at_recorded_value (dev_data : list Scored) (T : tally) :
  eval_mrr_loop dev_data = Ok T ->
  (forall (q : Z) (rows : list Scored) (T0 : tally),
      rows <> [] ->
      let k := scan_length (rel_column rows) in
      (1 <= k <= Nat.min 10 (length rows))%nat
      /\ walk q (length rows) rows 0 None T0 = walk q k (take k rows) 0 None T0
      /\ length (MRR (walk q (length rows) rows 0 None T0))
         = Datatypes.S (length (MRR T0)))
  /\ length (MRR T)
     = size (list_to_set (map (fun t => o_qid (s_row t)) dev_data) : gset Z).
Proof.
  intros H. split.
  - intros q rows T0 Hne k.
    assert (1 <= k <= Nat.min 10 (length rows))%nat as Hk.
    { unfold k. pose proof (scan_length_bound (rel_column rows)) as Hb.
      unfold rel_column in *. rewrite length_map in Hb. apply Hb.
      by destruct rows. }
    split; [exact Hk|]. split.
    + assert (take k rows <> []) as Hne'.
      { destruct rows; [done|]. destruct k; [lia | done]. }
      assert (length (take k rows) = k) as Hlen by (rewrite length_take; lia).
      rewrite <- Hlen at 1. rewrite !walk_rows by done.
      assert (rel_column (take k rows) = take k (rel_column rows)) as ->.
      { unfold rel_column. by rewrite <- fmap_take. }
      destruct (scan_prefix (rel_column rows)) as [Hfound Hscan].
      fold k in Hfound, Hscan. rewrite Hscan.
      unfold reciprocal_rank. rewrite Hfound. by rewrite take_idemp.
    + rewrite walk_rows by done. simpl. rewrite length_app. simpl. lia.
  - apply eval_mrr_loop_effect in H. subst T.
    rewrite foldl_group_effect_MRR, size_qid_set. simpl.
    rewrite length_map. unfold groupby. by rewrite length_map.
Qed.

Lemma eval_mrr_scan_witness :
  exists T : tally,
    eval_mrr_loop Double.dev_scored = Ok T
    /\ length (MRR T) = 3%nat
    /\ walk 3 3 [Double.scored 3 30 1 0.75; Double.scored 3 31 0 0.125;
                 Double.scored 3 32 0 0.125]%float 0 None tally0
       = walk 3 1 [Double.scored 3 30 1 0.75]%float 0 None tally0.
Proof.
  eexists. split; [vm_compute; reflexivity|].
  pose proof (eval_mrr_scan_stops_at_recorded_value Double.dev_scored) as H.
  specialize (H _ ltac:(vm_compute; reflexivity)).
  destruct H as (Hscan & Hlen).
  split; [rewrite Hlen; vm_compute; reflexivity|].
  exact (proj1 (proj2 (Hscan 3
    [Double.scored 3 30 1 0.75; Double.scored 3 31 0 0.125;
     Double.scored 3 32 0 0.125]%float tally0 ltac:(discriminate)))).
Defined.

Lemma filter_none {A : Type} (P : A -> Prop) `{forall x, Decision (P x)} (l : list A) :
  Forall (fun x => ~ P x) l -> filter P l = [].
Proof.
  induction 1 as [|x l Hx _ IH]; [done|]. by rewrite filter_cons, decide_False.
Qed.

Lemma filter_ext_elem {A : Type} (P Q : A -> Prop) `{forall x, Decision (P x)}
    `{forall x, Decision (Q x)} (l : list A) :
  Forall (fun x => P x <-> Q x) l -> filter P l = filter Q l.
Proof.
  induction 1 as [|x l Hx _ IH]; [done|].
  rewrite !filter_cons, IH. destruct (decide (P x)), (decide (Q x)); tauto.
Qed.

(** ** The order of binary64 scores *)

Lemma SFcompare_antisym (x y : spec_float) :
  SFcompare y x = option_map CompOpp (SFcompare x y).
Proof.
  destruct x as [sx|sx| |sx mx ex], y as [sy|sy| |sy my ey]; simpl; try done;
    try (by destruct sx); try (by destruct sy); try (by destruct sx, sy).
  change (PosDef.Pos.compare_cont Eq mx my) with (Pos.compare mx my).
  change (PosDef.Pos.compare_cont Eq my mx) with (Pos.compare my mx).
  rewrite (Z.compare_antisym ex ey), (Pos.compare_antisym mx my).
  destruct sx, sy; simpl; try done;
    destruct (ex ?= ey); simpl; try done; by destruct (mx ?= my)%positive.
Qed.

Lemma SFleb_trans (x y z : spec_float) :
  SFleb x y = true -> SFleb y z = true -> SFleb x z = true.
Proof.
  unfold SFleb.
  destruct x as [sx|sx| |sx mx ex], y as [sy|sy| |sy my ey], z as [sz|sz| |sz mz ez];
    simpl; try done;
    try (by destruct sx); try (by destruct sy); try (by destruct sz);
    try (by destruct sx, sy); try (by destruct sx, sz); try (by destruct sy, sz);
    try (by destruct sx, sy, sz).
  change (PosDef.Pos.compare_cont Eq mx my) with (Pos.compare mx my).
  change (PosDef.Pos.compare_cont Eq my mz) with (Pos.compare my mz).
  change (PosDef.Pos.compare_cont Eq mx mz) with (Pos.compare mx mz).
  destruct sx, sy, sz; simpl; try done;
    destruct (Z.compare_spec ex ey), (Z.compare_spec ey ez), (Z.compare_spec ex ez);
    simpl; try done; try lia;
    destruct (Pos.compare_spec mx my), (Pos.compare_spec my mz),
      (Pos.compare_spec mx mz); simpl; try done; lia.
Qed.

Lemma is_nan_compare (x : float) :
  PrimFloat.is_nan x = false -> forall y, PrimFloat.is_nan y = false ->
  exists c, SFcompare (Prim2SF x) (Prim2SF y) = Some c.
Proof.
  unfold PrimFloat.is_nan. intros Hx y Hy.
  rewrite FloatAxioms.eqb_spec in Hx, Hy. unfold SFeqb in Hx, Hy.
  destruct (Prim2SF x) as [sx|sx| |sx mx ex], (Prim2SF y) as [sy|sy| |sy my ey];
    simpl in *; try done; by eexists.
Qed.

(** On scores that are numbers, [<=] is total and transitive, and
    scores that are equal to the same score are [<=] each other. *)
Lemma float_leb_total (x y : float) :
  PrimFloat.is_nan x = false -> PrimFloat.is_nan y = false ->
  PrimFloat.leb x y = false -> PrimFloat.leb y x = true.
Proof.
  intros Hx Hy. rewrite !FloatAxioms.leb_spec. unfold SFleb.
  destruct (is_nan_compare x Hx y Hy) as [c Hc].
  rewrite (SFcompare_antisym (Prim2SF x) (Prim2SF y)), Hc. by destruct c.
Qed.

Lemma float_leb_trans (x y z : float) :
  PrimFloat.leb x y = true -> PrimFloat.leb y z = true -> PrimFloat.leb x z = true.
Proof. rewrite !FloatAxioms.leb_spec. apply SFleb_trans. Qed.

Lemma float_eqb_leb (x y : float) :
  PrimFloat.eqb x y = true -> PrimFloat.leb x y = true /\ PrimFloat.leb y x = true.
Proof.
  rewrite FloatAxioms.eqb_spec, !FloatAxioms.leb_spec. unfold SFeqb, SFleb.
  rewrite (SFcompare_antisym (Prim2SF x) (Prim2SF y)).
  by destruct (SFcompare (Prim2SF x) (Prim2SF y)) as [[]|].
Qed.

Lemma SFcompare_refl (x : spec_float) :
  x <> S754_nan -> SFcompare x x = Some Eq.
Proof.
  destruct x as [sx|sx| |sx mx ex]; simpl; try done; try (by destruct sx).
  change (PosDef.Pos.compare_cont Eq mx mx) with (Pos.compare mx mx).
  rewrite Z.compare_refl, Pos.compare_refl. by destruct sx.
Qed.

Lemma float_eqb_not_nan (x y : float) :
  PrimFloat.eqb x y = true -> PrimFloat.is_nan x = false.
Proof.
  unfold PrimFloat.is_nan. rewrite !FloatAxioms.eqb_spec. unfold SFeqb. intros H.
  rewrite SFcompare_refl; [done|]. intros Hnan. by rewrite Hnan in H.
Qed.

Section SortOn.
Context {A : Type} (leb : A -> A -> bool) (P : A -> Prop).
Hypothesis leb_total_on : forall a b, P a -> P b -> leb a b = false -> leb b a = true.

Lemma insert_sorted_Sorted_on (x : A) (l : list A) :
  P x -> Forall P l ->
  Sorted (fun a b => leb a b = true) l ->
  Sorted (fun a b => leb a b = true) (insert_sorted leb x l).
Proof.
  intros Hx Hl. induction 1 as [|y l Hs IH Hhd]; simpl.
  - repeat constructor.
  - apply Forall_cons in Hl as [Hy Hl]. destruct (leb x y) eqn:E.
    + constructor; [by constructor|]. by constructor.
    + constructor; [by apply IH|].
      destruct Hhd as [|z l' Hz]; simpl.
      * constructor. by apply leb_total_on.
      * destruct (leb x z); constructor; [by apply leb_total_on | done].
Qed.

Lemma stable_sort_Sorted_on (l : list A) :
  Forall P l -> Sorted (fun a b => leb a b = true) (stable_sort leb l).
Proof.
  induction 1 as [|x l Hx Hl IH]; simpl; [constructor|].
  apply insert_sorted_Sorted_on; [done| |done].
  by rewrite (stable_sort_Permutation leb l).
Qed.
End SortOn.

Section StableFilter.
Context {A : Type} (leb : A -> A -> bool) (Q : A -> Prop) `{forall x, Decision (Q x)}.
(** Elements that satisfy [Q] are [<=] each other. *)
Hypothesis Q_tied : forall a b, Q a -> Q b -> leb a b = true.

Lemma filter_insert_sorted (x : A) (l : list A) :
  filter Q (insert_sorted leb x l) = filter Q (x :: l).
Proof.
  induction l as [|y l IH]; simpl; [done|].
  destruct (leb x y) eqn:E; [done|].
  rewrite (filter_cons _ y), IH, !filter_cons.
  destruct (decide (Q x)) as [Hx|Hx], (decide (Q y)) as [Hy|Hy]; try done.
  rewrite (Q_tied x y Hx Hy) in E. done.
Qed.

(** A stable sort keeps the elements that tie in their order. *)
Lemma filter_stable_sort (l : list A) : filter Q (stable_sort leb l) = filter Q l.
Proof.
  induction l as [|x l IH]; simpl; [done|].
  by rewrite filter_insert_sorted, !filter_cons, IH.
Qed.
End StableFilter.

Lemma filter_rev {A : Type} (Q : A -> Prop) `{forall x, Decision (Q x)} (l : list A) :
  filter Q (rev l) = rev (filter Q l).
Proof.
  induction l as [|x l IH]; simpl; [done|].
  rewrite filter_app, IH, !filter_cons, filter_nil. case_decide; simpl; [done|].
  by rewrite app_nil_r.
Qed.

Lemma StronglySorted_rev {A : Type} (R : A -> A -> Prop) (l : list A) :
  StronglySorted R l -> StronglySorted (fun a b => R b a) (rev l).
Proof.
  induction 1 as [|x l Hl IH Hx]; simpl; [constructor|].
  apply StronglySorted_app_2; [|done|repeat constructor].
  intros a b Ha%list_elem_of_In%in_rev%list_elem_of_In ->%list_elem_of_singleton.
  rewrite Forall_forall in Hx. by apply Hx.
Qed.

(** X18.  The order in which [eval_mrr] walks a group
    ([sort_values('score', ascending=False, kind='mergesort')]): the
    rows whose score is a number come first, in descending order of
    score; the rows whose score is NaN follow in frame order; and rows
    with equal scores keep the order they have in the frame. *)
Theorem ranking_is_descending_and_stable (grp : list Scored) :
  exists nums : list Scored,
    ranked grp = nums ++ filter (fun t => PrimFloat.is_nan (score t) = true) grp
    /\ nums ≡ₚ filter (fun t => PrimFloat.is_nan (score t) = false) grp
    /\ StronglySorted (fun a b => PrimFloat.leb (score b) (score a) = true) nums
    /\ forall x : float,
         filter (fun t => PrimFloat.eqb (score t) x = true) (ranked grp)
         = filter (fun t => PrimFloat.eqb (score t) x = true) grp.
Proof.
  unfold ranked, sort_values_desc.
  set (non_nans := filter (fun r : Scored => negb (PrimFloat.is_nan (score r)) = true) grp).
  set (nans := filter (fun r : Scored => PrimFloat.is_nan (score r) = true) grp).
  set (leb := fun a b : Scored => PrimFloat.leb (score a) (score b)).
  assert (Forall (fun t => PrimFloat.is_nan (score t) = false) non_nans) as Hnn.
  { apply Forall_forall. intros t [Ht _]%list_elem_of_filter.
    by apply negb_true_iff in Ht. }
  assert (Transitive (fun a b : Scored => leb a b = true)) as Htrans.
  { intros a b c. apply float_leb_trans. }
  exists (rev (stable_sort leb (rev non_nans))). split; [done|]. split; [|split].
  - rewrite <- Permutation_rev, (stable_sort_Permutation _ _), <- Permutation_rev.
    unfold non_nans. apply eq_subrelation; [apply _|].
    apply filter_ext_elem, Forall_forall. intros t _. by rewrite negb_true_iff.
  - apply (StronglySorted_rev (fun a b => leb a b = true)).
    apply Sorted_StronglySorted; [done|].
    apply (stable_sort_Sorted_on leb (fun t => PrimFloat.is_nan (score t) = false)).
    + intros a b Ha Hb. by apply float_leb_total.
    + apply Forall_forall. intros t Ht%list_elem_of_In%in_rev%list_elem_of_In.
      rewrite Forall_forall in Hnn. by apply Hnn.
  - intros x. rewrite filter_app, filter_rev.
    rewrite (filter_stable_sort leb (fun t => PrimFloat.eqb (score t) x = true)).
    2:{ intros a b Ha Hb. unfold leb.
        apply float_eqb_leb in Ha as [Ha _]. apply float_eqb_leb in Hb as [_ Hb].
        by eapply float_leb_trans. }
    rewrite filter_rev, rev_involutive.
    assert (filter (fun t => PrimFloat.eqb (score t) x = true) nans = []) as ->.
    { apply filter_none, Forall_forall. intros t [Ht _]%list_elem_of_filter Hx.
      apply float_eqb_not_nan in Hx. congruence. }
    rewrite app_nil_r. unfold non_nans. rewrite list_filter_filter.
    apply filter_ext_elem, Forall_forall. intros t _. split; [by intros [? _]|].
    intros Hx. split; [done|]. apply float_eqb_not_nan in Hx. by rewrite Hx.
Qed.

(** ** The evaluator: when it returns and what it reads *)

Lemma size_list_to_set_le (l : list Z) : (size (list_to_set l : gset Z) <= length l)%nat.
Proof.
  induction l as [|x l IH]; [by vm_compute|].
  rewrite list_to_set_cons. simpl.
  destruct (decide (x ∈ (list_to_set l : gset Z))) as [Hin|Hin].
  - rewrite (subseteq_union_1_L (C := gset Z) {[x]} (list_to_set l)) by set_solver. lia.
  - rewrite size_union by set_solver. rewrite size_singleton. lia.
Qed.

(** The test [len(l) == len(set(l))] of [eval_mrr]. *)
Lemma length_size_NoDup (l : list Z) :
  length l = size (list_to_set l : gset Z) <-> NoDup l.
Proof.
  split; [|intros H; by rewrite size_list_to_set].
  induction l as [|x l IH]; [constructor|]. rewrite list_to_set_cons. simpl. intros H.
  pose proof (size_list_to_set_le l) as Hle.
  destruct (decide (x ∈ (list_to_set l : gset Z))) as [Hin|Hin].
  - rewrite (subseteq_union_1_L (C := gset Z) {[x]} (list_to_set l)) in H by set_solver. lia.
  - rewrite size_union, size_singleton in H by set_solver.
    apply NoDup_cons. split; [by rewrite elem_of_list_to_set in Hin|].
    apply IH. lia.
Qed.

Lemma eval_groups_outcome (groups : list (Z * list Scored)) :
  forall T : tally,
    (Forall (fun g => NoDup (map (fun t => o_pid (s_row t)) (snd g))) groups ->
     exists T', eval_groups T groups = Ok T')
    /\ (~ Forall (fun g => NoDup (map (fun t => o_pid (s_row t)) (snd g))) groups ->
        eval_groups T groups = Raise AssertionError).
Proof.
  induction groups as [|[q grp] groups IH]; intros T; simpl.
  - split; [by eexists|]. intros H. exfalso. apply H. constructor.
  - destruct (bool_decide _) eqn:Hb; simpl.
    + apply bool_decide_eq_true, length_size_NoDup in Hb.
      destruct (IH (walk q (length grp) (sort_values_desc score grp) 0 None T))
        as [IH1 IH2].
      split.
      * intros [_ H]%Forall_cons. by apply IH1.
      * intros H. apply IH2. intros Hall. apply H. by constructor.
    + apply bool_decide_eq_false in Hb. rewrite length_size_NoDup in Hb.
      split; [|done]. intros [H _]%Forall_cons. done.
Qed.

Lemma groups_NoDup_rows {R : Type} (key : R -> Z) (f : R -> Z) (l : list R) :
  Forall (fun g => NoDup (map f (snd g))) (groupby key l)
  <-> forall k, NoDup (map f (rows_of key k l)).
Proof.
  rewrite Forall_forall. split.
  - intros H k. destruct (decide (k ∈ map key l)) as [Hk|Hk].
    + apply (H (k, rows_of key k l)). unfold groupby. apply list_elem_of_fmap.
      exists k. split; [done|]. by apply unique_sorted_elem.
    + rewrite rows_of_absent by done. constructor.
  - intros H g Hg. rewrite (groups_are_rows_of _ _ _ Hg). apply H.
Qed.

(** X12.  [eval_mrr] returns exactly for the frames in which no query
    lists a passage twice, and raises [AssertionError] for the others. *)
Theorem eval_mrr_returns_iff_passages_differ
    (np_mean : list float -> float) (dev_data : list Scored) :
  ((forall q, NoDup (map (fun t => o_pid (s_row t))
                       (rows_of (fun t => o_qid (s_row t)) q dev_data))) ->
   exists res, eval_mrr np_mean dev_data = Ok res)
  /\ (~ (forall q, NoDup (map (fun t => o_pid (s_row t))
                            (rows_of (fun t => o_qid (s_row t)) q dev_data))) ->
      eval_mrr np_mean dev_data = Raise AssertionError).
Proof.
  unfold eval_mrr, eval_mrr_loop.
  destruct (eval_groups_outcome (groupby (fun t => o_qid (s_row t)) dev_data) tally0)
    as [H1 H2].
  rewrite groups_NoDup_rows in H1, H2. split.
  - intros H. destruct (H1 H) as [T ->]. simpl. by eexists.
  - intros H. by rewrite (H2 H).
Qed.

Lemma eval_mrr_returns_witness :
  (exists res, eval_mrr Double.np_mean Double.dev_scored = Ok res)
  /\ eval_mrr Double.np_mean
       [Double.scored 1 100 0 0.5; Double.scored 2 7 1 0.5; Double.scored 1 100 1 0.25]%float
     = Raise AssertionError.
Proof.
  split.
  - apply (proj1 (eval_mrr_returns_iff_passages_differ Double.np_mean Double.dev_scored)).
    apply groups_NoDup_rows. apply (bool_decide_unpack _). by vm_compute.
  - apply (proj2 (eval_mrr_returns_iff_passages_differ Double.np_mean _)).
    intros H. specialize (H 1). vm_compute in H.
    apply NoDup_cons in H as [H _]. apply H. left.
Defined.

Lemma reciprocal_in_unit_interval (k : nat) :
  (1 <= k <= 10)%nat ->
  PrimFloat.leb 0 (reciprocal k) = true /\ PrimFloat.leb (reciprocal k) 1 = true.
Proof.
  intros Hk.
  do 11 (destruct k as [|k]; [first [lia | by vm_compute]|]). lia.
Qed.

(** X13.  Every per-query value that [eval_mrr] averages is 0 or
    [1.0/k] for a rank [k] from 1 to 10, hence a float between 0 and 1. *)
Theorem eval_mrr_values_are_reciprocal_ranks (dev_data : list Scored) (T : tally) :
  eval_mrr_loop dev_data = Ok T ->
  Forall (fun v => (v = 0%float \/ exists k, (1 <= k <= 10)%nat /\ v = reciprocal k)
                   /\ PrimFloat.leb 0 v = true /\ PrimFloat.leb v 1 = true) (MRR T).
Proof.
  intros H. apply eval_mrr_loop_effect in H. subst T.
  rewrite foldl_group_effect_MRR. simpl. apply Forall_forall.
  intros v (g & -> & _)%list_elem_of_fmap. unfold reciprocal_rank.
  destruct (first_relevant _) as [rk|] eqn:Hrk.
  - apply first_relevant_bound in Hrk. rewrite length_take in Hrk.
    assert (1 <= rk <= 10)%nat as Hb by lia.
    split; [right; by exists rk|]. by apply reciprocal_in_unit_interval.
  - split; [by left|]. by vm_compute.
Qed.

Lemma eval_mrr_values_witness :
  exists T : tally,
    eval_mrr_loop Double.dev_scored = Ok T
    /\ Forall (fun v => PrimFloat.leb 0 v = true /\ PrimFloat.leb v 1 = true) (MRR T).
Proof.
  eexists. split; [vm_compute; reflexivity|].
  eapply Forall_impl;
    [exact (eval_mrr_values_are_reciprocal_ranks Double.dev_scored _
              ltac:(vm_compute; reflexivity))|].
  intros v H. exact (proj2 H).
Defined.

(** X14.  [eval_mrr] reads the frame query by query: two frames that
    list, for every query id, the same rows in the same order give the
    same result, however the queries are interleaved; in particular the
    frame need not be sorted by query id. *)
Theorem eval_mrr_reads_each_query_in_frame_order
    (np_mean : list float -> float) (d1 d2 : list Scored) :
  (forall q, rows_of (fun t => o_qid (s_row t)) q d1
             = rows_of (fun t => o_qid (s_row t)) q d2) ->
  eval_mrr np_mean d1 = eval_mrr np_mean d2
  /\ eval_mrr np_mean (sort_values (fun t => o_qid (s_row t)) d1) = eval_mrr np_mean d1.
Proof.
  intros H. unfold eval_mrr, eval_mrr_loop.
  split; [by rewrite (groupby_ext _ _ _ H) | by rewrite groupby_sort_values].
Qed.

Lemma eval_mrr_frame_order_witness :
  eval_mrr Double.np_mean
    [Double.scored 2 7 0 0.5; Double.scored 1 100 0 0.75; Double.scored 2 8 1 0.5;
     Double.scored 1 101 1 0.75]%float
  = eval_mrr Double.np_mean
      [Double.scored 1 100 0 0.75; Double.scored 1 101 1 0.75; Double.scored 2 7 0 0.5;
       Double.scored 2 8 1 0.5]%float.
Proof.
  refine (proj1 (eval_mrr_reads_each_query_in_frame_order Double.np_mean _ _ _)).
  intros q. destruct (decide (q = 1)) as [->|H1]; [reflexivity|].
  destruct (decide (q = 2)) as [->|H2]; [reflexivity|].
  rewrite !rows_of_absent; [done| |]; simpl; intros Hin;
    repeat (apply elem_of_cons in Hin as [?|Hin]; [done|]);
    by apply not_elem_of_nil in Hin.
Defined.

Lemma set_score_rows (data : list OutRow) (scores : list float) :
  length scores = length data -> map s_row (set_score data scores) = data.
Proof.
  unfold set_score. revert scores. induction data as [|r data IH]; intros [|x scores];
    simpl; try done. intros [= Hlen]. by rewrite IH.
Qed.

Lemma rows_of_fmap {A R : Type} (g : A -> R) (key : R -> Z) (q : Z) (l : list A) :
  rows_of key q (map g l) = map g (rows_of (fun a => key (g a)) q l).
Proof.
  unfold rows_of. induction l as [|a l IH]; simpl; [done|].
  rewrite !filter_cons. case_decide; simpl; by rewrite IH.
Qed.

Lemma NoDup_rows_of_pairs {R : Type} (key f : R -> Z) (q : Z) (l : list R) :
  NoDup (map (fun r => (key r, f r)) l) -> NoDup (map f (rows_of key q l)).
Proof.
  unfold rows_of. induction l as [|r l IH]; simpl; [constructor|].
  intros [Hfresh Hnd]%NoDup_cons. rewrite filter_cons. case_decide as Hq; [|by apply IH].
  simpl. apply NoDup_cons. split; [|by apply IH].
  intros (r' & Hf & [Hq' Hin]%list_elem_of_filter)%list_elem_of_fmap.
  apply Hfresh. apply list_elem_of_fmap. exists r'. split; [|done]. congruence.
Qed.

Lemma eval_mrr_accepts (np_mean : list float -> float) (dev_data : list Scored) :
  (forall q, NoDup (map (fun t => o_pid (s_row t))
                      (rows_of (fun t => o_qid (s_row t)) q dev_data))) ->
  exists res, eval_mrr np_mean dev_data = Ok res.
Proof.
  intros H. unfold eval_mrr, eval_mrr_loop.
  destruct (eval_groups_outcome (groupby (fun t => o_qid (s_row t)) dev_data) tally0)
    as [H1 _].
  rewrite groups_NoDup_rows in H1. destruct (H1 H) as [T ->]. simpl. by eexists.
Qed.

(** X17.  The matrix that [extract] assembles from exact answers passes
    the evaluator's own check: whatever scores [train] attaches to its
    rows, [eval_mrr] finds no passage twice under a query and returns. *)
Theorem eval_mrr_accepts_the_extracted_frame
    {S : Type} (fe : FeObj S) (float32 : float -> float) (B : Z)
    (df : list InRow) (queries : gmap Z Query) (s s' : S) (log : list event)
    (data : list OutRow) (group : list (Z * nat))
    (np_mean : list float -> float) (scores : list float) :
  extract_with (traced fe) float32 B df queries (s, []) = (Ok (data, group), (s', log)) ->
  (forall q docs, Call_get_result (str q) (Ok docs) ∈ log ->
                  map doc_pid docs ≡ₚ map pid (rows_of qid q df)) ->
  length scores = length data ->
  exists res, eval_mrr np_mean (set_score data scores) = Ok res.
Proof.
  intros H Hexact Hlen. apply eval_mrr_accepts. intros q.
  destruct (extract_exact_answers _ _ _ _ _ _ _ _ _ _ H Hexact) as (Hlab & _ & _).
  apply extract_ledger in H as (_ & _ & _ & _ & _ & _ & _ & _ & _ & _ & _ & Hnd & _).
  apply groups_NoDup_pairs in Hnd.
  assert (NoDup (map (fun r => (o_qid r, o_pid r)) data)) as Hpairs.
  { apply (Permutation_map (fun x : Z * Z * Z => (fst (fst x), snd (fst x)))) in Hlab.
    rewrite !map_map in Hlab. simpl in Hlab. by rewrite Hlab. }
  pose proof (rows_of_fmap s_row o_qid q (set_score data scores)) as Hrows.
  rewrite set_score_rows in Hrows by done.
  rewrite <- (map_map s_row o_pid), <- Hrows. by apply NoDup_rows_of_pairs.
Qed.

Lemma eval_mrr_accepts_extracted_witness :
  exists data group s' log res,
    extract_with (traced Double.fe) Double.float32 2 Double.judgments Double.queries
      (init Double.store0, []) = (Ok (data, group), (s', log))
    /\ eval_mrr Double.np_mean (set_score data [0.5; 0.25; 0.5; 0.75; 0.125]%float) = Ok res.
Proof.
  pose proof (eval_mrr_accepts_the_extracted_frame
                Double.fe Double.float32 2 Double.judgments Double.queries
                (init Double.store0)) as H.
  specialize (H _ _ _ _ Double.np_mean [0.5; 0.25; 0.5; 0.75; 0.125]%float
                ltac:(vm_compute; reflexivity)).
  destruct H as [res Hres].
  - intros q docs Hin. vm_compute in Hin.
    repeat (apply elem_of_cons in Hin as [Hin|Hin]; [try discriminate Hin|]);
      try (by apply not_elem_of_nil in Hin);
      injection Hin as Hq ->.
    + apply (str_inj q 1) in Hq as ->. vm_compute. apply Permutation_swap.
    + apply (str_inj q 2) in Hq as ->. vm_compute. apply Permutation_swap.
    + apply (str_inj q 3) in Hq as ->. vm_compute. reflexivity.
  - reflexivity.
  - eexists _, _, _, _, res. split; [vm_compute; reflexivity | exact Hres].
Defined.

(** ** The cache hashes *)

Lemma uint64_add_swap (a b c : Z) :
  uint64_add a (uint64_add b c) = uint64_add b (uint64_add a c).
Proof.
  unfold uint64_add. rewrite !Zplus_mod_idemp_r. f_equal. lia.
Qed.

Lemma series_sum_Permutation (h1 h2 : list Z) :
  h1 ≡ₚ h2 -> series_sum h1 = series_sum h2.
Proof.
  unfold series_sum. induction 1 as [|x l1 l2 _ IH|x y l|l1 l2 l3 _ IH1 _ IH2]; simpl.
  - done.
  - by rewrite IH.
  - apply uint64_add_swap.
  - congruence.
Qed.

Lemma hash_df_Permutation (hash_row : InRow -> Z) (df1 df2 : list InRow) :
  df1 ≡ₚ df2 -> hash_df hash_row df1 = hash_df hash_row df2.
Proof.
  intros H. unfold hash_df, hash_pandas_object. f_equal.
  apply series_sum_Permutation. by apply Permutation_map.
Qed.

(** C3, as the code has it.  [hash_df] is a function of the rows and of
    nothing else, and it adds the per-row hashes up, so it does not see
    the order of the rows: any two orderings of the same rows, and in
    particular the same rows in the same order, hash to the same value. *)
Theorem hash_df_ignores_row_order (hash_row : InRow -> Z) (df1 df2 : list InRow) :
  df1 ≡ₚ df2 -> hash_df hash_row df1 = hash_df hash_row df2.
Proof. apply hash_df_Permutation. Qed.

Lemma hash_df_ignores_row_order_witness :
  hash_df Double.hash_row [Double.judgment 1 100 1; Double.judgment 2 20 0]
  = hash_df Double.hash_row [Double.judgment 2 20 0; Double.judgment 1 100 1].
Proof.
  apply (hash_df_ignores_row_order Double.hash_row). apply Permutation_swap.
Defined.

(** No per-row hash and no frame have two orderings of the frame's rows
    that [hash_df] tells apart. *)
Lemma hash_df_not_order_sensitive :
  ~ (exists (hash_row : InRow -> Z) (df1 df2 : list InRow),
        df1 ≡ₚ df2 /\ hash_df hash_row df1 <> hash_df hash_row df2).
Proof.
  intros (hash_row & df1 & df2 & Hperm & Hne).
  apply Hne. by apply hash_df_Permutation.
Qed.

Lemma string_compare_trans (a b c : string) :
  String.compare a b <> Gt -> String.compare b c <> Gt -> String.compare a c <> Gt.
Proof.
  revert b c. induction a as [|x a IH]; intros [|y b] [|z c]; simpl; try done.
  unfold Ascii.compare.
  destruct (N.compare_spec (N_of_ascii x) (N_of_ascii y)) as [Hxy|Hxy|Hxy];
    destruct (N.compare_spec (N_of_ascii y) (N_of_ascii z)) as [Hyz|Hyz|Hyz];
    destruct (N.compare_spec (N_of_ascii x) (N_of_ascii z)) as [Hxz|Hxz|Hxz];
    try done; try lia.
  apply IH.
Qed.

Lemma str_le_trans (a b c : string) : str_le a b -> str_le b c -> str_le a c.
Proof.
  unfold str_le, String.leb. intros Hab Hbc.
  pose proof (string_compare_trans a b c) as H.
  destruct (String.compare a b), (String.compare b c), (String.compare a c);
    try done; exfalso; by apply H.
Qed.

Lemma sorted_Permutation (l1 l2 : list string) : l1 ≡ₚ l2 -> sorted l1 = sorted l2.
Proof.
  intros H. unfold sorted.
  assert (Transitive str_le) as Htrans by (intros a b c; apply str_le_trans).
  apply (Sorted_unique_strong str_le).
  - intros a b _ _. apply String.leb_antisym.
  - apply (stable_sort_Sorted String.leb). intros a b Hab.
    destruct (String.leb_total a b) as [H'|H']; congruence.
  - apply (stable_sort_Sorted String.leb). intros a b Hab.
    destruct (String.leb_total a b) as [H'|H']; congruence.
  - by rewrite !stable_sort_Permutation.
Qed.

(** C4.  [hash_fe] reads the extractor object through
    [feature_names()] only and sorts the names first: extractors whose
    name lists are permutations of each other hash alike, whatever else
    their stores hold and whatever the features were built with. *)
Theorem hash_fe_depends_on_sorted_names_only
    (md5_hexdigest : string -> string) {S1 S2 : Type}
    (fe1 : FeObj S1) (fe2 : FeObj S2) (s1 : S1) (s2 : S2) :
  call_feature_names fe1 s1 ≡ₚ call_feature_names fe2 s2 ->
  hash_fe md5_hexdigest fe1 s1 = hash_fe md5_hexdigest fe2 s2
  /\ hash_fe md5_hexdigest fe1 s1
     = md5_hexdigest (String.concat "," (sorted (call_feature_names fe1 s1))).
Proof.
  intros H. split; [|done]. unfold hash_fe. by rewrite (sorted_Permutation _ _ H).
Qed.

Lemma hash_fe_names_witness :
  hash_fe Double.md5_hexdigest (FeatureExtractor_obj Double.utils)
    (Double.registered [Double.bm25_default; LMDir Double.java_name 1000])
  = hash_fe Double.md5_hexdigest (FeatureExtractor_obj Double.utils)
      (Double.registered [LMDir Double.java_name 1500; Double.bm25_tuned]).
Proof.
  apply (hash_fe_depends_on_sorted_names_only Double.md5_hexdigest
           (FeatureExtractor_obj Double.utils) (FeatureExtractor_obj Double.utils)).
  vm_compute. apply Permutation_swap.
Defined.

(** ** The feature extractor facade *)

Lemma add_unfold {U : Type} (J : JUtils U) (f : Feature) (self : FeatureExtractor U) :
  add J f self
  = match j_add J (extractor f) (utils self) with
    | (Ok _, u) => (Ok tt, {| utils := u; feature_name := feature_name self ++ [name f] |})
    | (Raise e, u) => (Raise e, {| utils := u; feature_name := feature_name self |})
    end.
Proof.
  unfold add, bind, on_utils, zoom.
  by destruct (j_add J (extractor f) (utils self)) as [[[]|e] u].
Qed.

Lemma do_call_names {U : Type} (J : JUtils U) (c : call) (self self' : FeatureExtractor U) :
  do_call J c self = (Ok tt, self') ->
  feature_name self' = feature_name self ++ added_names [c].
Proof.
  destruct c as [f|q toks ds|q]; simpl.
  - rewrite add_unfold. destruct (j_add _ _ _) as [[[]|e] u]; [|done].
    by intros [= <-].
  - unfold lazy_extract, on_utils, zoom.
    destruct (lazyExtract _ _ _) as [o u]. intros [= _ <-]. simpl.
    by rewrite app_nil_r.
  - unfold bind, get_result, on_utils, zoom.
    destruct (getResult _ _ _) as [[docs|e] u]; [|done].
    intros [= <-]. simpl. by rewrite app_nil_r.
Qed.

Lemma do_calls_names {U : Type} (J : JUtils U) (cs : list call)
    (self self' : FeatureExtractor U) :
  do_calls J cs self = (Ok tt, self') ->
  feature_name self' = feature_name self ++ added_names cs.
Proof.
  revert self. induction cs as [|c cs IH]; intros self; simpl.
  - intros [= <-]. by rewrite app_nil_r.
  - intros H. inv_run H. destruct a. apply do_call_names in Hrun.
    apply IH in H. etrans; [exact H|]. rewrite Hrun, <- app_assoc. f_equal.
    by destruct c.
Qed.

(** C6.  [add] is not guarded, although its docstring says that
    extractors cannot be added in the middle of extraction.  A
    submission leaves no trace in the facade: the names are as before,
    only the native utils change.  An [add] that follows it hands the
    extractor to the native utils, raises exactly what they raise, and
    when they return it returns and appends the feature's name.  What
    holds of the order: after any sequence of calls that all return,
    [feature_names()] lists the names of the added features in
    registration order. *)
Theorem add_is_unguarded_after_submission
    {U : Type} (J : JUtils U) (f : Feature) (qid_v tokens_v doc_ids : pyval)
    (self : FeatureExtractor U) :
  let submitted := snd (lazy_extract J qid_v tokens_v doc_ids self) in
  feature_name submitted = feature_name self
  /\ add J f submitted
     = match j_add J (extractor f) (utils submitted) with
       | (Ok _, u) =>
           (Ok tt, {| utils := u; feature_name := feature_name self ++ [name f] |})
       | (Raise e, u) =>
           (Raise e, {| utils := u; feature_name := feature_name self |})
       end
  /\ (forall e : exn,
        fst (add J f submitted) = Raise e ->
        fst (j_add J (extractor f) (utils submitted)) = Raise e)
  /\ (forall (cs : list call) (fresh : U) (self' : FeatureExtractor U),
        do_calls J cs (init fresh) = (Ok tt, self') ->
        feature_names self' = added_names cs).
Proof.
  intros submitted.
  assert (feature_name submitted = feature_name self) as Hnames.
  { unfold submitted, lazy_extract, on_utils, zoom.
    by destruct (lazyExtract _ _ _) as [o u]. }
  split; [done|]. split; [|split].
  - by rewrite add_unfold, Hnames.
  - intros e. rewrite add_unfold.
    by destruct (j_add _ _ _) as [[[]|e0] u].
  - intros cs fresh self' H. apply do_calls_names in H.
    unfold feature_names. by rewrite H.
Qed.

Lemma add_after_submission_witness :
  fst (add Double.utils Double.bm25_default Double.submitted_once) = Ok tt
  /\ feature_names (snd (add Double.utils Double.bm25_default Double.submitted_once))
     = ["io.anserini.ltr.feature.base.BM25"]
  /\ exists self',
       do_calls Double.utils
         [CallAdd Double.bm25_default;
          CallLazyExtract (PStr "1") (PStrList ["what"]) (PIntList [100; 101]);
          CallAdd (LMDir Double.java_name 1000)]
         (init Double.store0) = (Ok tt, self')
       /\ feature_names self'
          = ["io.anserini.ltr.feature.base.BM25"; "io.anserini.ltr.feature.base.LMDir"].
Proof.
  destruct (add_is_unguarded_after_submission Double.utils Double.bm25_default
              (PStr "1") (PStrList ["what"]) (PIntList [100; 101])
              (init Double.store0)) as (_ & Hadd & _ & Horder).
  split; [|split].
  - unfold Double.submitted_once. rewrite Hadd. vm_compute. reflexivity.
  - unfold Double.submitted_once. rewrite Hadd. vm_compute. reflexivity.
  - eexists. split; [vm_compute; reflexivity|].
    pose proof (Horder
                  [CallAdd Double.bm25_default;
                   CallLazyExtract (PStr "1") (PStrList ["what"]) (PIntList [100; 101]);
                   CallAdd (LMDir Double.java_name 1000)]
                  Double.store0) as H.
    specialize (H _ ltac:(vm_compute; reflexivity)).
    exact H.
Defined.

(** C7.  [lazy_extract] is defined with one token list: called with the
    query id, both token lists and the document ids, as [extract] calls
    it, it raises [TypeError] and submits nothing; called with one token
    list it hands the native utils one job made of the query id, the
    tokens and the document ids. *)
Theorem lazy_extract_takes_one_token_list
    {U : Type} (J : JUtils U) (qid_v nonSW_v tokens_v doc_ids : pyval)
    (self : FeatureExtractor U) :
  call_lazy_extract (FeatureExtractor_obj J) [qid_v; nonSW_v; tokens_v; doc_ids] self
  = (Raise TypeError, self)
  /\ call_lazy_extract (FeatureExtractor_obj J) [qid_v; tokens_v; doc_ids] self
     = on_utils
         (lazyExtract J [("qid", qid_v); ("queryTokens", tokens_v); ("docIds", doc_ids)])
         self.
Proof. done. Qed.

(** With the repository's [FeatureExtractor], [extract] stops at its
    first submission. *)
Lemma extract_with_repository_extractor_raises :
  fst (extract (FeatureExtractor_obj Double.utils) Double.float32
         Double.judgments Double.queries (init Double.store0))
  = Raise TypeError.
Proof. vm_compute. reflexivity. Qed.

(** ** The loaders and the task identifier *)

Lemma hash_anserini_jar_reads_only {S : Type} (md5_hexdigest : string -> string) (w : Env S) :
  snd (hash_anserini_jar md5_hexdigest w) = w.
Proof.
  unfold hash_anserini_jar, bind, get, lift, ret, raise.
  destruct (environ w !! "ANSERINI_CLASSPATH") as [cp|]; [|done].
  destruct (glob w _) as [|jar [|]]; try done.
  by destruct (read_bytes w jar).
Qed.

Lemma data_loader_unknown_task {S : Type} (hash_row : InRow -> Z)
    (md5_hexdigest : string -> string) (fe : FeObj S) (float32 : float -> float)
    (task : string) (df : list InRow) (queries : gmap Z Query) (w : Env S) :
  task <> "train" -> task <> "dev" ->
  snd (data_loader hash_row md5_hexdigest fe float32 task df queries w) = w
  /\ fst (data_loader hash_row md5_hexdigest fe float32 task df queries w)
     = match fst (hash_anserini_jar md5_hexdigest w) with
       | Raise e => Raise e
       | Ok jar =>
           match fs w !! cache_path task (hash_df hash_row df) jar
                           (hash_fe md5_hexdigest fe (fe_state w)) with
           | None => Raise (Exception "unknown parameters")
           | Some (PickledObj res) => Ok res
           | Some (PickledFrame _) => Raise KeyError
           | Some (Table _) => Raise UnpicklingError
           end
       end.
Proof.
  intros Htrain Hdev. unfold data_loader, bind.
  pose proof (hash_anserini_jar_reads_only md5_hexdigest w) as Hpure.
  destruct (hash_anserini_jar md5_hexdigest w) as [[jar|e] w1]; simpl in *; subst w1;
    [|done].
  unfold get, exists_path. simpl.
  destruct (fs w !! _) as [[rows|res|lines]|] eqn:Hfile; simpl; try done.
  by rewrite !bool_decide_eq_false_2 by done.
Qed.

Lemma dev_data_loader_unknown_task {S : Type} (task : string) (w : Env S) :
  task <> "rerank" -> task <> "anserini" -> task <> "pygaggle" ->
  snd (dev_data_loader task w) = w
  /\ fst (dev_data_loader task w)
     = match fs w !! ("dev_" ++ task ++ ".pickle")%string with
       | None => Raise (Exception "unknown parameters")
       | Some (PickledFrame dev) => Ok dev
       | Some (PickledObj _) => Raise AttributeError
       | Some (Table _) => Raise UnpicklingError
       end.
Proof.
  intros H1 H2 H3. unfold dev_data_loader, bind, exists_path, get.
  destruct (fs w !! _) as [[rows|res|lines]|] eqn:Hfile; simpl;
    rewrite ?Hfile; try done.
  by rewrite !bool_decide_eq_false_2 by done.
Qed.

(** C9, as the code has it.  For a task outside ["train"], ["dev"],
    [data_loader] leaves the files and the extractor as they were and
    makes no call on the extractor; it raises what [hash_anserini_jar]
    raises, else returns the pickle found under the key of that task
    without looking at the task, else raises
    [Exception('unknown parameters')].  Likewise [dev_data_loader], for a
    task outside ["rerank"], ["anserini"], ["pygaggle"], changes
    nothing, returns the frame pickled as [dev_<task>.pickle] when there
    is one and raises [Exception('unknown parameters')] when there is
    none. *)
Theorem unknown_task_raises_unless_cached
    {S : Type} (hash_row : InRow -> Z) (md5_hexdigest : string -> string)
    (fe : FeObj S) (float32 : float -> float)
    (task : string) (df : list InRow) (queries : gmap Z Query)
    (w : Env (S * list event)) :
  task <> "train" -> task <> "dev" ->
  (snd (data_loader hash_row md5_hexdigest (traced fe) float32 task df queries w) = w
   /\ fst (data_loader hash_row md5_hexdigest (traced fe) float32 task df queries w)
      = match fst (hash_anserini_jar md5_hexdigest w) with
        | Raise e => Raise e
        | Ok jar =>
            match fs w !! cache_path task (hash_df hash_row df) jar
                            (hash_fe md5_hexdigest (traced fe) (fe_state w)) with
            | None => Raise (Exception "unknown parameters")
            | Some (PickledObj res) => Ok res
            | Some (PickledFrame _) => Raise KeyError
            | Some (Table _) => Raise UnpicklingError
            end
        end)
  /\ (forall (dev_task : string) (w' : Env S),
        dev_task <> "rerank" -> dev_task <> "anserini" -> dev_task <> "pygaggle" ->
        snd (dev_data_loader dev_task w') = w'
        /\ fst (dev_data_loader dev_task w')
           = match fs w' !! ("dev_" ++ dev_task ++ ".pickle")%string with
             | None => Raise (Exception "unknown parameters")
             | Some (PickledFrame dev) => Ok dev
             | Some (PickledObj _) => Raise AttributeError
             | Some (Table _) => Raise UnpicklingError
             end).
Proof.
  intros Htrain Hdev. split; [by apply data_loader_unknown_task|].
  intros. by apply dev_data_loader_unknown_task.
Qed.

Lemma unknown_task_witness :
  data_loader Double.hash_row Double.md5_hexdigest (traced Double.fe) Double.float32
    "test" Double.judgments Double.queries (Double.env0 (init Double.store0, []))
  = (Raise (Exception "unknown parameters"), Double.env0 (init Double.store0, []))
  /\ dev_data_loader "bm25" (Double.env0 (init Double.store0))
     = (Raise (Exception "unknown parameters"), Double.env0 (init Double.store0)).
Proof.
  pose proof (unknown_task_raises_unless_cached
                Double.hash_row Double.md5_hexdigest Double.fe Double.float32
                "test" Double.judgments Double.queries
                (Double.env0 (init Double.store0, []))
                ltac:(discriminate) ltac:(discriminate)) as [[Hs Ho] Hdev].
  split.
  - rewrite (surjective_pairing (data_loader _ _ _ _ _ _ _ _)), Hs, Ho. reflexivity.
  - destruct (Hdev "bm25" (Double.env0 (init Double.store0))
                ltac:(discriminate) ltac:(discriminate) ltac:(discriminate))
      as [Hs' Ho'].
    rewrite (surjective_pairing (dev_data_loader _ _)), Hs', Ho'. reflexivity.
Defined.

(** With a pickle under the key of the unrecognised task ["test"],
    [data_loader] returns it. *)
Lemma data_loader_unknown_task_returns_cached :
  fst (data_loader Double.hash_row Double.md5_hexdigest Double.fe Double.float32
         "test" Double.judgments Double.queries Double.env_cached)
  = Ok Double.cached_obj.
Proof. vm_compute. reflexivity. Qed.

(** ** The cache of extracted batches *)

Section CacheFacts.
Context {S : Type} (hash_row : InRow -> Z) (md5_hexdigest : string -> string)
  (fe : FeObj S) (float32 : float -> float).

(** The jar hash is read off the environment, the matching paths and
    the bytes of the jar. *)
Lemma hash_anserini_jar_same_env (w1 w2 : Env S) :
  environ w1 = environ w2 -> glob w1 = glob w2 -> read_bytes w1 = read_bytes w2 ->
  fst (hash_anserini_jar md5_hexdigest w1) = fst (hash_anserini_jar md5_hexdigest w2).
Proof.
  intros He Hg Hr. unfold hash_anserini_jar, bind, get, lift. rewrite He, Hg, Hr.
  destruct (environ w2 !! "ANSERINI_CLASSPATH") as [cp|]; [|done].
  destruct (glob w2 _) as [|jar [|]]; try done.
  by destruct (read_bytes w2 jar).
Qed.

(** The two ways [data_loader] returns. *)
Lemma data_loader_Ok (task : string) (df : list InRow) (queries : gmap Z Query)
    (w w' : Env S) (obj : Extracted) :
  data_loader hash_row md5_hexdigest fe float32 task df queries w = (Ok obj, w') ->
  exists jar : string,
    fst (hash_anserini_jar md5_hexdigest w) = Ok jar
    /\ let path := cache_path task (hash_df hash_row df) jar
                     (hash_fe md5_hexdigest fe (fe_state w)) in
       (fs w !! path = Some (PickledObj obj) /\ w' = w)
       \/ (fs w !! path = None /\ (task = "train" \/ task = "dev")
           /\ exists (data : list OutRow) (group : list (Z * nat)) (s' : S),
               extract fe float32 df queries (fe_state w) = (Ok (data, group), s')
               /\ obj = {| data := data; group := group;
                           df_hash := hash_df hash_row df; jar_hash := jar;
                           fe_hash := hash_fe md5_hexdigest fe (fe_state w) |}
               /\ w' = {| fs := <[path := PickledObj obj]> (fs w);
                          environ := environ w; glob := glob w;
                          read_bytes := read_bytes w; fe_state := s' |}).
Proof.
  unfold data_loader. intros H. inv_run H.
  pose proof (hash_anserini_jar_reads_only md5_hexdigest w) as Hpure.
  rewrite Hrun in Hpure. simpl in Hpure. subst s.
  unfold get in Hrun0. injection Hrun0 as <- <-.
  unfold exists_path in Hrun1. injection Hrun1 as <- <-.
  exists a. rewrite Hrun. split; [done|]. simpl.
  destruct (fs w !! _) as [[rows|res|lines]|] eqn:Hfile; simpl in H; try done.
  - left. apply ret_Ok in H as [-> ->]. done.
  - right. split; [done|].
    destruct (bool_decide (task = "train")) eqn:Ht;
      [|destruct (bool_decide (task = "dev")) eqn:Hd]; simpl in H; try done.
    + apply bool_decide_eq_true in Ht. split; [by left|].
      inv_run H. destruct a0 as [data group]. inv_run H.
      apply ret_Ok in H as [-> ->].
      unfold on_fe, zoom in Hrun0.
      destruct (extract fe float32 df queries (fe_state w)) as [o s'] eqn:He.
      injection Hrun0 as -> <-. unfold write_file in Hrun1. injection Hrun1 as <-.
      exists data, group, s'. done.
    + apply bool_decide_eq_true in Hd. split; [by right|].
      inv_run H. destruct a0 as [data group]. inv_run H.
      apply ret_Ok in H as [-> ->].
      unfold on_fe, zoom in Hrun0.
      destruct (extract fe float32 df queries (fe_state w)) as [o s'] eqn:He.
      injection Hrun0 as -> <-. unfold write_file in Hrun1. injection Hrun1 as <-.
      exists data, group, s'. done.
Qed.

(** A call that finds the pickle under its key returns it. *)
Lemma data_loader_hit (task : string) (df : list InRow) (queries : gmap Z Query)
    (w : Env S) (jar : string) (obj : Extracted) :
  fst (hash_anserini_jar md5_hexdigest w) = Ok jar ->
  fs w !! cache_path task (hash_df hash_row df) jar
            (hash_fe md5_hexdigest fe (fe_state w)) = Some (PickledObj obj) ->
  data_loader hash_row md5_hexdigest fe float32 task df queries w = (Ok obj, w).
Proof.
  intros Hjar Hfile. unfold data_loader, bind.
  pose proof (hash_anserini_jar_reads_only md5_hexdigest w) as Hpure.
  destruct (hash_anserini_jar md5_hexdigest w) as [o w1]. simpl in *. subst.
  unfold get, exists_path. simpl. by rewrite Hfile.
Qed.

(** X8.  Once [data_loader] has returned an object for a task and a
    frame, a later call for the same task returns that object from the
    pickle, without a call on the extractor and without a change to the
    files, as long as the feature names hash as before; this holds for
    any other order of the frame's rows and any other [queries], which
    are not part of the key. *)
Theorem data_loader_returns_the_stored_object
    (task : string) (df1 df2 : list InRow) (queries1 queries2 : gmap Z Query)
    (w w' : Env S) (obj : Extracted) :
  data_loader hash_row md5_hexdigest fe float32 task df1 queries1 w = (Ok obj, w') ->
  df1 ≡ₚ df2 ->
  hash_fe md5_hexdigest fe (fe_state w') = hash_fe md5_hexdigest fe (fe_state w) ->
  data_loader hash_row md5_hexdigest fe float32 task df2 queries2 w' = (Ok obj, w')
  /\ exists jar : string,
       fst (hash_anserini_jar md5_hexdigest w) = Ok jar
       /\ fs w' !! cache_path task (hash_df hash_row df1) jar
                      (hash_fe md5_hexdigest fe (fe_state w)) = Some (PickledObj obj).
Proof.
  intros H Hperm Hfe. apply data_loader_Ok in H as (jar & Hjar & H). simpl in H.
  assert (fs w' !! cache_path task (hash_df hash_row df1) jar
                     (hash_fe md5_hexdigest fe (fe_state w)) = Some (PickledObj obj)
          /\ fst (hash_anserini_jar md5_hexdigest w') = Ok jar) as [Hfile Hjar'].
  { destruct H as [[Hfile ->]|(Hnone & _ & data & group & s' & _ & _ & ->)]; [done|].
    simpl. rewrite lookup_insert_eq. split; [done|].
    rewrite <- Hjar. by apply hash_anserini_jar_same_env. }
  split; [|by exists jar].
  apply (data_loader_hit _ _ _ _ jar); [done|].
  by rewrite <- (hash_df_Permutation hash_row _ _ Hperm), Hfe.
Qed.

(** X9.  [data_loader] writes its pickle last: a call that raises leaves
    the files as they were.  It computes the jar hash first: what
    [hash_anserini_jar] raises ([KeyError] without [ANSERINI_CLASSPATH],
    [AssertionError] unless exactly one jar matches) is raised whatever
    the task and whatever the cache holds. *)
Theorem data_loader_failure_stores_nothing
    (task : string) (df : list InRow) (queries : gmap Z Query) (w : Env S) :
  (forall (e : exn) (w' : Env S),
      data_loader hash_row md5_hexdigest fe float32 task df queries w = (Raise e, w') ->
      fs w' = fs w)
  /\ (forall e : exn,
        fst (hash_anserini_jar md5_hexdigest w) = Raise e ->
        data_loader hash_row md5_hexdigest fe float32 task df queries w = (Raise e, w))
  /\ (environ w !! "ANSERINI_CLASSPATH" = None ->
      fst (hash_anserini_jar md5_hexdigest w) = Raise KeyError)
  /\ (forall cp : string,
        environ w !! "ANSERINI_CLASSPATH" = Some cp ->
        length (glob w (cp ++ "/*fatjar.jar")%string) <> 1%nat ->
        fst (hash_anserini_jar md5_hexdigest w) = Raise AssertionError).
Proof.
  pose proof (hash_anserini_jar_reads_only md5_hexdigest w) as Hpure.
  split; [|split; [|split]].
  - intros e w'. unfold data_loader, bind.
    destruct (hash_anserini_jar md5_hexdigest w) as [[jar|e0] w1]; simpl in Hpure; subst w1.
    2:{ by intros [= _ <-]. }
    unfold get, exists_path. simpl.
    destruct (fs w !! _) as [[rows|res|lines]|] eqn:Hfile; simpl;
      try (by intros [= _ <-]).
    destruct (_ || _); [|by intros [= _ <-]].
    unfold on_fe, zoom.
    destruct (extract fe float32 df queries (fe_state w)) as [[[data group]|e1] s'];
      simpl; [done|]. by intros [= _ <-].
  - intros e He. unfold data_loader, bind.
    destruct (hash_anserini_jar md5_hexdigest w) as [o w1]. simpl in *. by subst.
  - intros Hnone. unfold hash_anserini_jar, bind, get, lift. by rewrite Hnone.
  - intros cp Hcp Hlen. unfold hash_anserini_jar, bind, get, lift. rewrite Hcp.
    by destruct (glob w _) as [|jar [|]].
Qed.
End CacheFacts.

Lemma data_loader_stored_witness :
  exists obj w',
    data_loader Double.hash_row Double.md5_hexdigest Double.fe Double.float32
      "dev" Double.judgments Double.queries (Double.env0 (init Double.store0))
    = (Ok obj, w')
    /\ data_loader Double.hash_row Double.md5_hexdigest Double.fe Double.float32
         "dev" (rev Double.judgments) ∅ w' = (Ok obj, w').
Proof.
  eexists _, _. split; [vm_compute; reflexivity|].
  exact (proj1 (data_loader_returns_the_stored_object
                  Double.hash_row Double.md5_hexdigest Double.fe Double.float32
                  "dev" Double.judgments (rev Double.judgments) Double.queries ∅
                  (Double.env0 (init Double.store0)) _ _
                  ltac:(vm_compute; reflexivity)
                  (Permutation_rev Double.judgments)
                  ltac:(vm_compute; reflexivity))).
Defined.

Lemma data_loader_failure_witness :
  data_loader Double.hash_row Double.md5_hexdigest Double.fe Double.float32
    "train" Double.judgments Double.queries (Double.env_bare (init Double.store0))
  = (Raise KeyError, Double.env_bare (init Double.store0)).
Proof.
  destruct (data_loader_failure_stores_nothing
              Double.hash_row Double.md5_hexdigest Double.fe Double.float32
              "train" Double.judgments Double.queries
              (Double.env_bare (init Double.store0))) as (_ & Hjar & Hkey & _).
  apply Hjar, Hkey. reflexivity.
Defined.

(** ** The dev frame *)

Lemma qid_pid_leb_total (a b : InRow) : qid_pid_leb a b = false -> qid_pid_leb b a = true.
Proof.
  unfold qid_pid_leb. intros H.
  apply orb_false_iff in H as [H1 H2]. apply Z.ltb_ge in H1.
  destruct (qid b <? qid a) eqn:Hlt; [done|]. apply Z.ltb_ge in Hlt. simpl.
  assert (qid a = qid b) as Heq by lia. rewrite Heq, Z.eqb_refl in *. simpl in *.
  apply Z.leb_gt in H2. apply Z.leb_le. lia.
Qed.

Section MergeFacts.
Context (run : list (Z * Z * option Z)) (qrel : list (Z * Z * Z)).

Lemma merge_left_elem (t : InRow) :
  t ∈ merge_left run qrel <->
  (qid t, pid t, rank t) ∈ run
  /\ ((qid t, pid t, rel t) ∈ qrel
      \/ (rel t = 0 /\ forall r, (qid t, pid t, r) ∉ qrel)).
Proof.
  unfold merge_left. rewrite list_elem_of_In, in_flat_map. split.
  - intros ([[q p] rk] & Hrun%list_elem_of_In & Ht%list_elem_of_In).
    destruct (filter _ qrel) as [|j js] eqn:Hf.
    + apply list_elem_of_singleton in Ht as ->. simpl. split; [done|]. right.
      split; [done|]. intros r Hr.
      assert ((q, p, r) ∈ filter (fun j => fst (fst j) = q /\ snd (fst j) = p) qrel) as Hin.
      { by apply list_elem_of_filter. }
      rewrite Hf in Hin. by apply not_elem_of_nil in Hin.
    + apply list_elem_of_fmap in Ht as ([[q' p'] r] & -> & Hj). simpl.
      rewrite <- Hf in Hj. apply list_elem_of_filter in Hj as [[Hq Hp] Hj].
      simpl in Hq, Hp. subst. split; [done | by left].
  - intros [Hrun Hrel]. exists (qid t, pid t, rank t).
    split; [by apply list_elem_of_In|]. apply list_elem_of_In.
    destruct t as [q p rk r]. simpl in *.
    destruct (filter _ qrel) as [|j js] eqn:Hf.
    + destruct Hrel as [Hrel|[-> _]]; [|left].
      assert ((q, p, r) ∈ filter (fun j => fst (fst j) = q /\ snd (fst j) = p) qrel) as Hin.
      { by apply list_elem_of_filter. }
      rewrite Hf in Hin. by apply not_elem_of_nil in Hin.
    + destruct Hrel as [Hrel|[-> Hnone]].
      * apply (proj2 (list_elem_of_fmap
                        (fun j : Z * Z * Z =>
                           {| qid := q; pid := p; rank := rk; rel := snd j |})
                        (j :: js) _)).
        exists (q, p, r). split; [done|].
        rewrite <- Hf. by apply list_elem_of_filter.
      * exfalso. destruct j as [[q' p'] r'].
        assert ((q', p', r') ∈ filter (fun j => fst (fst j) = q /\ snd (fst j) = p) qrel)
          as Hin by (rewrite Hf; left).
        apply list_elem_of_filter in Hin as [[Hq Hp] Hin]. simpl in *. subst.
        by apply (Hnone r').
Qed.

Lemma filter_key_unique (q p : Z) :
  NoDup (map fst qrel) ->
  (length (filter (fun j : Z * Z * Z => fst (fst j) = q /\ snd (fst j) = p) qrel) <= 1)%nat.
Proof.
  induction qrel as [|[[q' p'] r] l IH]; simpl; [lia|].
  intros [Hfresh Hnd]%NoDup_cons. rewrite filter_cons. case_decide as Hk; [|by apply IH].
  simpl in Hk. destruct Hk as [-> ->]. simpl.
  destruct (filter _ l) as [|j js] eqn:Hf; [simpl; lia|]. exfalso. apply Hfresh.
  assert (j ∈ filter (fun j : Z * Z * Z => fst (fst j) = q /\ snd (fst j) = p) l) as Hin
    by (rewrite Hf; left).
  apply list_elem_of_filter in Hin as [[Hq Hp] Hin]. apply list_elem_of_fmap.
  exists j. split; [|done]. destruct j as [[? ?] ?]. simpl in *. by subst.
Qed.

Lemma merge_left_keeps_run :
  NoDup (map fst qrel) ->
  map (fun t => (qid t, pid t, rank t)) (merge_left run qrel) = run.
Proof.
  intros Hnd. unfold merge_left. induction run as [|[[q p] rk] l IH]; [done|].
  cbn [flat_map]. rewrite map_app, IH. pose proof (filter_key_unique q p Hnd) as Hlen.
  destruct (filter _ qrel) as [|j [|j' js]]; simpl in *; try done. lia.
Qed.
End MergeFacts.

(** X10.  The dev frame, as [dev_data_loader] makes it from the run and
    the judgments: it is in ascending (qid, pid) order; each of its rows
    is a row of the run with the relevance of a judgment for its pair,
    or with relevance 0 when the pair has no judgment; every row of the
    run is there once per judgment for its pair, and once when there is
    none; so with at most one judgment per pair the frame has exactly
    the rows of the run, and lists no pair twice when the run lists
    none twice. *)
Theorem dev_frame_defaults_missing_judgments_to_zero
    (run : list (Z * Z * option Z)) (qrel : list (Z * Z * Z)) :
  let dev := stable_sort qid_pid_leb (merge_left run qrel) in
  Sorted (fun a b => qid_pid_leb a b = true) dev
  /\ (forall t, t ∈ dev <->
        (qid t, pid t, rank t) ∈ run
        /\ ((qid t, pid t, rel t) ∈ qrel
            \/ (rel t = 0 /\ forall r, (qid t, pid t, r) ∉ qrel)))
  /\ (NoDup (map fst qrel) ->
      map (fun t => (qid t, pid t, rank t)) dev ≡ₚ run /\ length dev = length run
      /\ (NoDup (map fst run) -> NoDup (map (fun t => (qid t, pid t)) dev))).
Proof.
  intros dev. split; [|split].
  - apply stable_sort_Sorted. apply qid_pid_leb_total.
  - intros t. unfold dev. rewrite (stable_sort_Permutation _ _). apply merge_left_elem.
  - intros Hnd. unfold dev.
    pose proof (merge_left_keeps_run run qrel Hnd) as Hrun.
    split; [|split].
    + by rewrite (stable_sort_Permutation _ _), Hrun.
    + rewrite stable_sort_length.
      apply (f_equal length) in Hrun. by rewrite length_map in Hrun.
    + intros Hr. rewrite (stable_sort_Permutation _ _).
      apply (f_equal (map fst)) in Hrun. rewrite map_map in Hrun. simpl in Hrun.
      by rewrite Hrun.
Qed.

Lemma bind_Raise {S A B} (m : M S A) (k : A -> M S B) (s s' : S) (e : exn) :
  bind m k s = (Raise e, s') ->
  m s = (Raise e, s') \/ exists a s1, m s = (Ok a, s1) /\ k a s1 = (Raise e, s').
Proof.
  unfold bind. destruct (m s) as [[a|e0] s1]; [right; by exists a, s1|].
  intros [= <- <-]. by left.
Qed.

Lemma read_csv_reads_only {S : Type} (path : string) (width : nat) (usecols : list nat)
    (w : Env S) :
  snd (read_csv path width usecols w) = w.
Proof. unfold read_csv. by destruct (fs w !! path) as [[]|]. Qed.

Lemma dev_run_read {S : Type} (task : string) (w w1 : Env S) (o : outcome (list (list Z))) :
  (if bool_decide (task = "rerank") then
     read_csv "collections/msmarco-passage/top1000.dev" 4 [0; 1]%nat
   else if bool_decide (task = "anserini") then
     read_csv "runs/msmarco-passage/run.msmarco-passage.dev.small.tsv" 3 [0; 1; 2]%nat
   else if bool_decide (task = "pygaggle") then
     read_csv "../pygaggle/data/msmarco_ans_entire/run.dev.small.tsv" 3 [0; 1; 2]%nat
   else raise (Exception "unknown parameters")) w = (o, w1) ->
  w1 = w
  /\ match run_file task with
     | Some (path, width, usecols) => read_csv path width usecols w = (o, w)
     | None => o = Raise (Exception "unknown parameters")
     end.
Proof.
  unfold run_file.
  assert (forall path width usecols,
             read_csv path width usecols w = (o, w1) ->
             w1 = w /\ read_csv path width usecols w = (o, w)) as Hread.
  { intros path width usecols H.
    pose proof (read_csv_reads_only path width usecols w) as Hw.
    rewrite H in Hw. simpl in Hw. by subst. }
  destruct (bool_decide (task = "rerank")); [by apply Hread|].
  destruct (bool_decide (task = "anserini")); [by apply Hread|].
  destruct (bool_decide (task = "pygaggle")); [by apply Hread|].
  unfold raise. by intros [= <- <-].
Qed.

(** X11.  [dev_data_loader] keeps what it made: a call that returns a
    frame leaves it pickled as [dev_<task>.pickle], so that the next
    call returns the same frame from the pickle; when there was no
    pickle, the frame is the sorted left merge of the task's run file
    with the judgment file, and the pickle is the only change to the
    files; a call that raises changes nothing. *)
Theorem dev_data_loader_persists_its_frame {S : Type} (task : string) (w : Env S) :
  (forall (dev : list InRow) (w' : Env S),
      dev_data_loader task w = (Ok dev, w') ->
      dev_data_loader task w' = (Ok dev, w')
      /\ fs w' !! ("dev_" ++ task ++ ".pickle")%string = Some (PickledFrame dev)
      /\ (fs w !! ("dev_" ++ task ++ ".pickle")%string = None ->
          w' = {| fs := <[("dev_" ++ task ++ ".pickle")%string := PickledFrame dev]> (fs w);
                  environ := environ w; glob := glob w; read_bytes := read_bytes w;
                  fe_state := fe_state w |}
          /\ exists path width usecols rows qrows run qrel,
               run_file task = Some (path, width, usecols)
               /\ read_csv path width usecols w = (Ok rows, w)
               /\ read_csv "collections/msmarco-passage/qrels.dev.small.tsv" 4
                    [0; 2; 3]%nat w = (Ok qrows, w)
               /\ traverse as_run rows = Ok run /\ traverse as_qrel qrows = Ok qrel
               /\ dev = stable_sort qid_pid_leb (merge_left run qrel)))
  /\ (forall (e : exn) (w' : Env S), dev_data_loader task w = (Raise e, w') -> w' = w).
Proof.
  assert (forall w0 : Env S, forall dev,
             fs w0 !! ("dev_" ++ task ++ ".pickle")%string = Some (PickledFrame dev) ->
             dev_data_loader task w0 = (Ok dev, w0)) as Hhit.
  { intros w0 dev Hfile. unfold dev_data_loader, bind, exists_path, get.
    rewrite Hfile. simpl. by rewrite Hfile. }
  split.
  - intros dev w' H. unfold dev_data_loader in H. inv_run H.
    unfold exists_path in Hrun. injection Hrun as <- <-.
    destruct (fs w !! ("dev_" ++ task ++ ".pickle")%string) as [f|] eqn:Hfile; simpl in H.
    + inv_run H. unfold get in Hrun. injection Hrun as <- <-. rewrite Hfile in H.
      destruct f as [dev0|res|lines]; try done. apply ret_Ok in H as [-> ->].
      split; [by apply Hhit|]. by split.
    + inv_run H. apply lift_Ok in Hrun1 as [Hrun1 ->]. apply lift_Ok in Hrun2 as [Hrun2 ->].
      apply ret_Ok in H as [-> ->].
      apply dev_run_read in Hrun as [-> Hrun].
      pose proof (read_csv_reads_only "collections/msmarco-passage/qrels.dev.small.tsv"
                    4 [0; 2; 3]%nat w) as Hw.
      rewrite Hrun0 in Hw. simpl in Hw. subst s0.
      unfold write_file in Hrun3. injection Hrun3 as ?. subst.
      split; [apply Hhit; apply lookup_insert_eq|].
      split; [apply lookup_insert_eq|]. intros _. split; [done|].
      destruct (run_file task) as [[[path width] usecols]|]; [|done].
      eexists path, width, usecols, _, _, _, _. repeat split; eauto.
  - intros e w' H. unfold dev_data_loader in H.
    apply bind_Raise in H as [H|(cached & s1 & Hc & H)]; [done|].
    unfold exists_path in Hc. injection Hc as <- <-.
    destruct (bool_decide _).
    { apply bind_Raise in H as [H|(w0 & s2 & Hg & H)]; [done|].
      unfold get in Hg. injection Hg as <- <-.
      destruct (fs w !! _) as [[dev0|res|lines]|]; try done; by injection H as _ <-. }
    apply bind_Raise in H as [H|(rows & s2 & Hr & H)].
    { by apply dev_run_read in H as [-> _]. }
    apply dev_run_read in Hr as [-> _].
    apply bind_Raise in H as [H|(qrows & s3 & Hq & H)].
    { pose proof (read_csv_reads_only "collections/msmarco-passage/qrels.dev.small.tsv"
                    4 [0; 2; 3]%nat w) as Hw. rewrite H in Hw. by simpl in Hw. }
    pose proof (read_csv_reads_only "collections/msmarco-passage/qrels.dev.small.tsv"
                  4 [0; 2; 3]%nat w) as Hw. rewrite Hq in Hw. simpl in Hw. subst s3.
    apply bind_Raise in H as [H|(run & s4 & Hr & H)]; [by injection H as _ <-|].
    apply lift_Ok in Hr as [_ ->].
    apply bind_Raise in H as [H|(qrel & s5 & Hr & H)]; [by injection H as _ <-|].
    apply lift_Ok in Hr as [_ ->].
    apply bind_Raise in H as [H|(u & s6 & Hr & H)]; done.
Qed.

Lemma dev_data_loader_witness :
  exists dev w',
    dev_data_loader "anserini" (Double.env_files tt) = (Ok dev, w')
    /\ dev_data_loader "anserini" w' = (Ok dev, w')
    /\ map (fun t => (qid t, pid t, rel t)) dev = [(1, 100, 1); (1, 101, 0); (2, 21, 0)].
Proof.
  eexists _, _. split; [vm_compute; reflexivity|].
  split; [|vm_compute; reflexivity].
  exact (proj1 (proj1 (dev_data_loader_persists_its_frame "anserini"
                         (Double.env_files tt)) _ _ ltac:(vm_compute; reflexivity))).
Defined.

(** ** The training frame *)

Section DropDuplicates.
Context {A : Type} `{EqDecision A}.

Lemma drop_duplicates_elem (l : list A) (x : A) : x ∈ drop_duplicates l <-> x ∈ l.
Proof.
  induction l as [|y l IH]; simpl; [done|].
  rewrite !elem_of_cons, list_elem_of_filter, IH.
  destruct (decide (x = y)) as [->|Hne]; [split; intros _; by left|].
  split; [intros [?|[_ ?]]; [done | by right] | intros [?|?]; [done | by right]].
Qed.

Lemma drop_duplicates_NoDup (l : list A) : NoDup (drop_duplicates l).
Proof.
  induction l as [|y l IH]; simpl; [constructor|].
  apply NoDup_cons. split.
  - by intros [Hne _]%list_elem_of_filter.
  - by apply NoDup_filter.
Qed.
End DropDuplicates.

Lemma submseteq_NoDup {A : Type} (l k : list A) : l ⊆+ k -> NoDup k -> NoDup l.
Proof.
  intros [k' Hk]%submseteq_Permutation Hnd. rewrite Hk in Hnd.
  by apply NoDup_app in Hnd as [? _].
Qed.

Lemma traverse_Ok {A B} (f : A -> outcome B) (l : list A) (r : list B) :
  traverse f l = Ok r -> Forall2 (fun a b => f a = Ok b) l r.
Proof.
  revert r. induction l as [|a l IH]; intros r; simpl.
  - intros [= <-]. constructor.
  - intros H. inv_run H. injection H as <-. constructor; [done | by apply IH].
Qed.

Lemma neg_half_spec (train : list (Z * Z * Z)) :
  NoDup (neg_half train)
  /\ forall t, t ∈ neg_half train <->
       rank t = None /\ rel t = 0 /\ exists p, (qid t, p, pid t) ∈ train.
Proof.
  unfold neg_half. split.
  - apply NoDup_fmap_2; [|apply drop_duplicates_NoDup].
    intros [q n] [q' n'] [= -> ->]. done.
  - intros t. rewrite list_elem_of_fmap. split.
    + intros ([q n] & -> & Hin). rewrite drop_duplicates_elem in Hin.
      apply list_elem_of_fmap in Hin as ([[q' p] n'] & [= -> ->] & Hin). simpl.
      split; [done|]. split; [done|]. by exists p.
    + intros (Hrk & Hrel & p & Hin). exists (qid t, pid t).
      split; [destruct t; simpl in *; by subst|].
      rewrite drop_duplicates_elem. apply list_elem_of_fmap. by exists (qid t, p, pid t).
Qed.

Lemma pos_half_spec (train : list (Z * Z * Z)) :
  NoDup (pos_half train)
  /\ forall t, t ∈ pos_half train <->
       rank t = None /\ rel t = 1 /\ exists n, (qid t, pid t, n) ∈ train.
Proof.
  unfold pos_half. split.
  - apply NoDup_fmap_2; [|apply drop_duplicates_NoDup].
    intros [q n] [q' n'] [= -> ->]. done.
  - intros t. rewrite list_elem_of_fmap. split.
    + intros ([q p] & -> & Hin). rewrite drop_duplicates_elem in Hin.
      apply list_elem_of_fmap in Hin as ([[q' p'] n] & [= -> ->] & Hin). simpl.
      split; [done|]. split; [done|]. by exists n.
    + intros (Hrk & Hrel & n & Hin). exists (qid t, pid t).
      split; [destruct t; simpl in *; by subst|].
      rewrite drop_duplicates_elem. apply list_elem_of_fmap. by exists (qid t, pid t, n).
Qed.

Section SampleFacts.
Variable sample : nat -> Z -> list InRow -> list InRow.
(** Sampling without replacement: [n] of the rows of the group. *)
Hypothesis sample_spec :
  forall (n : nat) (seed : Z) (g : list InRow),
    (n <= length g)%nat -> length (sample n seed g) = n /\ sample n seed g ⊆+ g.

Lemma sample_group_spec (neg_sample random_seed : Z) (g s : list InRow) :
  sample_group sample neg_sample random_seed g = Ok s ->
  0 <= neg_sample
  /\ length s = Z.to_nat (Z.min neg_sample (Z.of_nat (length g)))
  /\ s ⊆+ g.
Proof.
  unfold sample_group. destruct (_ <? _) eqn:Hn; [done|]. intros [= <-].
  apply Z.ltb_ge in Hn. split; [lia|]. apply sample_spec. lia.
Qed.

Lemma sampled_groups (neg_sample random_seed : Z) (groups : list (Z * list InRow))
    (sampled : list (list InRow)) :
  traverse (fun g => sample_group sample neg_sample random_seed (snd g)) groups
  = Ok sampled ->
  Forall2 (fun g s => length s = Z.to_nat (Z.min neg_sample (Z.of_nat (length (snd g))))
                      /\ s ⊆+ snd g) groups sampled.
Proof.
  intros H%traverse_Ok. eapply Forall2_impl; [exact H|].
  intros g s Hs. by apply sample_group_spec in Hs as (_ & ? & ?).
Qed.

Lemma sampled_submseteq (groups : list (Z * list InRow)) (sampled : list (list InRow))
    (P : Z * list InRow -> list InRow -> Prop) :
  Forall2 (fun g s => P g s /\ s ⊆+ snd g) groups sampled ->
  concat sampled ⊆+ concat (map snd groups).
Proof.
  induction 1 as [|g s groups sampled [_ Hs] _ IH]; simpl; [done|].
  by apply submseteq_app.
Qed.

(** Of the samples of groups with distinct keys, the rows of a key are
    the sample of its group. *)
Lemma sampled_rows_of (q : Z) (groups : list (Z * list InRow))
    (sampled : list (list InRow)) (n : Z * list InRow -> nat) :
  NoDup (map fst groups) ->
  Forall (fun g => forall t, t ∈ snd g -> qid t = fst g) groups ->
  Forall2 (fun g s => length s = n g /\ s ⊆+ snd g) groups sampled ->
  length (rows_of qid q (concat sampled))
  = match list_find (fun g => fst g = q) groups with
    | Some (_, g) => n g
    | None => 0%nat
    end.
Proof.
  intros Hnd Hkeys Hall. induction Hall as [|g s groups sampled [Hlen Hs] _ IH]; [done|].
  simpl in Hnd. apply NoDup_cons in Hnd as [Hfresh Hnd].
  apply Forall_cons in Hkeys as [Hg Hkeys]. specialize (IH Hnd Hkeys).
  simpl. rewrite rows_of_app, length_app, IH.
  assert (forall t, t ∈ s -> qid t = fst g) as Hs'.
  { intros t Ht. apply Hg. by eapply elem_of_submseteq. }
  case_decide as Hq.
  - simpl. assert (rows_of qid q s = s) as ->.
    { unfold rows_of. clear -Hs' Hq. induction s as [|t s IH]; [done|].
      rewrite filter_cons, decide_True by (rewrite <- Hq; apply Hs'; left).
      f_equal. apply IH. intros t' Ht'. apply Hs'. by right. }
    rewrite Hlen.
    destruct (list_find _ groups) as [[i g']|] eqn:Hfind; [|lia].
    apply list_find_Some in Hfind as (Hi & Hq' & _). exfalso. apply Hfresh.
    rewrite Hq, <- Hq'. apply list_elem_of_fmap. exists g'. split; [done|].
    by eapply list_elem_of_lookup_2.
  - assert (rows_of qid q s = []) as ->.
    { unfold rows_of. clear -Hs' Hq. induction s as [|t s IH]; [done|].
      rewrite filter_cons, decide_False.
      - apply IH. intros t' Ht'. apply Hs'. by right.
      - intros Ht. apply Hq. rewrite <- Ht. symmetry. apply Hs'. left. }
    simpl. by destruct (list_find _ groups) as [[i g']|].
Qed.

(** X15.  The training frame that [train_data_loader] samples from the
    triples, given that [sample] draws without replacement: it is in
    ascending (qid, pid) order and lists no row twice; its rows with
    [rel = 1] are exactly the distinct positive pairs of the triples;
    its rows with [rel = 0] are negative pairs of the triples, and every
    query has [min(neg_sample, d)] of them, [d] being the number of its
    distinct negative passages. *)
Theorem sampled_frame_keeps_positives_and_samples_negatives
    (neg_sample random_seed : Z) (train : list (Z * Z * Z)) (frame : list InRow) :
  sampled_frame sample neg_sample random_seed train = Ok frame ->
  Sorted (fun a b => qid_pid_leb a b = true) frame
  /\ NoDup frame
  /\ (forall t, t ∈ frame -> rank t = None /\ (rel t = 1 \/ rel t = 0))
  /\ (forall t, rel t = 1 ->
        (t ∈ frame <-> rank t = None /\ exists n, (qid t, pid t, n) ∈ train))
  /\ (forall t, rel t = 0 -> t ∈ frame -> exists p, (qid t, p, pid t) ∈ train)
  /\ (forall q,
        length (filter (fun t => qid t = q /\ rel t = 0) frame)
        = Z.to_nat (Z.min neg_sample
                      (Z.of_nat (length (rows_of qid q (neg_half train)))))).
Proof.
  unfold sampled_frame. intros H. inv_run H. injection H as <-.
  rename a into sampled.
  destruct (pos_half_spec train) as [Hpos_nd Hpos].
  destruct (neg_half_spec train) as [Hneg_nd Hneg].
  pose proof (sampled_groups _ _ _ _ Hrun) as Hall.
  assert (concat sampled ⊆+ neg_half train) as Hsub.
  { rewrite <- (groupby_Permutation qid (neg_half train)).
    eapply (sampled_submseteq _ _ (fun _ _ => True)), Forall2_impl; [exact Hall|].
    by intros g s [_ ?]. }
  assert (forall t, t ∈ concat sampled -> t ∈ neg_half train) as Hin.
  { intros t Ht. by eapply elem_of_submseteq. }
  assert (forall t, t ∈ stable_sort qid_pid_leb (concat (pos_half train :: sampled))
                    <-> t ∈ pos_half train \/ t ∈ concat sampled) as Hframe.
  { intros t. rewrite (stable_sort_Permutation _ _). simpl. apply elem_of_app. }
  split; [apply stable_sort_Sorted, qid_pid_leb_total|].
  split.
  { rewrite (stable_sort_Permutation _ _). simpl. apply NoDup_app.
    split; [done|]. split; [|by eapply submseteq_NoDup].
    intros t Ht1 Ht2%Hin. apply Hpos in Ht1 as (_ & H1 & _).
    apply Hneg in Ht2 as (_ & H0 & _). congruence. }
  split.
  { intros t [Ht|Ht%Hin]%Hframe.
    - apply Hpos in Ht as (? & ? & _). split; [done | by left].
    - apply Hneg in Ht as (? & ? & _). split; [done | by right]. }
  split.
  { intros t Hrel. rewrite Hframe, Hpos. split.
    - intros [(? & _ & ?)|Ht%Hin]; [done|].
      apply Hneg in Ht as (_ & H0 & _). congruence.
    - intros [? ?]. left. done. }
  split.
  { intros t Hrel [Ht|Ht%Hin]%Hframe.
    - apply Hpos in Ht as (_ & H1 & _). congruence.
    - by apply Hneg in Ht as (_ & _ & ?). }
  intros q. rewrite (stable_sort_Permutation _ _). simpl.
  rewrite filter_app, length_app.
  assert (filter (fun t => qid t = q /\ rel t = 0) (pos_half train) = []) as ->.
  { apply filter_none, Forall_forall. intros t Ht [_ H0].
    apply Hpos in Ht as (_ & H1 & _). congruence. }
  assert (filter (fun t => qid t = q /\ rel t = 0) (concat sampled)
          = rows_of qid q (concat sampled)) as ->.
  { apply filter_ext_elem, Forall_forall. intros t Ht%Hin.
    apply Hneg in Ht as (_ & H0 & _). tauto. }
  simpl.
  rewrite (sampled_rows_of q (groupby qid (neg_half train)) sampled
             (fun g => Z.to_nat (Z.min neg_sample (Z.of_nat (length (snd g)))))).
  - destruct (list_find _ _) as [[i g]|] eqn:Hfind.
    + apply list_find_Some in Hfind as (Hi & Hq & _).
      apply list_elem_of_lookup_2 in Hi. apply groups_are_rows_of in Hi.
      by rewrite Hi, Hq.
    + apply list_find_None in Hfind. rewrite rows_of_absent; [simpl; lia|].
      intros Hq. apply unique_sorted_elem in Hq. rewrite Forall_forall in Hfind.
      apply (Hfind (q, rows_of qid q (neg_half train))); [|done].
      unfold groupby. apply list_elem_of_fmap. by exists q.
  - unfold groupby. rewrite map_map. simpl. rewrite map_id. apply unique_sorted_NoDup.
  - apply Forall_forall. intros g Hg t Ht. rewrite (groups_are_rows_of _ _ _ Hg) in Ht.
    by apply list_elem_of_filter in Ht as [? _].
  - exact Hall.
Qed.
End SampleFacts.

Lemma double_sample_spec (n : nat) (seed : Z) (g : list InRow) :
  (n <= length g)%nat ->
  length (Double.sample n seed g) = n /\ Double.sample n seed g ⊆+ g.
Proof.
  intros Hn. unfold Double.sample. split; [rewrite length_take; lia|].
  apply sublist_submseteq, sublist_take.
Qed.

Lemma sampled_frame_witness :
  exists frame,
    sampled_frame Double.sample 1 12345 Double.triples = Ok frame
    /\ map (fun t => (qid t, pid t, rel t)) frame
       = [(1, 100, 1); (1, 101, 1); (1, 200, 0); (2, 20, 1); (2, 21, 0)]
    /\ NoDup frame.
Proof.
  eexists. split; [vm_compute; reflexivity|]. split; [vm_compute; reflexivity|].
  exact (proj1 (proj2 (sampled_frame_keeps_positives_and_samples_negatives
                         Double.sample double_sample_spec 1 12345 Double.triples _
                         ltac:(vm_compute; reflexivity)))).
Defined.

(** X16.  [train_data_loader] samples once: a call that returns a frame
    leaves it pickled under the name made of [neg_sample] and
    [random_seed], and the next call returns that frame from the pickle
    whatever the sampler would draw; when there was no pickle the frame
    is the one sampled from the triples file, and the pickle is the only
    change; a call that raises changes nothing. *)
Theorem train_data_loader_samples_once {S : Type}
    (sample : nat -> Z -> list InRow -> list InRow) (neg_sample random_seed : Z)
    (w : Env S) :
  let path := ("train_sampled_with_" ++ str neg_sample ++ "_" ++ str random_seed
                 ++ ".pickle")%string in
  (forall (frame : list InRow) (w' : Env S),
      train_data_loader sample neg_sample random_seed w = (Ok frame, w') ->
      (forall sample', train_data_loader sample' neg_sample random_seed w' = (Ok frame, w'))
      /\ fs w' !! path = Some (PickledFrame frame)
      /\ (fs w !! path = None ->
          w' = {| fs := <[path := PickledFrame frame]> (fs w);
                  environ := environ w; glob := glob w; read_bytes := read_bytes w;
                  fe_state := fe_state w |}
          /\ exists rows train,
               read_csv "collections/msmarco-passage/qidpidtriples.train.full.2.tsv" 3
                 [0; 1; 2]%nat w = (Ok rows, w)
               /\ traverse as_triple rows = Ok train
               /\ sampled_frame sample neg_sample random_seed train = Ok frame))
  /\ (forall (e : exn) (w' : Env S),
        train_data_loader sample neg_sample random_seed w = (Raise e, w') -> w' = w).
Proof.
  intros path.
  assert (forall (w0 : Env S) frame sample',
             fs w0 !! path = Some (PickledFrame frame) ->
             train_data_loader sample' neg_sample random_seed w0 = (Ok frame, w0)) as Hhit.
  { intros w0 frame sample' Hfile. unfold train_data_loader, bind, exists_path, get.
    fold path. rewrite Hfile. simpl. by rewrite Hfile. }
  split.
  - intros frame w' H. unfold train_data_loader in H. fold path in H. inv_run H.
    unfold exists_path in Hrun. injection Hrun as <- <-.
    destruct (fs w !! path) as [f|] eqn:Hfile; simpl in H.
    + inv_run H. unfold get in Hrun. injection Hrun as <- <-. rewrite Hfile in H.
      destruct f as [frame0|res|lines]; try done. apply ret_Ok in H as [-> ->].
      split; [intros; by apply Hhit|]. by split.
    + inv_run H. apply lift_Ok in Hrun0 as [Hrun0 ->]. apply lift_Ok in Hrun1 as [Hrun1 ->].
      apply ret_Ok in H as [-> ->].
      pose proof (read_csv_reads_only
                    "collections/msmarco-passage/qidpidtriples.train.full.2.tsv"
                    3 [0; 1; 2]%nat w) as Hw.
      rewrite Hrun in Hw. simpl in Hw. subst s.
      unfold write_file in Hrun2. injection Hrun2 as ?. subst.
      split; [intros; apply Hhit; apply lookup_insert_eq|].
      split; [apply lookup_insert_eq|]. intros _. split; [done|].
      eexists _, _. repeat split; eauto.
  - intros e w' H. unfold train_data_loader in H. fold path in H.
    apply bind_Raise in H as [H|(cached & s1 & Hc & H)]; [done|].
    unfold exists_path in Hc. injection Hc as <- <-.
    destruct (bool_decide _).
    { apply bind_Raise in H as [H|(w0 & s2 & Hg & H)]; [done|].
      unfold get in Hg. injection Hg as <- <-.
      destruct (fs w !! _) as [[frame0|res|lines]|]; try done; by injection H as _ <-. }
    pose proof (read_csv_reads_only
                  "collections/msmarco-passage/qidpidtriples.train.full.2.tsv"
                  3 [0; 1; 2]%nat w) as Hw.
    apply bind_Raise in H as [H|(rows & s2 & Hr & H)].
    { rewrite H in Hw. by simpl in Hw. }
    rewrite Hr in Hw. simpl in Hw. subst s2.
    apply bind_Raise in H as [H|(train & s4 & Hr' & H)]; [by injection H as _ <-|].
    apply lift_Ok in Hr' as [_ ->].
    apply bind_Raise in H as [H|(frame & s5 & Hr' & H)]; [by injection H as _ <-|].
    apply lift_Ok in Hr' as [_ ->].
    apply bind_Raise in H as [H|(u & s6 & Hr' & H)]; done.
Qed.

Lemma train_data_loader_witness :
  exists frame w',
    train_data_loader Double.sample 1 12345 (Double.env_files tt) = (Ok frame, w')
    /\ train_data_loader (fun _ _ g => g) 1 12345 w' = (Ok frame, w').
Proof.
  eexists _, _. split; [vm_compute; reflexivity|].
  exact (proj1 (proj1 (train_data_loader_samples_once Double.sample 1 12345
                         (Double.env_files tt)) _ _ ltac:(vm_compute; reflexivity))
           (fun _ _ g => g)).
Defined.
